(** * VeiledPredictionMarket: a shallow embedding of the contract and its properties

    The development follows [contracts/VeiledPredictionMarket.sol].

    - [Module FHE] models the confidential-compute substrate the contract
      consumes (the [@fhevm/solidity] library): ciphertext handles, the
      operations on them, the access-control list and the operation log.
    - The contract's storage, its three transactions ([createPrediction],
      [placeBet], [grantAccess]) and its views are written in a small
      state-and-revert monad, statement by statement as in the source.
    - The theorems come last. *)

From Stdlib Require Import ZArith Lia String List Bool.
From stdpp Require Import base option list gmap.

Local Open Scope Z_scope.

(** ** Solidity integer ranges *)

Definition address := Z.

(** [type(uint64).max] *)
Definition UINT64_MAX : Z := 2 ^ 64 - 1.
Definition UINT256_MOD : Z := 2 ^ 256.
Definition ADDRESS_MOD : Z := 2 ^ 160.

(** [uint8(x)] and [uint64(x)]: explicit narrowing conversions truncate. *)
Definition to_uint8 (x : Z) : Z := x mod 2 ^ 8.
Definition to_uint64 (x : Z) : Z := x mod 2 ^ 64.

(** ** The confidential-compute substrate

    The contract consumes the substrate through [FHE.sol]: trivial
    encryption, verified input, addition, equality, selection and grants.
    The substrate's own admission checks (an operation on a handle requires
    the calling contract to hold a grant on it) are not modelled; the
    source passes every handle it stores to [FHE.allowThis] in the
    transaction that stores it. *)

Module FHE.

(** Encrypted types used by the contract. *)
Inductive fhe_type := EBool | EUint8 | EUint32 | EUint64.

Definition bits (t : fhe_type) : Z :=
  match t with
  | EBool => 1
  | EUint8 => 8
  | EUint32 => 32
  | EUint64 => 64
  end.

(** A ciphertext handle is an opaque reference.  The substrate derives the
    handle of a result from the operation and the handles of its operands,
    so a handle is modelled by the term that produced it.  [HNull] is the
    all-zero handle of an uninitialised storage slot.  [HInput] is a
    verified user input: [ext] is the public external handle, [secret] the
    plaintext only the submitter knows. *)
Inductive handle :=
| HNull
| HTrivial (t : fhe_type) (v : Z)
| HInput (t : fhe_type) (ext : Z) (secret : Z)
| HAdd (t : fhe_type) (a b : handle)
| HEq (a b : handle)
| HSelect (c a b : handle).

(** The plaintext-equivalent value of a handle: what an authorised
    decryption returns.  Arithmetic is fixed-width and wraps. *)
Fixpoint denote (h : handle) : Z :=
  match h with
  | HNull => 0
  | HTrivial t v => v mod 2 ^ bits t
  | HInput t _ secret => secret mod 2 ^ bits t
  | HAdd t a b => (denote a + denote b) mod 2 ^ bits t
  | HEq a b => if denote a =? denote b then 1 else 0
  | HSelect c a b => if denote c =? 0 then denote b else denote a
  end.

Definition isInitialized (h : handle) : bool :=
  match h with
  | HNull => false
  | _ => true
  end.

(** What the substrate and the ledger make public while a transaction
    runs: every homomorphic operation with its operand and result handles,
    and every access to a counter slot of the contract. *)
Inductive obs :=
| OpTrivialEncrypt (t : fhe_type) (v : Z) (r : handle)
| OpVerifyInput (t : fhe_type) (ext : Z) (r : handle)
| OpAdd (a b r : handle)
| OpEq (a b r : handle)
| OpSelect (c a b r : handle)
| CounterRead (predictionId : Z) (slot : nat)
| CounterWrite (predictionId : Z) (slot : nat).

(** An externally supplied encrypted input: the handle the caller passes,
    and the proof bundle, which carries the ciphertext (here: its
    plaintext) and either verifies or not. *)
Record inputProof := mkProof { proof_valid : bool; proof_plain : Z }.

Definition fhe_type_eq_dec (a b : fhe_type) : {a = b} + {a <> b}.
Proof. decide equality. Defined.

Definition handle_eq_dec (a b : handle) : {a = b} + {a <> b}.
Proof. decide equality; (apply Z.eq_dec || apply fhe_type_eq_dec). Defined.

End FHE.

Export FHE.

#[global] Instance handle_eq_decision : EqDecision handle := handle_eq_dec.

(** ** Contract storage *)

Record Prediction := mkPrediction {
  title : string;
  options : list string;
  optionCount : Z;
  createdAt : Z;
  creator : address;
  totalStaked : handle;
  totalBets : handle;
  optionCounts : list handle
}.

Record Bet := mkBet {
  choice : handle;
  amount : handle;
  exists_ : bool
}.

Inductive event :=
| PredictionCreated (predictionId : Z) (creator : address) (title : string) (optionCount : Z)
| BetPlaced (predictionId : Z) (bettor : address) (amount : Z).

(** What a revert carries: one of the contract's four errors, the library's
    rejection of an input proof, a panic of the compiled code, or nothing
    when value was sent to a function that is not [payable]. *)
Inductive error :=
| InvalidPrediction
| InvalidOptions
| BetAlreadyPlaced
| InvalidBetAmount
| InvalidProof
| Panic
| NonPayable.

(** The value of a storage slot that was never written. *)
Definition zero_Prediction : Prediction :=
  mkPrediction EmptyString [] 0 0 0 HNull HNull [HNull; HNull; HNull; HNull].

Definition zero_Bet : Bet := mkBet HNull HNull false.

(** The ledger state: the contract's two storage variables, the substrate's
    access-control list (one record per grant, in order), the public
    observation log and the emitted events. *)
Record State := mkState {
  _predictions : list Prediction;
  _bets : gmap (Z * address) Bet;
  acl : list (handle * address);
  trace : list obs;
  events : list event
}.

Definition init_State : State := mkState [] ∅ [] [] [].

(** [_bets[predictionId][user]]: a mapping read never fails. *)
Definition bet_at (s : State) (predictionId : Z) (user : address) : Bet :=
  default zero_Bet (_bets s !! (predictionId, user)).

(** The substrate's permission predicate. *)
Definition allowed (s : State) (h : handle) (a : address) : Prop :=
  (h, a) ∈ acl s.

Definition allowedb (s : State) (h : handle) (a : address) : bool :=
  bool_decide ((h, a) ∈ acl s).

(** ** The execution monad: state passing with revert *)

Inductive result (A : Type) :=
| Ok (a : A) (s : State)
| Revert (e : error).
Arguments Ok {A} a s.
Arguments Revert {A} e.

Definition M (A : Type) : Type := State -> result A.

Definition ret {A} (a : A) : M A := fun s => Ok a s.

Definition bind {A B} (m : M A) (f : A -> M B) : M B :=
  fun s => match m s with
           | Ok a s' => f a s'
           | Revert e => Revert e
           end.

Definition revert {A} (e : error) : M A := fun _ => Revert e.

Notation "x <- m ;; k" := (bind m (fun x => k))
  (at level 100, m at next level, right associativity).
Notation "m ;;; k" := (bind m (fun _ => k))
  (at level 100, right associativity).

Definition get : M State := fun s => Ok s s.
Definition modify (f : State -> State) : M unit := fun s => Ok tt (f s).

Definition observe (o : obs) : M unit :=
  modify (fun s => mkState (_predictions s) (_bets s) (acl s) (trace s ++ [o]) (events s)).

Definition emit (e : event) : M unit :=
  modify (fun s => mkState (_predictions s) (_bets s) (acl s) (trace s) (events s ++ [e])).

(** [for (i = start; i < start + n; i++) body(i)] *)
Fixpoint for_loop (n : nat) (start : nat) (body : nat -> M unit) : M unit :=
  match n with
  | O => ret tt
  | S n' => body start ;;; for_loop n' (S start) body
  end.

(** The same loop carrying a local variable (a memory array). *)
Fixpoint for_fold {A} (n : nat) (start : nat) (body : nat -> A -> M A) (a : A) : M A :=
  match n with
  | O => ret a
  | S n' => a' <- body start a ;; for_fold n' (S start) body a'
  end.

(** ** The library calls of [FHE.sol], in the monad *)

(** [FHE.asEuint8/32/64(v)]: trivial encryption of a public value. *)
Definition FHE_asEuint (t : fhe_type) (v : Z) : M handle :=
  let r := HTrivial t v in
  observe (OpTrivialEncrypt t v r) ;;; ret r.

(** [FHE.fromExternal(input, proof)]: reverts when the proof does not verify. *)
Definition FHE_fromExternal (encryptedChoice : Z) (proof : inputProof) : M handle :=
  if proof_valid proof then
    let r := HInput EUint8 encryptedChoice (proof_plain proof) in
    observe (OpVerifyInput EUint8 encryptedChoice r) ;;; ret r
  else revert InvalidProof.

(** The library replaces an uninitialised operand by a trivial zero. *)
Definition initialized (t : fhe_type) (h : handle) : M handle :=
  if isInitialized h then ret h else FHE_asEuint t 0.

Definition FHE_add (t : fhe_type) (a b : handle) : M handle :=
  a' <- initialized t a ;;
  b' <- initialized t b ;;
  let r := HAdd t a' b' in
  observe (OpAdd a' b' r) ;;; ret r.

Definition FHE_eq (t : fhe_type) (a b : handle) : M handle :=
  a' <- initialized t a ;;
  b' <- initialized t b ;;
  let r := HEq a' b' in
  observe (OpEq a' b' r) ;;; ret r.

Definition FHE_select (control a b : handle) : M handle :=
  let r := HSelect control a b in
  observe (OpSelect control a b r) ;;; ret r.

(** [FHE.allow(h, account)]: one more permission record; grants never expire. *)
Definition FHE_allow (h : handle) (account : address) : M unit :=
  modify (fun s => mkState (_predictions s) (_bets s) (acl s ++ [(h, account)]) (trace s) (events s)).

(** ** Storage access *)

(** [_predictions.length] *)
Definition predictions_length (s : State) : Z := Z.of_nat (length (_predictions s)).

(** [_predictions[predictionId]] read through a storage reference; an index
    out of range is a panic. *)
Definition load_prediction (predictionId : Z) : M Prediction :=
  fun s => match _predictions s !! Z.to_nat predictionId with
           | Some p => Ok p s
           | None => Revert Panic
           end.

Definition store_prediction (predictionId : Z) (f : Prediction -> Prediction) : M unit :=
  fun s => match _predictions s !! Z.to_nat predictionId with
           | Some p =>
               Ok tt (mkState (<[Z.to_nat predictionId := f p]> (_predictions s))
                              (_bets s) (acl s) (trace s) (events s))
           | None => Revert Panic
           end.

(** [_predictions.push()]: a fresh zeroed element at the end. *)
Definition push_prediction : M unit :=
  modify (fun s => mkState (_predictions s ++ [zero_Prediction])
                           (_bets s) (acl s) (trace s) (events s)).

Definition set_title (v : string) (p : Prediction) : Prediction :=
  mkPrediction v (options p) (optionCount p) (createdAt p) (creator p)
               (totalStaked p) (totalBets p) (optionCounts p).
Definition set_options (v : list string) (p : Prediction) : Prediction :=
  mkPrediction (title p) v (optionCount p) (createdAt p) (creator p)
               (totalStaked p) (totalBets p) (optionCounts p).
(** [prediction.options.push(o)] *)
Definition push_option (o : string) (p : Prediction) : Prediction :=
  set_options (options p ++ [o]) p.
Definition set_optionCount (v : Z) (p : Prediction) : Prediction :=
  mkPrediction (title p) (options p) v (createdAt p) (creator p)
               (totalStaked p) (totalBets p) (optionCounts p).
Definition set_createdAt (v : Z) (p : Prediction) : Prediction :=
  mkPrediction (title p) (options p) (optionCount p) v (creator p)
               (totalStaked p) (totalBets p) (optionCounts p).
Definition set_creator (v : address) (p : Prediction) : Prediction :=
  mkPrediction (title p) (options p) (optionCount p) (createdAt p) v
               (totalStaked p) (totalBets p) (optionCounts p).
Definition set_totalStaked (v : handle) (p : Prediction) : Prediction :=
  mkPrediction (title p) (options p) (optionCount p) (createdAt p) (creator p)
               v (totalBets p) (optionCounts p).
Definition set_totalBets (v : handle) (p : Prediction) : Prediction :=
  mkPrediction (title p) (options p) (optionCount p) (createdAt p) (creator p)
               (totalStaked p) v (optionCounts p).
Definition set_optionCounts (v : list handle) (p : Prediction) : Prediction :=
  mkPrediction (title p) (options p) (optionCount p) (createdAt p) (creator p)
               (totalStaked p) (totalBets p) v.

(** [prediction.optionCounts[i]] as an rvalue: the fixed array has four
    slots, an index beyond them is a panic. *)
Definition read_count (predictionId : Z) (i : nat) : M handle :=
  p <- load_prediction predictionId ;;
  match optionCounts p !! i with
  | Some h => observe (CounterRead predictionId i) ;;; ret h
  | None => revert Panic
  end.

(** [prediction.optionCounts[i] = h] *)
Definition write_count (predictionId : Z) (i : nat) (h : handle) : M unit :=
  p <- load_prediction predictionId ;;
  match optionCounts p !! i with
  | Some _ =>
      store_prediction predictionId (fun p => set_optionCounts (<[i := h]> (optionCounts p)) p) ;;;
      observe (CounterWrite predictionId i)
  | None => revert Panic
  end.

(** [_bets[predictionId][user].field = ...] *)
Definition store_bet (predictionId : Z) (user : address) (f : Bet -> Bet) : M unit :=
  modify (fun s => mkState (_predictions s)
                           (<[(predictionId, user) := f (bet_at s predictionId user)]> (_bets s))
                           (acl s) (trace s) (events s)).

Definition load_bet (predictionId : Z) (user : address) : M Bet :=
  fun s => Ok (bet_at s predictionId user) s.

Definition set_choice (v : handle) (b : Bet) : Bet := mkBet v (amount b) (exists_ b).
Definition set_amount (v : handle) (b : Bet) : Bet := mkBet (choice b) v (exists_ b).
Definition set_exists (v : bool) (b : Bet) : Bet := mkBet (choice b) (amount b) v.

(** ** The contract *)

(** The call context: [msg.sender], [msg.value], [block.timestamp]. *)
Record msg := mkMsg { sender : address; value : Z; timestamp : Z }.

(** A function that is not [payable] rejects a call that carries value,
    before its body runs; the revert carries no error of the contract. *)
Definition nonpayable (m : msg) : M unit :=
  if value m =? 0 then ret tt else revert NonPayable.

Section Contract.

(** [address(this)] *)
Variable this : address.

Definition FHE_allowThis (h : handle) : M unit := FHE_allow h this.

Definition createPrediction (m : msg) (title : string) (options : list string) : M Z :=
  nonpayable m ;;;
  if (Z.of_nat (length options) <? 2) || (Z.of_nat (length options) >? 4) then
    revert InvalidOptions
  else
    s0 <- get ;;
    let prediction := predictions_length s0 in
    push_prediction ;;;
    store_prediction prediction (set_title title) ;;;
    store_prediction prediction (set_optionCount (to_uint8 (Z.of_nat (length options)))) ;;;
    store_prediction prediction (set_createdAt (to_uint64 (timestamp m))) ;;;
    store_prediction prediction (set_creator (sender m)) ;;;
    for_loop (length options) 0 (fun i =>
      match options !! i with
      | Some o =>
          store_prediction prediction (push_option o) ;;;
          z <- FHE_asEuint EUint32 0 ;;
          write_count prediction i z ;;;
          c <- read_count prediction i ;;
          FHE_allowThis c
      | None => revert Panic
      end) ;;;
    z64 <- FHE_asEuint EUint64 0 ;;
    store_prediction prediction (set_totalStaked z64) ;;;
    z32 <- FHE_asEuint EUint32 0 ;;
    store_prediction prediction (set_totalBets z32) ;;;
    p <- load_prediction prediction ;;
    FHE_allowThis (totalStaked p) ;;;
    p <- load_prediction prediction ;;
    FHE_allowThis (totalBets p) ;;;
    s1 <- get ;;
    let predictionId := predictions_length s1 - 1 in
    p <- load_prediction prediction ;;
    emit (PredictionCreated predictionId (sender m) title (optionCount p)) ;;;
    ret predictionId.

(** The loop bound [prediction.optionCount] is re-read by the source at
    every iteration; the loop bodies never write it, so it is read once.
    The local [choice] of the source is [choice'] here, [choice] being the
    field of [Bet]. *)
Definition placeBet (m : msg) (predictionId : Z) (encryptedChoice : Z)
           (proof : inputProof) : M unit :=
  s0 <- get ;;
  if predictionId >=? predictions_length s0 then revert InvalidPrediction
  else if (value m =? 0) || (value m >? UINT64_MAX) then revert InvalidBetAmount
  else
    bet <- load_bet predictionId (sender m) ;;
    if exists_ bet then revert BetAlreadyPlaced
    else
      choice' <- FHE_fromExternal encryptedChoice proof ;;
      amountEncrypted <- FHE_asEuint EUint64 (to_uint64 (value m)) ;;

      store_bet predictionId (sender m) (set_choice choice') ;;;
      store_bet predictionId (sender m) (set_amount amountEncrypted) ;;;
      store_bet predictionId (sender m) (set_exists true) ;;;

      p <- load_prediction predictionId ;;
      ts <- FHE_add EUint64 (totalStaked p) amountEncrypted ;;
      store_prediction predictionId (set_totalStaked ts) ;;;
      p <- load_prediction predictionId ;;
      one' <- FHE_asEuint EUint32 1 ;;
      tb <- FHE_add EUint32 (totalBets p) one' ;;
      store_prediction predictionId (set_totalBets tb) ;;;

      one <- FHE_asEuint EUint32 1 ;;
      zero <- FHE_asEuint EUint32 0 ;;
      p <- load_prediction predictionId ;;
      for_loop (Z.to_nat (optionCount p)) 0 (fun i =>
        ei <- FHE_asEuint EUint8 (Z.of_nat i) ;;
        matches <- FHE_eq EUint8 choice' ei ;;
        increment <- FHE_select matches one zero ;;
        c <- read_count predictionId i ;;
        r <- FHE_add EUint32 c increment ;;
        write_count predictionId i r ;;;
        c <- read_count predictionId i ;;
        FHE_allowThis c ;;;
        c <- read_count predictionId i ;;
        FHE_allow c (sender m)) ;;;

      p <- load_prediction predictionId ;;
      FHE_allowThis (totalStaked p) ;;;
      p <- load_prediction predictionId ;;
      FHE_allowThis (totalBets p) ;;;
      p <- load_prediction predictionId ;;
      FHE_allow (totalStaked p) (sender m) ;;;
      p <- load_prediction predictionId ;;
      FHE_allow (totalBets p) (sender m) ;;;

      bet <- load_bet predictionId (sender m) ;;
      FHE_allowThis (choice bet) ;;;
      bet <- load_bet predictionId (sender m) ;;
      FHE_allowThis (amount bet) ;;;
      bet <- load_bet predictionId (sender m) ;;
      FHE_allow (choice bet) (sender m) ;;;
      bet <- load_bet predictionId (sender m) ;;
      FHE_allow (amount bet) (sender m) ;;;

      emit (BetPlaced predictionId (sender m) (to_uint64 (value m))).

Definition grantAccess (m : msg) (predictionId : Z) : M unit :=
  nonpayable m ;;;
  s0 <- get ;;
  if predictionId >=? predictions_length s0 then revert InvalidPrediction
  else
    p <- load_prediction predictionId ;;
    FHE_allow (totalStaked p) (sender m) ;;;
    p <- load_prediction predictionId ;;
    FHE_allow (totalBets p) (sender m) ;;;
    p <- load_prediction predictionId ;;
    for_loop (Z.to_nat (optionCount p)) 0 (fun i =>
      c <- read_count predictionId i ;;
      FHE_allow c (sender m)) ;;;
    bet <- load_bet predictionId (sender m) ;;
    if exists_ bet then
      FHE_allow (choice bet) (sender m) ;;;
      FHE_allow (amount bet) (sender m)
    else ret tt.

(** *** Views

    The views read the call context nowhere and are called without value. *)

Definition getPredictionCount : M Z :=
  s <- get ;; ret (predictions_length s).

Definition getPredictionMeta (predictionId : Z) : M (string * Z * Z * address) :=
  s <- get ;;
  if predictionId >=? predictions_length s then revert InvalidPrediction
  else
    p <- load_prediction predictionId ;;
    ret (title p, optionCount p, createdAt p, creator p).

Definition getPredictionOptions (predictionId : Z) : M (list string) :=
  s <- get ;;
  if predictionId >=? predictions_length s then revert InvalidPrediction
  else
    p <- load_prediction predictionId ;;
    ret (options p).

Definition getPredictionTotals (predictionId : Z) : M (handle * handle) :=
  s <- get ;;
  if predictionId >=? predictions_length s then revert InvalidPrediction
  else
    p <- load_prediction predictionId ;;
    ret (totalStaked p, totalBets p).

(** [counts] is a memory array of [optionCount] zeroed elements; a write
    past its end is a panic. *)
Definition getOptionCounts (predictionId : Z) : M (list handle) :=
  s <- get ;;
  if predictionId >=? predictions_length s then revert InvalidPrediction
  else
    p <- load_prediction predictionId ;;
    let counts := replicate (Z.to_nat (optionCount p)) HNull in
    for_fold (Z.to_nat (optionCount p)) 0 (fun i counts =>
      c <- read_count predictionId i ;;
      match counts !! i with
      | Some _ => ret (<[i := c]> counts)
      | None => revert Panic
      end) counts.

Definition getUserBet (predictionId : Z) (user : address) : M (bool * handle * handle) :=
  s <- get ;;
  if predictionId >=? predictions_length s then revert InvalidPrediction
  else
    bet <- load_bet predictionId user ;;
    ret (exists_ bet, choice bet, amount bet).

(** *** Transactions *)

Inductive call :=
| CreatePrediction (title : string) (options : list string)
| PlaceBet (predictionId : Z) (encryptedChoice : Z) (proof : inputProof)
| GrantAccess (predictionId : Z).

Definition run_call (m : msg) (c : call) : M unit :=
  match c with
  | CreatePrediction title options => createPrediction m title options ;;; ret tt
  | PlaceBet predictionId encryptedChoice proof =>
      placeBet m predictionId encryptedChoice proof
  | GrantAccess predictionId => grantAccess m predictionId
  end.

(** A transaction is atomic: a revert leaves the ledger as it was. *)
Definition transact (m : msg) (c : call) (s : State) : State :=
  match run_call m c s with
  | Ok _ s' => s'
  | Revert _ => s
  end.

(** What the environment can submit: a 160-bit sender, a 256-bit value and
    time, 256-bit identifiers, a non-payable call carries no value. *)
Definition wf_msg (m : msg) : Prop :=
  0 <= sender m < ADDRESS_MOD /\ 0 <= value m < UINT256_MOD /\
  0 <= timestamp m < UINT256_MOD.

Definition wf_call (m : msg) (c : call) : Prop :=
  match c with
  | CreatePrediction _ _ => value m = 0
  | PlaceBet predictionId encryptedChoice _ =>
      0 <= predictionId < UINT256_MOD /\ 0 <= encryptedChoice < UINT256_MOD
  | GrantAccess predictionId => value m = 0 /\ 0 <= predictionId < UINT256_MOD
  end.

Inductive reachable : State -> Prop :=
| reachable_init : reachable init_State
| reachable_step m c s :
    reachable s -> wf_msg m -> wf_call m c -> reachable (transact m c s).

End Contract.

(** * Specification vocabulary

    The notions the properties are stated with: the operand a homomorphic
    operation really uses, the storage a transaction leaves behind, the
    accepted bets of an execution, the public view of a ledger. *)

(** ** Operands and observations *)

(** The ledger after the observations [l]. *)
Definition with_trace (s : State) (l : list obs) : State :=
  mkState (_predictions s) (_bets s) (acl s) (trace s ++ l) (events s).

(** The operand an addition or comparison really uses: the library replaces
    an uninitialised handle by a trivial zero. *)
Definition init (t : fhe_type) (h : handle) : handle :=
  if isInitialized h then h else HTrivial t 0.

Arguments init t !h /.

(** What that replacement leaves in the observation log. *)
Definition init_obs (t : fhe_type) (h : handle) : list obs :=
  if isInitialized h then [] else [OpTrivialEncrypt t 0 (HTrivial t 0)].

Arguments init_obs t !h /.

(** ** A weakest-precondition calculus for the monad *)

(** [wp m Q s]: run from [s], [m] returns without reverting and its result
    and final state satisfy [Q]. *)
Definition wp {A} (m : M A) (Q : A -> State -> Prop) (s : State) : Prop :=
  match m s with
  | Ok a s' => Q a s'
  | Revert _ => False
  end.

(** ** Counter accesses in the observation log *)

(** A counter access is kept, any other observation dropped. *)
Definition counter_access (o : obs) : option obs :=
  match o with
  | CounterRead _ _ | CounterWrite _ _ => Some o
  | _ => None
  end.

(** The accesses to counter slots, in the order they happened. *)
Definition counter_accesses (l : list obs) : list obs := omap counter_access l.

(** ** The storage a transaction leaves behind *)

(** The market [createPrediction] appends. *)
Definition new_prediction (m : msg) (title : string) (options : list string) : Prediction :=
  mkPrediction title options (to_uint8 (Z.of_nat (length options)))
               (to_uint64 (timestamp m)) (sender m)
               (HTrivial EUint64 0) (HTrivial EUint32 0)
               (replicate (length options) (HTrivial EUint32 0) ++
                replicate (4 - length options) HNull).

(** The counter update of one loop iteration of [placeBet]. *)
Definition bump (ch : handle) (i : nat) (c : handle) : handle :=
  HAdd EUint32 (init EUint32 c)
       (HSelect (HEq ch (HTrivial EUint8 (Z.of_nat i)))
                (HTrivial EUint32 1) (HTrivial EUint32 0)).

(** The counters after the first [k] iterations. *)
Definition bump_counts (k : nat) (ch : handle) (ocs : list handle) : list handle :=
  imap (fun i c => if (i <? k)%nat then bump ch i c else c) ocs.

(** The handles [placeBet] records in the new bet. *)
Definition bet_choice (encryptedChoice : Z) (proof : inputProof) : handle :=
  HInput EUint8 encryptedChoice (proof_plain proof).

Definition bet_amount (m : msg) : handle := HTrivial EUint64 (to_uint64 (value m)).

(** The market after an accepted bet. *)
Definition bet_prediction (m : msg) (encryptedChoice : Z) (proof : inputProof)
           (p : Prediction) : Prediction :=
  mkPrediction (title p) (options p) (optionCount p) (createdAt p) (creator p)
    (HAdd EUint64 (init EUint64 (totalStaked p)) (bet_amount m))
    (HAdd EUint32 (init EUint32 (totalBets p)) (HTrivial EUint32 1))
    (bump_counts (Z.to_nat (optionCount p)) (bet_choice encryptedChoice proof) (optionCounts p)).

(** The grants [grantAccess] records, in order. *)
Definition access_grants (p : Prediction) (bet : Bet) (a : address) : list (handle * address) :=
  [(totalStaked p, a); (totalBets p, a)] ++
  ((fun c => (c, a)) <$> take (Z.to_nat (optionCount p)) (optionCounts p)) ++
  (if exists_ bet then [(choice bet, a); (amount bet, a)] else []).

(** ** Well-formed storage, steps and executions *)

(** A market has four counter slots, two to four options, and the zero
    handle in every slot that is not an option's. *)
Definition wf_prediction (p : Prediction) : Prop :=
  length (optionCounts p) = 4%nat /\
  2 <= optionCount p <= 4 /\
  (forall i, (Z.to_nat (optionCount p) <= i < 4)%nat -> optionCounts p !! i = Some HNull).

(** Every market is well formed and every stored bet is flagged as existing. *)
Definition wf_state (s : State) : Prop :=
  (forall n p, _predictions s !! n = Some p -> wf_prediction p) /\
  (forall key b, _bets s !! key = Some b -> exists_ b = true).

(** What one transaction does to the contract's storage and event log:
    nothing (a revert, or [grantAccess]), one more market, or one more bet. *)
Inductive storage_step (s s' : State) : Prop :=
| step_same :
    _predictions s' = _predictions s -> _bets s' = _bets s -> events s' = events s ->
    storage_step s s'
| step_create m title options :
    (2 <= length options <= 4)%nat ->
    _predictions s' = _predictions s ++ [new_prediction m title options] ->
    _bets s' = _bets s ->
    events s' = events s ++
      [PredictionCreated (predictions_length s) (sender m) title
                         (to_uint8 (Z.of_nat (length options)))] ->
    storage_step s s'
| step_bet m pid ec proof p :
    0 <= pid ->
    _predictions s !! Z.to_nat pid = Some p ->
    0 < value m <= UINT64_MAX ->
    exists_ (bet_at s pid (sender m)) = false ->
    _predictions s' = <[Z.to_nat pid := bet_prediction m ec proof p]> (_predictions s) ->
    _bets s' = <[(pid, sender m) := mkBet (bet_choice ec proof) (bet_amount m) true]> (_bets s) ->
    events s' = events s ++ [BetPlaced pid (sender m) (to_uint64 (value m))] ->
    storage_step s s'.

(** Executions: any number of transactions from a given state. *)
Inductive steps (this : address) (s : State) : State -> Prop :=
| steps_refl : steps this s s
| steps_step s' m c :
    steps this s s' -> wf_msg m -> wf_call m c -> steps this s (transact this m c s').

(** ** Accepted bets, totals and counters *)

(** The stake of a [BetPlaced] record of market [pid]. *)
Definition placed_amount (pid : Z) (e : event) : option Z :=
  match e with
  | BetPlaced q _ a => if q =? pid then Some a else None
  | PredictionCreated _ _ _ _ => None
  end.

(** The stakes [a1..aN] of the bets accepted on market [pid], in order. *)
Definition accepted_amounts (pid : Z) (s : State) : list Z :=
  omap (placed_amount pid) (events s).

(** The sum of a list of integers (no wrap-around). *)
Definition sumZ (l : list Z) : Z := foldr Z.add 0 l.

(** The sum of the plaintext-equivalent values of
    [optionCounts[0..optionCount)]. *)
Definition sum_counts (p : Prediction) : Z :=
  sumZ (denote <$> take (Z.to_nat (optionCount p)) (optionCounts p)).

(** Every recorded bet of market [pid] chose one of its options. *)
Definition choices_in_range (s : State) (pid : Z) (p : Prediction) : Prop :=
  forall user b, _bets s !! (pid, user) = Some b -> 0 <= denote (choice b) < optionCount p.

(** The aggregates of a market against its [N] accepted bets: the totals
    are the count and the sum of the stakes, wrapped to their widths; the
    counters add up to [N], modulo 2^32, when every bet chose an option, and
    never to more than [N] while [N < 2^32]. *)
Definition market_inv (s : State) (pid : Z) (p : Prediction) : Prop :=
  let N := Z.of_nat (length (accepted_amounts pid s)) in
  denote (totalBets p) = N mod 2 ^ 32 /\
  denote (totalStaked p) = sumZ (accepted_amounts pid s) mod 2 ^ 64 /\
  (choices_in_range s pid p -> sum_counts p mod 2 ^ 32 = N mod 2 ^ 32) /\
  (N < 2 ^ 32 -> sum_counts p <= N /\ (choices_in_range s pid p -> sum_counts p = N)).

(** No bet is recorded for a market that does not exist, and every market
    satisfies [market_inv]. *)
Definition ledger_inv (s : State) : Prop :=
  (forall pid, predictions_length s <= pid -> accepted_amounts pid s = []) /\
  (forall pid p, 0 <= pid -> _predictions s !! Z.to_nat pid = Some p -> market_inv s pid p).

(** ** Slots beyond [optionCount] *)

(** A counter access targets an option slot of an existing market. *)
Definition slot_in_range (s : State) (o : obs) : Prop :=
  match o with
  | CounterRead q i | CounterWrite q i =>
      0 <= q /\
      exists p, _predictions s !! Z.to_nat q = Some p /\ (i < Z.to_nat (optionCount p))%nat
  | _ => True
  end.

(** ** Executions *)

(** The call is a bet on market [pid] and is accepted. *)
Definition accepts (this : address) (m : msg) (c : call) (pid : Z) (s : State) : bool :=
  match c with
  | PlaceBet q ec proof =>
      (q =? pid) && match placeBet this m q ec proof s with Ok _ _ => true | Revert _ => false end
  | _ => false
  end.

(** Running a sequence of transactions. *)
Fixpoint run (this : address) (calls : list (msg * call)) (s : State) : State :=
  match calls with
  | [] => s
  | (m, c) :: rest => run this rest (transact this m c s)
  end.

(** The stakes [a1..aN] attached to the bets accepted on market [pid]
    while running [calls] from [s]. *)
Fixpoint accepted_stakes (this : address) (pid : Z) (calls : list (msg * call))
         (s : State) : list Z :=
  match calls with
  | [] => []
  | (m, c) :: rest =>
      (if accepts this m c pid s then [value m] else []) ++
      accepted_stakes this pid rest (transact this m c s)
  end.

(** A transaction the environment can submit. *)
Definition wf_tx (mc : msg * call) : Prop := wf_msg (fst mc) /\ wf_call (fst mc) (snd mc).

(** ** The public view of a ledger *)

(** The public view of a value: every secret plaintext is blanked. *)
Class Erase (A : Type) := erase : A -> A.

Fixpoint erase_handle (h : handle) : handle :=
  match h with
  | HNull => HNull
  | HTrivial t v => HTrivial t v
  | HInput t ext _ => HInput t ext 0
  | HAdd t a b => HAdd t (erase_handle a) (erase_handle b)
  | HEq a b => HEq (erase_handle a) (erase_handle b)
  | HSelect c a b => HSelect (erase_handle c) (erase_handle a) (erase_handle b)
  end.

#[global] Instance Erase_unit : Erase unit := fun u => u.

#[global] Instance Erase_handle : Erase handle := erase_handle.

#[global] Instance Erase_obs : Erase obs := fun o =>
  match o with
  | OpTrivialEncrypt t v r => OpTrivialEncrypt t v (erase r)
  | OpVerifyInput t ext r => OpVerifyInput t ext (erase r)
  | OpAdd a b r => OpAdd (erase a) (erase b) (erase r)
  | OpEq a b r => OpEq (erase a) (erase b) (erase r)
  | OpSelect c a b r => OpSelect (erase c) (erase a) (erase b) (erase r)
  | CounterRead q i => CounterRead q i
  | CounterWrite q i => CounterWrite q i
  end.

#[global] Instance Erase_Prediction : Erase Prediction := fun p =>
  mkPrediction (title p) (options p) (optionCount p) (createdAt p) (creator p)
               (erase (totalStaked p)) (erase (totalBets p)) (erase <$> optionCounts p).

#[global] Instance Erase_Bet : Erase Bet := fun b =>
  mkBet (erase (choice b)) (erase (amount b)) (exists_ b).

#[global] Instance Erase_grant : Erase (handle * address) := fun g => (erase g.1, g.2).

#[global] Instance Erase_State : Erase State := fun s =>
  mkState (erase <$> _predictions s) (erase <$> _bets s) (erase <$> acl s)
          (erase <$> trace s) (events s).

#[global] Instance Erase_inputProof : Erase inputProof := fun p =>
  mkProof (proof_valid p) 0.

(** The public view of an outcome: a revert is public with its error. *)
Definition erase_result {A} `{Erase A} (r : result A) : result A :=
  match r with
  | Ok a s => Ok (erase a) (erase s)
  | Revert e => Revert e
  end.

(** [m] run on a ledger and [m'] run on its public view agree on everything
    public: [m'] computes the public view of what [m] computes. *)
Definition commutes {A} `{Erase A} (m m' : M A) : Prop :=
  forall s, erase_result (m s) = m' (erase s).

(** ** Concrete executions *)

(** The address of the deployed contract. *)
Definition ex_this : address := 1000.

(** Account 11 creates the market "A or B". *)
Definition ex_create : msg * call :=
  (mkMsg 11 0 100, CreatePrediction "A or B" ["A"%string; "B"%string]).

(** [n] bets of stake 1 on market 0, by the senders [start], [start+1], ... *)
Definition bet_calls (start n : nat) : list (msg * call) :=
  (fun j => (mkMsg (Z.of_nat j) 1 0, PlaceBet 0 0 (mkProof true 0))) <$> seq start n.

(** The scenario of the specification: one market "A or B"; Alice bets
    option 0 with 10, Bob bets option 1 with 20. *)
Definition ex_alice_bet : msg * call := (mkMsg 11 10 101, PlaceBet 0 7 (mkProof true 0)).

Definition ex_bob_bet : msg * call := (mkMsg 22 20 102, PlaceBet 0 8 (mkProof true 1)).

Definition ex_calls : list (msg * call) := [ex_create; ex_alice_bet; ex_bob_bet].

(** The ledger after the creation, and after the whole scenario. *)
Abbreviation ex_created := (run ex_this [ex_create] init_State).

Abbreviation ex_state := (run ex_this ex_calls init_State).

(** The market of the scenario, with its two bets. *)
Definition ex_market : Prediction := default zero_Prediction (_predictions ex_state !! 0%nat).

(** ** Grants recorded by a transaction *)

(** The grants of [createPrediction]: the contract on each option's
    counter, then on [totalStaked] and [totalBets]. *)
Definition create_grants (this : address) (n : nat) : list (handle * address) :=
  replicate n (HTrivial EUint32 0, this) ++
  [(HTrivial EUint64 0, this); (HTrivial EUint32 0, this)].

(** The grants of an accepted [placeBet] that leaves the market [p'] and
    records the bet [b]: the contract and the bettor on each option's
    counter, then on the totals, then on the bet. *)
Definition bet_grants (this : address) (a : address) (p' : Prediction) (b : Bet)
  : list (handle * address) :=
  flat_map (fun c => [(c, this); (c, a)])
           (take (Z.to_nat (optionCount p')) (optionCounts p')) ++
  [(totalStaked p', this); (totalBets p', this);
   (totalStaked p', a); (totalBets p', a);
   (choice b, this); (amount b, this); (choice b, a); (amount b, a)].

(** ** The whole effect of a transaction *)

(** What the transaction [c] sent with [m] does to storage, events and
    grants: nothing at all (a revert), one more market, one more bet, or the
    grants of [grantAccess]. *)
Inductive ledger_step (this : address) (m : msg) (c : call) (s s' : State) : Prop :=
| lstep_revert :
    s' = s -> ledger_step this m c s s'
| lstep_create title options :
    c = CreatePrediction title options ->
    (2 <= length options <= 4)%nat ->
    _predictions s' = _predictions s ++ [new_prediction m title options] ->
    _bets s' = _bets s ->
    events s' = events s ++
      [PredictionCreated (predictions_length s) (sender m) title
                         (to_uint8 (Z.of_nat (length options)))] ->
    acl s' = acl s ++ create_grants this (length options) ->
    ledger_step this m c s s'
| lstep_bet pid ec proof p :
    c = PlaceBet pid ec proof ->
    0 <= pid ->
    _predictions s !! Z.to_nat pid = Some p ->
    0 < value m <= UINT64_MAX ->
    exists_ (bet_at s pid (sender m)) = false ->
    _predictions s' = <[Z.to_nat pid := bet_prediction m ec proof p]> (_predictions s) ->
    _bets s' = <[(pid, sender m) := mkBet (bet_choice ec proof) (bet_amount m) true]> (_bets s) ->
    events s' = events s ++ [BetPlaced pid (sender m) (to_uint64 (value m))] ->
    acl s' = acl s ++ bet_grants this (sender m) (bet_prediction m ec proof p)
                        (mkBet (bet_choice ec proof) (bet_amount m) true) ->
    ledger_step this m c s s'
| lstep_grant pid p :
    c = GrantAccess pid ->
    0 <= pid ->
    _predictions s !! Z.to_nat pid = Some p ->
    _predictions s' = _predictions s ->
    _bets s' = _bets s ->
    events s' = events s ->
    acl s' = acl s ++ access_grants p (bet_at s pid (sender m)) (sender m) ->
    ledger_step this m c s s'.

(** ** Stored handles *)

(** The handles of a market that the views hand out: the two totals and the
    counters of its options. *)
Definition market_handles (p : Prediction) : list handle :=
  totalStaked p :: totalBets p :: take (Z.to_nat (optionCount p)) (optionCounts p).

(** The handles of a bet. *)
Definition bet_handles (b : Bet) : list handle := [choice b; amount b].

(** [h] is one of the handles the ledger stores for a market or a bet. *)
Definition stored (s : State) (h : handle) : Prop :=
  (exists n p, _predictions s !! n = Some p /\ h ∈ market_handles p) \/
  (exists key b, _bets s !! key = Some b /\ h ∈ bet_handles b).

(** ** Public metadata *)

(** The plaintext part of a market. *)
Definition metadata (p : Prediction) : string * list string * Z * Z * address :=
  (title p, options p, optionCount p, createdAt p, creator p).

(** Every market lists as many options as [optionCount] says, and bets are
    recorded for existing markets only. *)
Definition registry_inv (s : State) : Prop :=
  (forall n p, _predictions s !! n = Some p ->
               Z.of_nat (length (options p)) = optionCount p) /\
  (forall pid u b, _bets s !! (pid, u) = Some b -> 0 <= pid < predictions_length s).

(** ** The event log as a record of the registry and of the bets *)

(** The fields of a [PredictionCreated] record. *)
Definition created_record (e : event) : option (Z * address * string * Z) :=
  match e with
  | PredictionCreated id c t k => Some (id, c, t, k)
  | BetPlaced _ _ _ => None
  end.

(** The [PredictionCreated] records of the log, in order. *)
Definition created_records (s : State) : list (Z * address * string * Z) :=
  omap created_record (events s).

(** What the registry says about its markets, in order. *)
Definition registry_records (s : State) : list (Z * address * string * Z) :=
  imap (fun i p => (Z.of_nat i, creator p, title p, optionCount p)) (_predictions s).

(** The fields of a [BetPlaced] record. *)
Definition placed_record (e : event) : option (Z * address * Z) :=
  match e with
  | BetPlaced pid u a => Some (pid, u, a)
  | PredictionCreated _ _ _ _ => None
  end.

(** The [BetPlaced] records of the log, in order. *)
Definition placed_records (s : State) : list (Z * address * Z) :=
  omap placed_record (events s).

(** The market and bettor of a [BetPlaced] record. *)
Definition placed_key (r : Z * address * Z) : Z * address := r.1.

(** ** The public view of a transaction *)

(** A market id is public. *)
#[global] Instance Erase_Z : Erase Z := fun z => z.

(** The public view of a call: the secret behind a bet's input is blanked. *)
#[global] Instance Erase_call : Erase call := fun c =>
  match c with
  | PlaceBet predictionId encryptedChoice proof =>
      PlaceBet predictionId encryptedChoice (erase proof)
  | _ => c
  end.

(** The public view of a transaction: the message is public. *)
#[global] Instance Erase_tx : Erase (msg * call) := fun mc => (mc.1, erase mc.2).


(** * The callers of [createPrediction]

    The command-line task [prediction:create] and the form handler
    [handleCreatePrediction] clean the options they were given and check
    their number before they send the transaction. *)

(** A JavaScript string, as its UTF-16 code units. *)
Definition jsstring : Type := list Z.

(** The code units [String.prototype.trim] strips: white space and line
    terminators. *)
Definition is_white_space (c : Z) : bool :=
  (c =? 9) || (c =? 10) || (c =? 11) || (c =? 12) || (c =? 13) || (c =? 32) ||
  (c =? 160) || (c =? 5760) || ((8192 <=? c) && (c <=? 8202)) ||
  (c =? 8232) || (c =? 8233) || (c =? 8239) || (c =? 8287) || (c =? 12288) ||
  (c =? 65279).

Fixpoint trim_start (s : jsstring) : jsstring :=
  match s with
  | [] => []
  | c :: r => if is_white_space c then trim_start r else s
  end.










Section Callers.

(** The encoder's conversion of a JavaScript string into a Solidity
    [string]; it throws on a string that has no encoding, which is [None]
    here. *)
Variable encode : jsstring -> option string.



End Callers.


(** ** Further concrete executions and inputs *)

(** The scenario with the two secrets exchanged. *)
Definition ex_calls_swapped : list (msg * call) :=
  [ex_create;
   (mkMsg 11 10 101, PlaceBet 0 7 (mkProof true 1));
   (mkMsg 22 20 102, PlaceBet 0 8 (mkProof true 0))].

(** The ledger after the creation and Alice's bet. *)
Abbreviation ex_alice_state := (run ex_this [ex_create; ex_alice_bet] init_State).







(** * Properties *)

(** ** The primitives *)

Lemma allowedb_allowed s h a : allowedb s h a = true <-> allowed s h a.
Proof. unfold allowedb, allowed. apply bool_decide_eq_true. Qed.

Lemma denote_init t h : denote (init t h) = denote h.
Proof. by destruct h. Qed.

Lemma with_trace_nil s : with_trace s [] = s.
Proof. destruct s; unfold with_trace; cbn. by rewrite app_nil_r. Qed.

Lemma with_trace_app s l1 l2 :
  with_trace (with_trace s l1) l2 = with_trace s (l1 ++ l2).
Proof. unfold with_trace; cbn. by rewrite app_assoc. Qed.

Lemma FHE_asEuint_eq t v s :
  FHE_asEuint t v s = Ok (HTrivial t v) (with_trace s [OpTrivialEncrypt t v (HTrivial t v)]).
Proof. reflexivity. Qed.

Lemma initialized_eq t h s :
  initialized t h s = Ok (init t h) (with_trace s (init_obs t h)).
Proof.
  unfold initialized, init, init_obs. destruct (isInitialized h).
  - by rewrite with_trace_nil.
  - reflexivity.
Qed.

Lemma FHE_add_eq t a b s :
  FHE_add t a b s =
  Ok (HAdd t (init t a) (init t b))
     (with_trace s (init_obs t a ++ init_obs t b ++
                    [OpAdd (init t a) (init t b) (HAdd t (init t a) (init t b))])).
Proof.
  unfold FHE_add, bind. rewrite initialized_eq, initialized_eq.
  unfold observe, modify, ret. by rewrite <- !with_trace_app.
Qed.

Lemma FHE_eq_eq t a b s :
  FHE_eq t a b s =
  Ok (HEq (init t a) (init t b))
     (with_trace s (init_obs t a ++ init_obs t b ++
                    [OpEq (init t a) (init t b) (HEq (init t a) (init t b))])).
Proof.
  unfold FHE_eq, bind. rewrite initialized_eq, initialized_eq.
  unfold observe, modify, ret. by rewrite <- !with_trace_app.
Qed.

Lemma FHE_select_eq c a b s :
  FHE_select c a b s = Ok (HSelect c a b) (with_trace s [OpSelect c a b (HSelect c a b)]).
Proof. reflexivity. Qed.

(** ** Rules of the weakest-precondition calculus *)

Lemma wp_elim {A} (m : M A) Q s :
  wp m Q s -> exists a s', m s = Ok a s' /\ Q a s'.
Proof. unfold wp. destruct (m s); [eauto | tauto]. Qed.

Lemma wp_intro {A} (m : M A) (Q : A -> State -> Prop) s a s' :
  m s = Ok a s' -> Q a s' -> wp m Q s.
Proof. unfold wp. by intros ->. Qed.

Lemma wp_mono {A} (m : M A) (Q Q' : A -> State -> Prop) s :
  wp m Q s -> (forall a s', Q a s' -> Q' a s') -> wp m Q' s.
Proof. unfold wp. destruct (m s); [auto | tauto]. Qed.

Lemma wp_ret {A} (a : A) (Q : A -> State -> Prop) s : Q a s -> wp (ret a) Q s.
Proof. auto. Qed.

Lemma wp_bind {A B} (m : M A) (f : A -> M B) (Q : B -> State -> Prop) s :
  wp m (fun a s' => wp (f a) Q s') s -> wp (bind m f) Q s.
Proof. unfold wp, bind. by destruct (m s). Qed.

Lemma wp_get (Q : State -> State -> Prop) s : Q s s -> wp get Q s.
Proof. auto. Qed.

Lemma wp_modify f (Q : unit -> State -> Prop) s : Q tt (f s) -> wp (modify f) Q s.
Proof. auto. Qed.

Lemma wp_observe o (Q : unit -> State -> Prop) s :
  Q tt (with_trace s [o]) -> wp (observe o) Q s.
Proof. auto. Qed.

Lemma wp_nonpayable m (Q : unit -> State -> Prop) s :
  value m = 0 -> Q tt s -> wp (nonpayable m) Q s.
Proof. intros Hv HQ. unfold wp, nonpayable. by rewrite Hv. Qed.

Lemma bind_nonpayable {A} m (k : M A) s :
  value m = 0 -> (nonpayable m ;;; k) s = k s.
Proof. intros Hv. unfold bind, nonpayable. by rewrite Hv. Qed.

Lemma bind_nonpayable_revert {A} m (k : M A) s :
  value m <> 0 -> (nonpayable m ;;; k) s = Revert NonPayable.
Proof.
  intros Hv. unfold bind, nonpayable.
  by destruct (Z.eqb_spec (value m) 0).
Qed.

Lemma wp_emit e (Q : unit -> State -> Prop) s :
  Q tt (mkState (_predictions s) (_bets s) (acl s) (trace s) (events s ++ [e])) ->
  wp (emit e) Q s.
Proof. auto. Qed.

Lemma wp_FHE_asEuint t v (Q : handle -> State -> Prop) s :
  Q (HTrivial t v) (with_trace s [OpTrivialEncrypt t v (HTrivial t v)]) ->
  wp (FHE_asEuint t v) Q s.
Proof. auto. Qed.

Lemma wp_FHE_fromExternal ext proof (Q : handle -> State -> Prop) s :
  proof_valid proof = true ->
  Q (HInput EUint8 ext (proof_plain proof))
    (with_trace s [OpVerifyInput EUint8 ext (HInput EUint8 ext (proof_plain proof))]) ->
  wp (FHE_fromExternal ext proof) Q s.
Proof. unfold wp, FHE_fromExternal. by intros ->. Qed.

Lemma wp_FHE_add t a b (Q : handle -> State -> Prop) s :
  Q (HAdd t (init t a) (init t b))
    (with_trace s (init_obs t a ++ init_obs t b ++
                   [OpAdd (init t a) (init t b) (HAdd t (init t a) (init t b))])) ->
  wp (FHE_add t a b) Q s.
Proof. unfold wp. by rewrite FHE_add_eq. Qed.

Lemma wp_FHE_eq t a b (Q : handle -> State -> Prop) s :
  Q (HEq (init t a) (init t b))
    (with_trace s (init_obs t a ++ init_obs t b ++
                   [OpEq (init t a) (init t b) (HEq (init t a) (init t b))])) ->
  wp (FHE_eq t a b) Q s.
Proof. unfold wp. by rewrite FHE_eq_eq. Qed.

Lemma wp_FHE_select c a b (Q : handle -> State -> Prop) s :
  Q (HSelect c a b) (with_trace s [OpSelect c a b (HSelect c a b)]) ->
  wp (FHE_select c a b) Q s.
Proof. auto. Qed.

Lemma wp_FHE_allow h a (Q : unit -> State -> Prop) s :
  Q tt (mkState (_predictions s) (_bets s) (acl s ++ [(h, a)]) (trace s) (events s)) ->
  wp (FHE_allow h a) Q s.
Proof. auto. Qed.

Lemma wp_FHE_allowThis this h (Q : unit -> State -> Prop) s :
  Q tt (mkState (_predictions s) (_bets s) (acl s ++ [(h, this)]) (trace s) (events s)) ->
  wp (FHE_allowThis this h) Q s.
Proof. auto. Qed.

Lemma wp_load_prediction pid p (Q : Prediction -> State -> Prop) s :
  _predictions s !! Z.to_nat pid = Some p -> Q p s -> wp (load_prediction pid) Q s.
Proof. unfold wp, load_prediction. by intros ->. Qed.

Lemma wp_store_prediction pid f p (Q : unit -> State -> Prop) s :
  _predictions s !! Z.to_nat pid = Some p ->
  Q tt (mkState (<[Z.to_nat pid := f p]> (_predictions s)) (_bets s) (acl s) (trace s) (events s)) ->
  wp (store_prediction pid f) Q s.
Proof. unfold wp, store_prediction. by intros ->. Qed.

Lemma wp_push_prediction (Q : unit -> State -> Prop) s :
  Q tt (mkState (_predictions s ++ [zero_Prediction]) (_bets s) (acl s) (trace s) (events s)) ->
  wp push_prediction Q s.
Proof. auto. Qed.

Lemma wp_load_bet pid user (Q : Bet -> State -> Prop) s :
  Q (bet_at s pid user) s -> wp (load_bet pid user) Q s.
Proof. auto. Qed.

Lemma wp_store_bet pid user f (Q : unit -> State -> Prop) s :
  Q tt (mkState (_predictions s) (<[(pid, user) := f (bet_at s pid user)]> (_bets s))
                (acl s) (trace s) (events s)) ->
  wp (store_bet pid user f) Q s.
Proof. auto. Qed.

Lemma wp_read_count pid i p c (Q : handle -> State -> Prop) s :
  _predictions s !! Z.to_nat pid = Some p ->
  optionCounts p !! i = Some c ->
  Q c (with_trace s [CounterRead pid i]) ->
  wp (read_count pid i) Q s.
Proof.
  intros Hp Hc HQ. unfold read_count. apply wp_bind.
  eapply wp_load_prediction; [exact Hp|]. rewrite Hc.
  apply wp_bind, wp_observe, wp_ret, HQ.
Qed.

Lemma wp_write_count pid i p c h (Q : unit -> State -> Prop) s :
  _predictions s !! Z.to_nat pid = Some p ->
  optionCounts p !! i = Some c ->
  Q tt (mkState (<[Z.to_nat pid := set_optionCounts (<[i := h]> (optionCounts p)) p]> (_predictions s))
                (_bets s) (acl s) (trace s ++ [CounterWrite pid i]) (events s)) ->
  wp (write_count pid i h) Q s.
Proof.
  intros Hp Hc HQ. unfold write_count. apply wp_bind.
  eapply wp_load_prediction; [exact Hp|]. rewrite Hc.
  apply wp_bind. eapply wp_store_prediction; [exact Hp|].
  apply wp_observe, HQ.
Qed.

(** The loop rule: [I i] holds before iteration [i]. *)
Lemma wp_for_loop (I : nat -> State -> Prop) n start body (Q : unit -> State -> Prop) s :
  I start s ->
  (forall i s, (start <= i < start + n)%nat -> I i s ->
               wp (body i) (fun _ s' => I (S i) s') s) ->
  (forall s, I (start + n)%nat s -> Q tt s) ->
  wp (for_loop n start body) Q s.
Proof.
  revert start s. induction n as [|n IH]; intros start s HI Hbody HQ; cbn.
  - apply wp_ret, HQ. by rewrite Nat.add_0_r.
  - apply wp_bind. eapply wp_mono; [apply Hbody; [lia | exact HI]|].
    cbn. intros _ s' HI'. apply IH; [exact HI'| |].
    + intros i s0 Hi. apply Hbody. lia.
    + intros s0 Hs0. apply HQ. by replace (start + S n)%nat with (S start + n)%nat by lia.
Qed.

Lemma wp_for_fold {A} (I : nat -> A -> State -> Prop) n start body (a : A)
      (Q : A -> State -> Prop) s :
  I start a s ->
  (forall i a s, (start <= i < start + n)%nat -> I i a s ->
                 wp (body i a) (fun a' s' => I (S i) a' s') s) ->
  (forall a s, I (start + n)%nat a s -> Q a s) ->
  wp (for_fold n start body a) Q s.
Proof.
  revert start a s. induction n as [|n IH]; intros start a s HI Hbody HQ; cbn.
  - apply wp_ret, HQ. by rewrite Nat.add_0_r.
  - apply wp_bind. eapply wp_mono; [apply Hbody; [lia | exact HI]|].
    cbn. intros a' s' HI'. apply IH; [exact HI'| |].
    + intros i a0 s0 Hi. apply Hbody. lia.
    + intros a0 s0 Hs0. apply HQ. by replace (start + S n)%nat with (S start + n)%nat by lia.
Qed.

Lemma lookup_snoc {A} (l : list A) x :
  (l ++ [x]) !! Z.to_nat (Z.of_nat (length l)) = Some x.
Proof. rewrite Nat2Z.id. by apply list_lookup_middle. Qed.

Lemma insert_snoc {A} (l : list A) x y :
  <[Z.to_nat (Z.of_nat (length l)) := y]> (l ++ [x]) = l ++ [y].
Proof. rewrite Nat2Z.id, insert_app_r_alt by lia. by rewrite Nat.sub_diag. Qed.

Ltac wp_simpl :=
  unfold with_trace, set_title, set_options, push_option, set_optionCount,
    set_createdAt, set_creator, set_totalStaked, set_totalBets, set_optionCounts,
    set_choice, set_amount, set_exists;
  cbn [_predictions _bets acl trace events with_trace
       title options optionCount createdAt creator totalStaked totalBets optionCounts
       set_title set_options push_option set_optionCount set_createdAt set_creator
       set_totalStaked set_totalBets set_optionCounts
       choice amount exists_ set_choice set_amount set_exists
       init init_obs isInitialized sender value timestamp];
  unfold bet_at; cbn [_bets];
  rewrite ?insert_snoc, ?list_insert_insert_eq, ?lookup_insert_eq, ?insert_insert_eq;
  cbn [default].

Ltac wp_lookup :=
  wp_simpl;
  first [ eassumption
        | apply lookup_snoc
        | apply list_lookup_insert_eq; eapply lookup_lt_Some; eassumption ].

Ltac wp_step :=
  lazymatch goal with
  | |- wp (bind _ _) _ _ => apply wp_bind
  | |- wp (ret _) _ _ => apply wp_ret
  | |- wp get _ _ => apply wp_get
  | |- wp (emit _) _ _ => apply wp_emit
  | |- wp (observe _) _ _ => apply wp_observe
  | |- wp (FHE_asEuint _ _) _ _ => apply wp_FHE_asEuint
  | |- wp (FHE_add _ _ _) _ _ => apply wp_FHE_add
  | |- wp (FHE_eq _ _ _) _ _ => apply wp_FHE_eq
  | |- wp (FHE_select _ _ _) _ _ => apply wp_FHE_select
  | |- wp (FHE_allow _ _) _ _ => apply wp_FHE_allow
  | |- wp (FHE_allowThis _ _) _ _ => apply wp_FHE_allowThis
  | |- wp push_prediction _ _ => apply wp_push_prediction
  | |- wp (load_bet _ _) _ _ => apply wp_load_bet
  | |- wp (store_bet _ _ _) _ _ => apply wp_store_bet
  | |- wp (load_prediction _) _ _ => eapply wp_load_prediction; [wp_lookup|]
  | |- wp (store_prediction _ _) _ _ => eapply wp_store_prediction; [wp_lookup|]
  end; wp_simpl.

(** ** Counter accesses *)

Lemma counter_accesses_app l1 l2 :
  counter_accesses (l1 ++ l2) = counter_accesses l1 ++ counter_accesses l2.
Proof. apply omap_app. Qed.

Lemma counter_accesses_init_obs t h : counter_accesses (init_obs t h) = [].
Proof. by destruct h. Qed.

Lemma flat_map_seq_S {A} (f : nat -> list A) i :
  flat_map f (seq 0 (S i)) = flat_map f (seq 0 i) ++ f i.
Proof. rewrite seq_S, flat_map_app. cbn. by rewrite app_nil_r. Qed.

Ltac trace_simpl :=
  unfold counter_accesses in *; cbn [trace] in *;
  rewrite ?omap_app, ?(counter_accesses_init_obs : forall t h, omap _ _ = _);
  cbn [omap list_omap counter_access];
  rewrite ?app_nil_r, ?flat_map_seq_S, <- ?app_assoc;
  cbn [app].

(** ** What each transaction does to the storage *)

Lemma fresh_counts_lookup i :
  (i < 4)%nat ->
  (replicate i (HTrivial EUint32 0) ++ replicate (4 - i) HNull) !! i = Some HNull.
Proof. intros Hi. destruct i as [|[|[|[|]]]]; try reflexivity; lia. Qed.

Lemma fresh_counts_insert i :
  (i < 4)%nat ->
  <[i := HTrivial EUint32 0]> (replicate i (HTrivial EUint32 0) ++ replicate (4 - i) HNull) =
  replicate (S i) (HTrivial EUint32 0) ++ replicate (4 - S i) HNull.
Proof. intros Hi. destruct i as [|[|[|[|]]]]; try reflexivity; lia. Qed.

Lemma createPrediction_spec this m title options s :
  value m = 0 ->
  (2 <= length options <= 4)%nat ->
  wp (createPrediction this m title options)
     (fun id s' =>
        id = predictions_length s /\
        _predictions s' = _predictions s ++ [new_prediction m title options] /\
        _bets s' = _bets s /\
        events s' = events s ++
          [PredictionCreated id (sender m) title (to_uint8 (Z.of_nat (length options)))] /\
        counter_accesses (trace s') =
          counter_accesses (trace s) ++
          flat_map (fun i => [CounterWrite id i; CounterRead id i])
                   (seq 0 (length options))) s.
Proof.
  intros Hv Hlen. unfold createPrediction.
  apply wp_bind, wp_nonpayable; [exact Hv|].
  assert (((Z.of_nat (length options) <? 2) || (Z.of_nat (length options) >? 4)) = false) as ->.
  { apply orb_false_iff. lia. }
  wp_step. wp_step. unfold predictions_length.
  do 10 wp_step. unfold zero_Prediction; wp_simpl. wp_step.
  apply (wp_for_loop (fun i s' =>
    _predictions s' = _predictions s ++
       [mkPrediction title (take i options) (to_uint8 (Z.of_nat (length options)))
          (to_uint64 (timestamp m)) (sender m) HNull HNull
          (replicate i (HTrivial EUint32 0) ++ replicate (4 - i) HNull)] /\
    _bets s' = _bets s /\ events s' = events s /\
    counter_accesses (trace s') =
      counter_accesses (trace s) ++
      flat_map (fun i => [CounterWrite (Z.of_nat (length (_predictions s))) i;
                          CounterRead (Z.of_nat (length (_predictions s))) i]) (seq 0 i))).
  - wp_simpl. rewrite take_0. repeat split; try reflexivity. trace_simpl. reflexivity.
  - intros i [P B A T E] Hi (Hp & Hb & He & HT). cbn in Hp, Hb, He, HT. subst P B E.
    destruct (lookup_lt_is_Some_2 options i) as [o Ho]; [lia|]. rewrite Ho.
    do 5 wp_step.
    eapply wp_write_count; [wp_lookup | wp_simpl; apply fresh_counts_lookup; lia |]. wp_simpl.
    wp_step.
    eapply wp_read_count; [wp_lookup | wp_simpl; apply list_lookup_insert_eq |]; wp_simpl.
    { rewrite length_app, !length_replicate. lia. }
    wp_step. rewrite fresh_counts_insert by lia.
    rewrite (take_S_r _ _ _ Ho). repeat split; try reflexivity.
    trace_simpl. rewrite HT. trace_simpl. reflexivity.
  - intros [P B A T E] (Hp & Hb & He & HT). cbn in Hp, Hb, He, HT. subst P B E.
    cbn [Nat.add]. rewrite firstn_all.
    do 20 wp_step.
    rewrite length_app, Nat.add_1_r. unfold new_prediction.
    replace (Z.of_nat (S (length (_predictions s))) - 1)
      with (Z.of_nat (length (_predictions s))) by lia.
    repeat split; try reflexivity.
    trace_simpl. rewrite HT. trace_simpl. reflexivity.
Qed.

Lemma bump_counts_lookup k ch ocs i :
  bump_counts k ch ocs !! i =
  (fun c => if (i <? k)%nat then bump ch i c else c) <$> ocs !! i.
Proof. unfold bump_counts. by rewrite list_lookup_imap. Qed.

Lemma bump_counts_length k ch ocs : length (bump_counts k ch ocs) = length ocs.
Proof. unfold bump_counts. by rewrite length_imap. Qed.

Lemma bump_counts_0 ch ocs : bump_counts 0 ch ocs = ocs.
Proof.
  apply list_eq. intros i. rewrite bump_counts_lookup.
  by destruct (ocs !! i).
Qed.

Lemma bump_counts_S i ch ocs c :
  ocs !! i = Some c ->
  <[i := bump ch i c]> (bump_counts i ch ocs) = bump_counts (S i) ch ocs.
Proof.
  intros Hc. apply list_eq. intros j. rewrite bump_counts_lookup.
  destruct (decide (i = j)) as [<- | Hne].
  - rewrite list_lookup_insert_eq.
    + rewrite Hc. cbn [fmap option_fmap option_map].
      by destruct (Nat.ltb_spec i (S i)); [|lia].
    + rewrite bump_counts_length. eapply lookup_lt_Some, Hc.
  - rewrite list_lookup_insert_ne by done. rewrite bump_counts_lookup.
    destruct (ocs !! j); [cbn [fmap option_fmap option_map] | done].
    destruct (Nat.ltb_spec j i), (Nat.ltb_spec j (S i)); first [done | lia].
Qed.

Lemma placeBet_spec this m pid ec proof s p :
  0 <= pid ->
  _predictions s !! Z.to_nat pid = Some p ->
  (Z.to_nat (optionCount p) <= length (optionCounts p))%nat ->
  0 < value m <= UINT64_MAX ->
  exists_ (bet_at s pid (sender m)) = false ->
  proof_valid proof = true ->
  wp (placeBet this m pid ec proof)
     (fun _ s' =>
        _predictions s' = <[Z.to_nat pid := bet_prediction m ec proof p]> (_predictions s) /\
        _bets s' = <[(pid, sender m) := mkBet (bet_choice ec proof) (bet_amount m) true]> (_bets s) /\
        events s' = events s ++ [BetPlaced pid (sender m) (to_uint64 (value m))] /\
        counter_accesses (trace s') =
          counter_accesses (trace s) ++
          flat_map (fun i => [CounterRead pid i; CounterWrite pid i;
                              CounterRead pid i; CounterRead pid i])
                   (seq 0 (Z.to_nat (optionCount p)))) s.
Proof.
  intros Hpid Hp Hk Hv Hb Hpr.
  pose proof (lookup_lt_Some _ _ _ Hp) as Hn.
  unfold placeBet. wp_step. wp_step.
  assert ((pid >=? predictions_length s) = false) as ->.
  { unfold predictions_length. lia. }
  assert (((value m =? 0) || (value m >? UINT64_MAX)) = false) as ->.
  { apply orb_false_iff. lia. }
  wp_step. apply wp_load_bet. rewrite Hb.
  wp_step. apply wp_FHE_fromExternal; [exact Hpr|].
  repeat wp_step.
  apply (wp_for_loop (fun i s' =>
    _predictions s' =
      <[Z.to_nat pid :=
          mkPrediction (title p) (options p) (optionCount p) (createdAt p) (creator p)
            (HAdd EUint64 (init EUint64 (totalStaked p)) (bet_amount m))
            (HAdd EUint32 (init EUint32 (totalBets p)) (HTrivial EUint32 1))
            (bump_counts i (bet_choice ec proof) (optionCounts p))]> (_predictions s) /\
    _bets s' = <[(pid, sender m) := mkBet (bet_choice ec proof) (bet_amount m) true]> (_bets s) /\
    events s' = events s /\
    counter_accesses (trace s') =
      counter_accesses (trace s) ++
      flat_map (fun i => [CounterRead pid i; CounterWrite pid i;
                          CounterRead pid i; CounterRead pid i]) (seq 0 i))).
  - wp_simpl. rewrite bump_counts_0. repeat split; try reflexivity.
    trace_simpl. reflexivity.
  - intros i [P B A T E] Hi (HP & HB & HE & HT). cbn in HP, HB, HE, HT. subst P B E.
    destruct (lookup_lt_is_Some_2 (optionCounts p) i) as [c Hc]; [lia|].
    do 7 wp_step.
    eapply wp_read_count;
      [wp_lookup | wp_simpl; rewrite bump_counts_lookup, Hc, Nat.ltb_irrefl; reflexivity |].
    wp_simpl. do 3 wp_step.
    eapply wp_write_count;
      [wp_lookup | wp_simpl; rewrite bump_counts_lookup, Hc, Nat.ltb_irrefl; reflexivity |].
    wp_simpl.
    pose proof (bump_counts_S i (bet_choice ec proof) _ c Hc) as HS.
    unfold bump, bet_choice in HS. unfold bet_choice. rewrite HS.
    wp_step.
    eapply wp_read_count;
      [wp_lookup | wp_simpl; rewrite bump_counts_lookup, Hc; reflexivity |].
    wp_simpl. do 3 wp_step.
    eapply wp_read_count;
      [wp_lookup | wp_simpl; rewrite bump_counts_lookup, Hc; reflexivity |].
    wp_simpl. wp_step. repeat split; try reflexivity.
    trace_simpl. rewrite HT. trace_simpl. reflexivity.
  - intros [P B A T E] (HP & HB & HE & HT). cbn in HP, HB, HE, HT. subst P B E.
    cbn [Nat.add]. repeat wp_step. repeat split; try reflexivity. exact HT.
Qed.

Lemma grantAccess_spec m pid s p :
  value m = 0 ->
  0 <= pid ->
  _predictions s !! Z.to_nat pid = Some p ->
  (Z.to_nat (optionCount p) <= length (optionCounts p))%nat ->
  wp (grantAccess m pid)
     (fun _ s' =>
        _predictions s' = _predictions s /\
        _bets s' = _bets s /\
        events s' = events s /\
        acl s' = acl s ++ access_grants p (bet_at s pid (sender m)) (sender m) /\
        counter_accesses (trace s') =
          counter_accesses (trace s) ++
          flat_map (fun i => [CounterRead pid i]) (seq 0 (Z.to_nat (optionCount p)))) s.
Proof.
  intros Hv Hpid Hp Hk.
  pose proof (lookup_lt_Some _ _ _ Hp) as Hn.
  unfold grantAccess. apply wp_bind, wp_nonpayable; [exact Hv|].
  wp_step. wp_step.
  assert ((pid >=? predictions_length s) = false) as ->.
  { unfold predictions_length. lia. }
  repeat wp_step.
  apply (wp_for_loop (fun i s' =>
    _predictions s' = _predictions s /\ _bets s' = _bets s /\ events s' = events s /\
    acl s' = acl s ++ [(totalStaked p, sender m); (totalBets p, sender m)] ++
             ((fun c => (c, sender m)) <$> take i (optionCounts p)) /\
    counter_accesses (trace s') =
      counter_accesses (trace s) ++ flat_map (fun i => [CounterRead pid i]) (seq 0 i))).
  - wp_simpl. rewrite take_0. cbn. rewrite <- app_assoc, app_nil_r. done.
  - intros i [P B A T E] Hi (HP & HB & HE & HA & HT). cbn in HP, HB, HE, HA, HT. subst P B E A.
    destruct (lookup_lt_is_Some_2 (optionCounts p) i) as [c Hc]; [lia|].
    wp_step.
    eapply wp_read_count; [wp_lookup | exact Hc |]. wp_simpl.
    wp_step. repeat split; try reflexivity.
    + rewrite (take_S_r _ _ _ Hc), fmap_app. cbn. by rewrite <- !app_assoc.
    + trace_simpl. rewrite HT. trace_simpl. reflexivity.
  - intros [P B A T E] (HP & HB & HE & HA & HT). cbn in HP, HB, HE, HA, HT. subst P B E A.
    cbn [Nat.add]. wp_step. wp_step. unfold access_grants, bet_at.
    destruct (default zero_Bet (_bets s !! (pid, sender m))) as [ch am [|]]; wp_simpl.
    + repeat wp_step. repeat split; try reflexivity; [|exact HT].
      cbn. rewrite <- !app_assoc. reflexivity.
    + wp_step. repeat split; try reflexivity; [|exact HT]. by rewrite app_nil_r.
Qed.

(** ** Reverts *)

Lemma createPrediction_NonPayable this m title options s :
  value m <> 0 ->
  createPrediction this m title options s = Revert NonPayable.
Proof. intros Hv. unfold createPrediction. by apply bind_nonpayable_revert. Qed.

Lemma createPrediction_InvalidOptions this m title options s :
  value m = 0 ->
  (length options < 2 \/ 4 < length options)%nat ->
  createPrediction this m title options s = Revert InvalidOptions.
Proof.
  intros Hv H. unfold createPrediction. rewrite bind_nonpayable by exact Hv.
  assert (((Z.of_nat (length options) <? 2) || (Z.of_nat (length options) >? 4)) = true) as ->.
  { apply orb_true_iff. lia. }
  reflexivity.
Qed.

Lemma placeBet_InvalidPrediction this m pid ec proof s :
  predictions_length s <= pid ->
  placeBet this m pid ec proof s = Revert InvalidPrediction.
Proof.
  intros H. unfold placeBet, bind, get.
  assert ((pid >=? predictions_length s) = true) as -> by lia.
  reflexivity.
Qed.

Lemma placeBet_InvalidBetAmount this m pid ec proof s :
  pid < predictions_length s ->
  value m = 0 \/ UINT64_MAX < value m ->
  placeBet this m pid ec proof s = Revert InvalidBetAmount.
Proof.
  intros H Hv. unfold placeBet, bind, get.
  assert ((pid >=? predictions_length s) = false) as -> by lia.
  assert (((value m =? 0) || (value m >? UINT64_MAX)) = true) as ->.
  { apply orb_true_iff. lia. }
  reflexivity.
Qed.

Lemma placeBet_BetAlreadyPlaced this m pid ec proof s :
  pid < predictions_length s ->
  0 < value m <= UINT64_MAX ->
  exists_ (bet_at s pid (sender m)) = true ->
  placeBet this m pid ec proof s = Revert BetAlreadyPlaced.
Proof.
  intros H Hv Hb. unfold placeBet, bind, get.
  assert ((pid >=? predictions_length s) = false) as -> by lia.
  assert (((value m =? 0) || (value m >? UINT64_MAX)) = false) as ->.
  { apply orb_false_iff. lia. }
  unfold load_bet. by rewrite Hb.
Qed.

Lemma placeBet_InvalidProof this m pid ec proof s :
  pid < predictions_length s ->
  0 < value m <= UINT64_MAX ->
  exists_ (bet_at s pid (sender m)) = false ->
  proof_valid proof = false ->
  placeBet this m pid ec proof s = Revert InvalidProof.
Proof.
  intros H Hv Hb Hpr. unfold placeBet, bind, get.
  assert ((pid >=? predictions_length s) = false) as -> by lia.
  assert (((value m =? 0) || (value m >? UINT64_MAX)) = false) as ->.
  { apply orb_false_iff. lia. }
  unfold load_bet. rewrite Hb. unfold FHE_fromExternal. by rewrite Hpr.
Qed.

Lemma grantAccess_NonPayable m pid s :
  value m <> 0 ->
  grantAccess m pid s = Revert NonPayable.
Proof. intros Hv. unfold grantAccess. by apply bind_nonpayable_revert. Qed.

Lemma grantAccess_InvalidPrediction m pid s :
  value m = 0 ->
  predictions_length s <= pid ->
  grantAccess m pid s = Revert InvalidPrediction.
Proof.
  intros Hv H. unfold grantAccess. rewrite bind_nonpayable by exact Hv.
  unfold bind, get.
  assert ((pid >=? predictions_length s) = true) as -> by lia.
  reflexivity.
Qed.

(** ** Well-formed storage is invariant *)

Lemma wf_prediction_counts p :
  wf_prediction p -> (Z.to_nat (optionCount p) <= length (optionCounts p))%nat.
Proof. intros (Hl & Hk & _). lia. Qed.

Lemma lookup_prediction_lt s pid :
  0 <= pid < predictions_length s ->
  exists p, _predictions s !! Z.to_nat pid = Some p.
Proof.
  unfold predictions_length. intros H.
  apply lookup_lt_is_Some_2. lia.
Qed.

Lemma transact_storage_step this m c s :
  wf_state s -> wf_msg m -> wf_call m c -> storage_step s (transact this m c s).
Proof.
  intros [Hwf _] (_ & Hval & _) Hc. unfold transact. destruct c as [t o | pid ec proof | pid]; cbn [run_call].
  - destruct (decide (2 <= length o <= 4)%nat) as [Hlen | Hlen].
    + destruct (wp_elim _ _ _ (createPrediction_spec this m t o s Hc Hlen))
        as (id & s' & Hrun & Hid & HP & HB & HE & _).
      unfold bind. rewrite Hrun. cbn. subst id. by eapply step_create.
    + unfold bind. rewrite (createPrediction_InvalidOptions _ _ _ _ _ Hc) by lia. by apply step_same.
  - destruct Hc as [Hpid _].
    destruct (decide (predictions_length s <= pid)) as [Hge | Hlt].
    { rewrite placeBet_InvalidPrediction by done. by apply step_same. }
    destruct (decide (0 < value m <= UINT64_MAX)) as [Hv | Hv].
    2: { rewrite placeBet_InvalidBetAmount by lia. by apply step_same. }
    destruct (exists_ (bet_at s pid (sender m))) eqn:Hb.
    { rewrite placeBet_BetAlreadyPlaced by (done || lia). by apply step_same. }
    destruct (proof_valid proof) eqn:Hpr.
    2: { rewrite placeBet_InvalidProof by (done || lia). by apply step_same. }
    destruct (lookup_prediction_lt s pid) as [p Hp]; [lia|].
    destruct (wp_elim _ _ _ (placeBet_spec this m pid ec proof s p (proj1 Hpid) Hp
                (wf_prediction_counts _ (Hwf _ _ Hp)) Hv Hb Hpr))
      as ([] & s' & Hrun & HP & HB & HE & _).
    rewrite Hrun. exact (step_bet _ _ m pid ec proof p (proj1 Hpid) Hp Hv Hb HP HB HE).
  - destruct Hc as [Hv0 Hpid].
    destruct (decide (predictions_length s <= pid)) as [Hge | Hlt].
    { rewrite (grantAccess_InvalidPrediction _ _ _ Hv0) by done. by apply step_same. }
    destruct (lookup_prediction_lt s pid) as [p Hp]; [lia|].
    destruct (wp_elim _ _ _ (grantAccess_spec m pid s p Hv0 (proj1 Hpid) Hp
                (wf_prediction_counts _ (Hwf _ _ Hp))))
      as ([] & s' & Hrun & HP & HB & HE & _ & _).
    rewrite Hrun. by apply step_same.
Qed.

Lemma wf_new_prediction m t o :
  (2 <= length o <= 4)%nat -> wf_prediction (new_prediction m t o).
Proof.
  intros Hlen. unfold wf_prediction, new_prediction; cbn.
  assert (Hk : to_uint8 (Z.of_nat (length o)) = Z.of_nat (length o)).
  { unfold to_uint8. apply Z.mod_small. lia. }
  rewrite Hk, length_app, !length_replicate. repeat split; try lia.
  intros i Hi. rewrite Nat2Z.id in Hi.
  rewrite lookup_app_r by (rewrite length_replicate; lia).
  rewrite length_replicate. apply lookup_replicate_2. lia.
Qed.

Lemma wf_bet_prediction m ec proof p :
  wf_prediction p -> wf_prediction (bet_prediction m ec proof p).
Proof.
  intros (Hl & Hk & Hz). unfold wf_prediction, bet_prediction; cbn.
  rewrite bump_counts_length. repeat split; try lia.
  intros i Hi. rewrite bump_counts_lookup, (Hz i Hi). cbn [fmap option_fmap option_map].
  destruct (Nat.ltb_spec i (Z.to_nat (optionCount p))); [lia | reflexivity].
Qed.

Lemma storage_step_wf s s' : storage_step s s' -> wf_state s -> wf_state s'.
Proof.
  intros Hstep [Hwf Hbets]. destruct Hstep as [HP HB _ | m t o Hlen HP HB _ | m pid ec proof p Hpid Hp Hv Hb HP HB _].
  - split; [by rewrite HP | by rewrite HB].
  - split; [| by rewrite HB].
    intros n p. rewrite HP. intros [Hin | [_ Hin]]%lookup_app_Some.
    + by eapply Hwf.
    + apply list_lookup_singleton_Some in Hin as [_ <-]. by apply wf_new_prediction.
  - split.
    + intros n q. rewrite HP. intros Hq.
      apply list_lookup_insert_Some in Hq as [(<- & <- & _) | (_ & Hq)].
      * by apply wf_bet_prediction, (Hwf _ _ Hp).
      * by eapply Hwf.
    + intros key b. rewrite HB. intros [[_ <-] | [_ Hk]]%lookup_insert_Some; [done|].
      by eapply Hbets.
Qed.

Lemma wf_init : wf_state init_State.
Proof. split; [intros n p | intros key b]; cbn; [by rewrite lookup_nil | by rewrite lookup_empty]. Qed.

Lemma reachable_wf this s : reachable this s -> wf_state s.
Proof.
  induction 1 as [| m c s _ IH Hm Hc]; [apply wf_init|].
  eapply storage_step_wf; [by apply transact_storage_step | done].
Qed.

Lemma reachable_wf_prediction this s n p :
  reachable this s -> _predictions s !! n = Some p -> wf_prediction p.
Proof. intros Hr. by apply (reachable_wf this s Hr). Qed.

(** A bet slot without a recorded bet was never written. *)
Lemma no_bet_zero s pid user :
  wf_state s -> exists_ (bet_at s pid user) = false -> bet_at s pid user = zero_Bet.
Proof.
  intros [_ Hb]. unfold bet_at. destruct (_bets s !! (pid, user)) as [b|] eqn:E; cbn.
  - intros Hf. by rewrite (Hb _ _ E) in Hf.
  - done.
Qed.

(** Bets are recorded once and never change. *)
Lemma storage_step_bets s s' key b :
  wf_state s -> storage_step s s' -> _bets s !! key = Some b -> _bets s' !! key = Some b.
Proof.
  intros [_ Hwf] [HP HB _ | m t o _ _ HB _ | m pid ec proof p _ _ _ Hb _ HB _] Hkey;
    rewrite HB; try done.
  destruct (decide ((pid, sender m) = key)) as [<- | Hne].
  - unfold bet_at in Hb. rewrite Hkey in Hb. cbn in Hb.
    by rewrite (Hwf _ _ Hkey) in Hb.
  - by rewrite lookup_insert_ne.
Qed.

Lemma storage_step_length s s' :
  storage_step s s' -> predictions_length s <= predictions_length s'.
Proof.
  unfold predictions_length.
  intros [HP _ _ | m t o _ HP _ _ | m pid ec proof p _ _ _ _ HP _ _]; rewrite HP.
  - lia.
  - rewrite length_app. cbn. lia.
  - rewrite length_insert. lia.
Qed.

Lemma steps_reachable this s s' : reachable this s -> steps this s s' -> reachable this s'.
Proof. intros Hr. induction 1; [done | by apply reachable_step]. Qed.

Lemma steps_bets this s s' key b :
  reachable this s -> steps this s s' -> _bets s !! key = Some b -> _bets s' !! key = Some b.
Proof.
  intros Hr Hs Hkey. induction Hs as [| s' m c Hs IH Hm Hc]; [done|].
  assert (Hwf : wf_state s') by (eapply reachable_wf, steps_reachable; eauto).
  eapply storage_step_bets; [exact Hwf | by apply transact_storage_step | exact IH].
Qed.

Lemma steps_length this s s' :
  reachable this s -> steps this s s' -> predictions_length s <= predictions_length s'.
Proof.
  intros Hr Hs. induction Hs as [| s' m c Hs IH Hm Hc]; [lia|].
  assert (Hwf : wf_state s') by (eapply reachable_wf, steps_reachable; eauto).
  etransitivity; [exact IH|].
  by apply storage_step_length, transact_storage_step.
Qed.

(** ** The views *)

Lemma getUserBet_eq pid user s :
  0 <= pid < predictions_length s ->
  getUserBet pid user s =
  Ok (exists_ (bet_at s pid user), choice (bet_at s pid user), amount (bet_at s pid user)) s.
Proof.
  intros H. unfold getUserBet, bind, get.
  assert ((pid >=? predictions_length s) = false) as -> by lia.
  reflexivity.
Qed.

Lemma getOptionCounts_spec pid s p :
  0 <= pid ->
  _predictions s !! Z.to_nat pid = Some p ->
  (Z.to_nat (optionCount p) <= length (optionCounts p))%nat ->
  wp (getOptionCounts pid)
     (fun counts s' =>
        counts = take (Z.to_nat (optionCount p)) (optionCounts p) /\
        _predictions s' = _predictions s /\ _bets s' = _bets s /\ acl s' = acl s /\
        events s' = events s /\
        trace s' = trace s ++ (CounterRead pid <$> seq 0 (Z.to_nat (optionCount p)))) s.
Proof.
  intros Hpid Hp Hk.
  pose proof (lookup_lt_Some _ _ _ Hp) as Hn.
  unfold getOptionCounts. wp_step. wp_step.
  assert ((pid >=? predictions_length s) = false) as ->.
  { unfold predictions_length. lia. }
  repeat wp_step.
  set (k := Z.to_nat (optionCount p)) in *.
  apply (wp_for_fold (fun i counts s' =>
    counts = take i (optionCounts p) ++ replicate (k - i) HNull /\
    _predictions s' = _predictions s /\ _bets s' = _bets s /\ acl s' = acl s /\
    events s' = events s /\ trace s' = trace s ++ (CounterRead pid <$> seq 0 i))).
  - rewrite take_0, Nat.sub_0_r. cbn. by rewrite app_nil_r.
  - intros i counts [P B A T E] Hi (-> & HP & HB & HA & HE & HT).
    cbn in HP, HB, HA, HE, HT. subst P B A T E. cbn [Nat.add] in Hi.
    destruct (lookup_lt_is_Some_2 (optionCounts p) i) as [c Hc]; [lia|].
    assert (Hti : length (take i (optionCounts p)) = i) by (rewrite length_take; lia).
    wp_step. eapply wp_read_count; [wp_lookup | exact Hc |]. wp_simpl.
    rewrite lookup_app_r by lia. rewrite Hti, Nat.sub_diag.
    destruct (k - i)%nat as [|r] eqn:Hr; [lia|]. cbn [replicate lookup list_lookup].
    wp_step. repeat split; try reflexivity.
    + rewrite insert_app_r_alt by lia. rewrite Hti, Nat.sub_diag. cbn.
      rewrite (take_S_r _ _ _ Hc), <- app_assoc. cbn.
      by replace (k - S i)%nat with r by lia.
    + rewrite seq_S, fmap_app, app_assoc. reflexivity.
  - intros counts s' (-> & HP & HB & HA & HE & HT). cbn [Nat.add] in *.
    rewrite Nat.sub_diag, app_nil_r. done.
Qed.

(** ** Plaintext-equivalent values *)

Lemma sumZ_app l1 l2 : sumZ (l1 ++ l2) = sumZ l1 + sumZ l2.
Proof. unfold sumZ. induction l1 as [|x l1 IH]; cbn; [done | lia]. Qed.

Lemma denote_nonneg h : 0 <= denote h.
Proof.
  induction h as [| t v | t e x | t a IHa b IHb | a IHa b IHb | c IHc a IHa b IHb]; cbn.
  - lia.
  - apply Z.mod_pos_bound. destruct t; cbn; lia.
  - apply Z.mod_pos_bound. destruct t; cbn; lia.
  - apply Z.mod_pos_bound. destruct t; cbn; lia.
  - destruct (denote a =? denote b); lia.
  - by destruct (denote c =? 0).
Qed.

(** The plaintext of the increment selected for slot [i]. *)
Lemma denote_increment ch i :
  (i < 256)%nat ->
  denote (HSelect (HEq ch (HTrivial EUint8 (Z.of_nat i))) (HTrivial EUint32 1) (HTrivial EUint32 0)) =
  if denote ch =? Z.of_nat i then 1 else 0.
Proof.
  intros Hi. cbn [denote bits].
  rewrite (Z.mod_small (Z.of_nat i)) by lia.
  by destruct (denote ch =? Z.of_nat i).
Qed.

Lemma denote_bump ch i c :
  (i < 256)%nat ->
  denote (bump ch i c) = (denote c + (if denote ch =? Z.of_nat i then 1 else 0)) mod 2 ^ 32.
Proof.
  intros Hi. unfold bump. cbn [denote bits].
  rewrite denote_init.
  pose proof (denote_increment ch i Hi) as H. cbn [denote bits] in H. by rewrite H.
Qed.

Lemma denote_bet_totalBets m ec proof p :
  denote (totalBets (bet_prediction m ec proof p)) = (denote (totalBets p) + 1) mod 2 ^ 32.
Proof. cbn [bet_prediction totalBets denote bits]. by rewrite denote_init. Qed.

Lemma denote_bet_totalStaked m ec proof p :
  0 < value m <= UINT64_MAX ->
  denote (totalStaked (bet_prediction m ec proof p)) =
  (denote (totalStaked p) + value m) mod 2 ^ 64.
Proof.
  intros Hv. unfold bet_prediction, bet_amount, to_uint64. cbn [totalStaked denote bits].
  rewrite denote_init. unfold UINT64_MAX in Hv.
  by rewrite !(Z.mod_small (value m)) by lia.
Qed.

(** The counters of a market after one more bet whose choice decrypts to [x]:
    slot [x] went up by one (with 32-bit wrap-around) when [x] is an option,
    no slot moved otherwise. *)
Lemma sum_counts_bet m ec proof p :
  wf_prediction p ->
  let x := denote (bet_choice ec proof) in
  let hit := if x <? optionCount p then 1 else 0 in
  0 <= sum_counts p /\
  sum_counts (bet_prediction m ec proof p) mod 2 ^ 32 = (sum_counts p + hit) mod 2 ^ 32 /\
  (sum_counts p + 1 < 2 ^ 32 -> sum_counts (bet_prediction m ec proof p) = sum_counts p + hit).
Proof.
  intros (Hl & Hk & _) x hit.
  assert (Hx : 0 <= x) by apply denote_nonneg.
  destruct p as [ti op k ca cr ts tb ocs]. cbn [optionCounts optionCount] in *.
  destruct ocs as [|c0 [|c1 [|c2 [|c3 [|]]]]]; try discriminate Hl.
  unfold sum_counts, bet_prediction. cbn [optionCounts optionCount].
  fold x.
  pose proof (denote_nonneg c0). pose proof (denote_nonneg c1).
  pose proof (denote_nonneg c2). pose proof (denote_nonneg c3).
  assert (Hkk : k = 2 \/ k = 3 \/ k = 4) by lia.
  destruct Hkk as [-> | [-> | ->]]; subst hit;
    change (Z.to_nat 2) with 2%nat; change (Z.to_nat 3) with 3%nat; change (Z.to_nat 4) with 4%nat;
    cbn [Z.to_nat Pos.to_nat Pos.iter_op Nat.add bump_counts imap take fmap list_fmap sumZ foldr
         Nat.ltb Nat.leb compose].
  all: rewrite ?denote_bump by lia.
  all: fold x.
  all: change (Z.of_nat 0) with 0; change (Z.of_nat 1) with 1; change (Z.of_nat 2) with 2; change (Z.of_nat 3) with 3.
  all: change (2 ^ 32) with 4294967296.
  all: destruct (Z.eqb_spec x 0), (Z.eqb_spec x 1), (Z.eqb_spec x 2), (Z.eqb_spec x 3);
       try lia.
  all: destruct (Z.ltb_spec x 2), (Z.ltb_spec x 3), (Z.ltb_spec x 4); try lia.
  all: (split; [lia|split]; [ Z.div_mod_to_equations; lia | intros; Z.div_mod_to_equations; lia]).
Qed.

Lemma sum_counts_new m t o :
  (2 <= length o <= 4)%nat -> sum_counts (new_prediction m t o) = 0.
Proof.
  intros Hlen. unfold sum_counts, new_prediction. cbn [optionCount optionCounts].
  assert (Hk : to_uint8 (Z.of_nat (length o)) = Z.of_nat (length o)).
  { unfold to_uint8. apply Z.mod_small. lia. }
  rewrite Hk, Nat2Z.id.
  rewrite take_app_length' by (by rewrite length_replicate).
  generalize (length o). intros n. induction n as [|n IH]; [done|].
  cbn [replicate fmap list_fmap sumZ foldr denote bits]. fold (sumZ (denote <$> replicate n (HTrivial EUint32 0))).
  by rewrite IH.
Qed.

(** ** The ledger invariant *)

Lemma accepted_amounts_snoc pid s s' e :
  events s' = events s ++ [e] ->
  accepted_amounts pid s' =
  accepted_amounts pid s ++ match placed_amount pid e with Some a => [a] | None => [] end.
Proof.
  unfold accepted_amounts. intros ->. rewrite omap_app. cbn.
  by destruct (placed_amount pid e).
Qed.

Lemma market_inv_ext s s' pid p :
  accepted_amounts pid s' = accepted_amounts pid s ->
  (choices_in_range s' pid p -> choices_in_range s pid p) ->
  market_inv s pid p -> market_inv s' pid p.
Proof.
  unfold market_inv. intros -> Hc (Htb & Hts & Hmod & Hex).
  split; [done|]. split; [done|]. split; [by auto|].
  intros HN. destruct (Hex HN) as [Hle Heq]. by auto.
Qed.

Lemma market_inv_new s m t o :
  (2 <= length o <= 4)%nat ->
  accepted_amounts (predictions_length s) s = [] ->
  market_inv s (predictions_length s) (new_prediction m t o).
Proof.
  intros Hlen Hacc. unfold market_inv. rewrite Hacc, sum_counts_new by done.
  cbn. repeat split; lia.
Qed.

Lemma market_inv_bet s s' m pid ec proof p :
  wf_state s ->
  wf_prediction p ->
  0 < value m <= UINT64_MAX ->
  exists_ (bet_at s pid (sender m)) = false ->
  _bets s' = <[(pid, sender m) := mkBet (bet_choice ec proof) (bet_amount m) true]> (_bets s) ->
  events s' = events s ++ [BetPlaced pid (sender m) (to_uint64 (value m))] ->
  market_inv s pid p -> market_inv s' pid (bet_prediction m ec proof p).
Proof.
  intros [_ Hbets] Hwfp Hv Hb HB HE (Htb & Hts & Hmod & Hex).
  assert (Hacc : accepted_amounts pid s' = accepted_amounts pid s ++ [value m]).
  { rewrite (accepted_amounts_snoc _ _ _ _ HE). cbn. rewrite Z.eqb_refl.
    unfold to_uint64, UINT64_MAX in *. by rewrite Z.mod_small by lia. }
  assert (Hrange : choices_in_range s' pid (bet_prediction m ec proof p) ->
                   choices_in_range s pid p /\ denote (bet_choice ec proof) < optionCount p).
  { intros Hc. split.
    - intros user b Hkey. apply (Hc user b). rewrite HB.
      destruct (decide (sender m = user)) as [<- | Hne].
      + unfold bet_at in Hb. rewrite Hkey in Hb. cbn in Hb.
        by rewrite (Hbets _ _ Hkey) in Hb.
      + rewrite lookup_insert_ne; [done | congruence].
    - apply (Hc (sender m) (mkBet (bet_choice ec proof) (bet_amount m) true)).
      rewrite HB. apply lookup_insert_eq. }
  destruct (sum_counts_bet m ec proof p Hwfp) as (Hs0 & HsumM & HsumE).
  unfold market_inv. rewrite Hacc, length_app, sumZ_app. cbn [length sumZ foldr].
  rewrite denote_bet_totalBets, denote_bet_totalStaked, Htb, Hts by done.
  set (N := Z.of_nat (length (accepted_amounts pid s))) in *.
  replace (Z.of_nat (length (accepted_amounts pid s) + 1)) with (N + 1) by lia.
  set (S := sum_counts p) in *.
  set (S' := sum_counts (bet_prediction m ec proof p)) in *.
  set (x := denote (bet_choice ec proof)) in *.
  set (k := optionCount p) in *.
  change (2 ^ 32) with 4294967296 in *. change (2 ^ 64) with 18446744073709551616 in *.
  split; [|split; [|split]].
  - Z.div_mod_to_equations; lia.
  - Z.div_mod_to_equations; lia.
  - intros Hc. destruct (Hrange Hc) as [Hc0 Hx].
    specialize (Hmod Hc0). destruct (Z.ltb_spec x k); [|lia].
    Z.div_mod_to_equations; lia.
  - intros HN. destruct Hex as [Hle Heq]; [lia|].
    specialize (HsumE ltac:(lia)). split.
    + destruct (x <? k); lia.
    + intros Hc. destruct (Hrange Hc) as [Hc0 Hx].
      specialize (Heq Hc0). destruct (Z.ltb_spec x k); lia.
Qed.

Lemma storage_step_inv s s' :
  wf_state s -> storage_step s s' -> ledger_inv s -> ledger_inv s'.
Proof.
  intros Hwf Hstep [Hnone Hmk].
  destruct Hstep as [HP HB HE | m t o Hlen HP HB HE | m pid' ec proof p0 Hpid' Hp0 Hv Hb HP HB HE].
  - assert (Hacc : forall pid, accepted_amounts pid s' = accepted_amounts pid s).
    { intros pid. unfold accepted_amounts. by rewrite HE. }
    split.
    + intros pid. unfold predictions_length. rewrite HP, Hacc. apply Hnone.
    + intros pid p Hpid. rewrite HP. intros Hp.
      apply (market_inv_ext s); [apply Hacc | | by apply Hmk].
      unfold choices_in_range. by rewrite HB.
  - assert (Hacc : forall pid, accepted_amounts pid s' = accepted_amounts pid s).
    { intros pid. rewrite (accepted_amounts_snoc _ _ _ _ HE). cbn. by rewrite app_nil_r. }
    split.
    + intros pid. unfold predictions_length. rewrite HP, length_app, Hacc. cbn.
      intros H. apply Hnone. unfold predictions_length. lia.
    + intros pid p Hpid. rewrite HP. intros [Hin | [Hge Hin]]%lookup_app_Some.
      * apply (market_inv_ext s); [apply Hacc | | by apply Hmk].
        unfold choices_in_range. by rewrite HB.
      * apply list_lookup_singleton_Some in Hin as [Hn <-].
        assert (pid = predictions_length s) as -> by (unfold predictions_length; lia).
        apply (market_inv_ext s); [apply Hacc | | ].
        -- unfold choices_in_range. by rewrite HB.
        -- apply market_inv_new; [done|]. by apply Hnone.
  - pose proof (lookup_lt_Some _ _ _ Hp0) as Hlt. split.
    + intros pid. unfold predictions_length. rewrite HP, length_insert. intros Hge.
      rewrite (accepted_amounts_snoc _ _ _ _ HE). cbn.
      destruct (Z.eqb_spec pid' pid) as [-> | Hne]; [lia|].
      rewrite app_nil_r. by apply Hnone.
    + intros pid p Hpid. rewrite HP. intros Hp.
      apply list_lookup_insert_Some in Hp as [(Heq & <- & _) | (Hne & Hp)].
      * assert (pid' = pid) as -> by lia.
        apply (market_inv_bet s); try done.
        -- by apply (proj1 Hwf _ _ Hp0).
        -- by apply Hmk.
      * assert (Hne' : pid' <> pid) by congruence.
        apply (market_inv_ext s); [| | by apply Hmk].
        -- rewrite (accepted_amounts_snoc _ _ _ _ HE). cbn.
           destruct (Z.eqb_spec pid' pid); [done|]. by rewrite app_nil_r.
        -- intros Hc user b Hkey. apply (Hc user b). rewrite HB.
           rewrite lookup_insert_ne; [done | congruence].
Qed.

Lemma ledger_inv_init : ledger_inv init_State.
Proof. split; [done|]. intros pid p _. cbn. by rewrite lookup_nil. Qed.

Lemma reachable_inv this s : reachable this s -> ledger_inv s.
Proof.
  induction 1 as [| m c s Hr IH Hm Hc]; [apply ledger_inv_init|].
  pose proof (reachable_wf this s Hr) as Hwf.
  eapply storage_step_inv; [exact Hwf | by apply transact_storage_step | exact IH].
Qed.

(** ** Market creation *)

Lemma getPredictionCount_eq s : getPredictionCount s = Ok (predictions_length s) s.
Proof. reflexivity. Qed.

(** C7: called without value (the function is not payable),
    [createPrediction] reverts with [InvalidOptions] exactly when the number
    of options is outside [2,4] (so 0, 1, 5 or more options always fail);
    with 2, 3 or 4 options it succeeds, appends exactly one market, returns
    the previous market count as the new id, and [getPredictionCount] grows
    by exactly one. *)
Theorem createPrediction_options this m title options s :
  value m = 0 ->
  (createPrediction this m title options s = Revert InvalidOptions <->
   (length options < 2 \/ 4 < length options)%nat) /\
  ((2 <= length options <= 4)%nat ->
   exists s' p,
     createPrediction this m title options s = Ok (predictions_length s) s' /\
     _predictions s' = _predictions s ++ [p] /\
     getPredictionCount s = Ok (predictions_length s) s /\
     getPredictionCount s' = Ok (predictions_length s + 1) s').
Proof.
  intros Hv.
  assert (Hok : (2 <= length options <= 4)%nat ->
    exists s' p,
     createPrediction this m title options s = Ok (predictions_length s) s' /\
     _predictions s' = _predictions s ++ [p] /\
     getPredictionCount s = Ok (predictions_length s) s /\
     getPredictionCount s' = Ok (predictions_length s + 1) s').
  { intros Hlen.
    destruct (wp_elim _ _ _ (createPrediction_spec this m title options s Hv Hlen))
      as (id & s' & Hrun & -> & HP & _ & _ & _).
    exists s', (new_prediction m title options). repeat split; try done.
    rewrite getPredictionCount_eq. f_equal.
    unfold predictions_length. rewrite HP, length_app. cbn. lia. }
  split; [|exact Hok]. split.
  - intros Hrev. destruct (decide (2 <= length options <= 4)%nat) as [Hlen|]; [|lia].
    destruct (Hok Hlen) as (s' & p & Hrun & _). congruence.
  - by apply createPrediction_InvalidOptions.
Qed.

(** ** Placing a bet: the preconditions *)

(** C3: [placeBet] checks its preconditions in order, each with its own
    error: an unknown market gives [InvalidPrediction] whatever the stake and
    the caller; then a stake of 0 or above 2^64-1 gives [InvalidBetAmount]
    whether or not the caller has bet; then an existing bet of the caller
    gives [BetAlreadyPlaced].  A stake with 0 < v <= 2^64-1 passes (2^64-1
    included).  A reverted call leaves the ledger unchanged. *)
Theorem placeBet_preconditions this m pid ec proof s :
  (predictions_length s <= pid ->
   placeBet this m pid ec proof s = Revert InvalidPrediction) /\
  (pid < predictions_length s -> value m = 0 \/ 2 ^ 64 - 1 < value m ->
   placeBet this m pid ec proof s = Revert InvalidBetAmount) /\
  (pid < predictions_length s -> 0 < value m <= 2 ^ 64 - 1 ->
   exists_ (bet_at s pid (sender m)) = true ->
   placeBet this m pid ec proof s = Revert BetAlreadyPlaced) /\
  (wf_state s -> 0 <= pid < predictions_length s -> 0 < value m <= 2 ^ 64 - 1 ->
   exists_ (bet_at s pid (sender m)) = false -> proof_valid proof = true ->
   exists s', placeBet this m pid ec proof s = Ok tt s' /\
              exists_ (bet_at s' pid (sender m)) = true) /\
  (forall e, placeBet this m pid ec proof s = Revert e ->
             transact this m (PlaceBet pid ec proof) s = s).
Proof.
  split; [apply placeBet_InvalidPrediction|].
  split; [apply placeBet_InvalidBetAmount|].
  split; [apply placeBet_BetAlreadyPlaced|].
  split.
  - intros [Hwf _] Hpid Hv Hb Hpr.
    destruct (lookup_prediction_lt s pid Hpid) as [p Hp].
    destruct (wp_elim _ _ _ (placeBet_spec this m pid ec proof s p (proj1 Hpid) Hp
                (wf_prediction_counts _ (Hwf _ _ Hp)) Hv Hb Hpr))
      as ([] & s' & Hrun & _ & HB & _ & _).
    exists s'. split; [done|]. unfold bet_at. by rewrite HB, lookup_insert_eq.
  - intros e He. unfold transact. cbn [run_call]. by rewrite He.
Qed.

(** ** Reading an unknown market *)

(** C10: every view that takes a market id reverts with
    [InvalidPrediction] when the id is not below the market count; so does
    [getUserBet], which does not answer "no bet" for an unknown market. *)
Theorem views_InvalidPrediction pid user s :
  predictions_length s <= pid ->
  getPredictionMeta pid s = Revert InvalidPrediction /\
  getPredictionOptions pid s = Revert InvalidPrediction /\
  getPredictionTotals pid s = Revert InvalidPrediction /\
  getOptionCounts pid s = Revert InvalidPrediction /\
  getUserBet pid user s = Revert InvalidPrediction.
Proof.
  intros H.
  assert (E : (pid >=? predictions_length s) = true) by lia.
  unfold getPredictionMeta, getPredictionOptions, getPredictionTotals,
    getOptionCounts, getUserBet, bind, get.
  rewrite E. done.
Qed.

(** Success of [placeBet] implies its preconditions and its effect. *)
Lemma placeBet_Ok_inv this m pid ec proof s u s' :
  wf_state s -> wf_msg m -> 0 <= pid ->
  placeBet this m pid ec proof s = Ok u s' ->
  exists p,
    _predictions s !! Z.to_nat pid = Some p /\
    0 < value m <= UINT64_MAX /\
    exists_ (bet_at s pid (sender m)) = false /\
    proof_valid proof = true /\
    _predictions s' = <[Z.to_nat pid := bet_prediction m ec proof p]> (_predictions s) /\
    _bets s' = <[(pid, sender m) := mkBet (bet_choice ec proof) (bet_amount m) true]> (_bets s) /\
    events s' = events s ++ [BetPlaced pid (sender m) (to_uint64 (value m))] /\
    counter_accesses (trace s') =
      counter_accesses (trace s) ++
      flat_map (fun i => [CounterRead pid i; CounterWrite pid i;
                          CounterRead pid i; CounterRead pid i])
               (seq 0 (Z.to_nat (optionCount p))).
Proof.
  intros [Hwf _] (_ & Hval & _) Hpid Hrun.
  destruct (decide (predictions_length s <= pid)) as [Hge | Hlt].
  { rewrite placeBet_InvalidPrediction in Hrun by done. discriminate. }
  destruct (decide (0 < value m <= UINT64_MAX)) as [Hv | Hv].
  2: { rewrite placeBet_InvalidBetAmount in Hrun by lia. discriminate. }
  destruct (exists_ (bet_at s pid (sender m))) eqn:Hb.
  { rewrite placeBet_BetAlreadyPlaced in Hrun by (done || lia). discriminate. }
  destruct (proof_valid proof) eqn:Hpr.
  2: { rewrite placeBet_InvalidProof in Hrun by (done || lia). discriminate. }
  destruct (lookup_prediction_lt s pid) as [p Hp]; [lia|].
  destruct (wp_elim _ _ _ (placeBet_spec this m pid ec proof s p Hpid Hp
              (wf_prediction_counts _ (Hwf _ _ Hp)) Hv Hb Hpr))
    as ([] & s1 & Hrun1 & HP & HB & HE & HT).
  rewrite Hrun1 in Hrun. inversion Hrun; subst. exists p. repeat split; (done || lia).
Qed.

(** ** Reading a bet *)

(** C9: in a reachable ledger, for an existing market, [getUserBet]
    returns [exists = false] with the zero handles for a participant without
    a recorded bet; once a participant's [placeBet] was accepted it returns,
    at any later time, [exists = true] with the choice and amount handles
    recorded by that call. *)
Theorem getUserBet_recorded this s pid user :
  reachable this s -> 0 <= pid < predictions_length s ->
  (exists_ (bet_at s pid user) = false ->
   getUserBet pid user s = Ok (false, HNull, HNull) s /\
   denote HNull = 0) /\
  (forall s0 m ec proof s1,
     reachable this s0 -> wf_msg m -> wf_call m (PlaceBet pid ec proof) ->
     sender m = user ->
     placeBet this m pid ec proof s0 = Ok tt s1 -> steps this s1 s ->
     getUserBet pid user s =
     Ok (true, HInput EUint8 ec (proof_plain proof), HTrivial EUint64 (to_uint64 (value m))) s).
Proof.
  intros Hr Hpid. split.
  - intros Hb. rewrite getUserBet_eq by done.
    by rewrite (no_bet_zero s pid user (reachable_wf _ _ Hr) Hb).
  - intros s0 m ec proof s1 Hr0 Hm Hc <- Hrun Hsteps.
    destruct (placeBet_Ok_inv _ _ _ _ _ _ _ _ (reachable_wf _ _ Hr0) Hm (proj1 Hpid) Hrun)
      as (p & _ & _ & _ & _ & _ & HB & _ & _).
    assert (Hr1 : reachable this s1).
    { replace s1 with (transact this m (PlaceBet pid ec proof) s0).
      - by apply reachable_step.
      - unfold transact. cbn [run_call]. by rewrite Hrun. }
    rewrite getUserBet_eq by done. unfold bet_at.
    rewrite (steps_bets this s1 s (pid, sender m)
               (mkBet (bet_choice ec proof) (bet_amount m) true) Hr1 Hsteps).
    + reflexivity.
    + rewrite HB. apply lookup_insert_eq.
Qed.

(** ** Granting access *)

Ltac in_list :=
  rewrite ?elem_of_app, ?elem_of_cons, ?elem_of_nil; tauto.

(** C8: in a reachable ledger [grantAccess], called without value (the
    function is not payable), reverts, with [InvalidPrediction], exactly
    when the market does not exist.  Otherwise
    it records a grant for the caller on [totalStaked], on [totalBets] and on
    each [optionCounts[i]] with [i < optionCount], and on the caller's own
    bet's [choice] and [amount] exactly when that bet exists; it changes no
    market and no bet; a second call changes no permission. *)
Theorem grantAccess_grants this s m pid :
  reachable this s -> value m = 0 -> 0 <= pid ->
  (grantAccess m pid s = Revert InvalidPrediction <-> predictions_length s <= pid) /\
  (forall p, _predictions s !! Z.to_nat pid = Some p ->
     let a := sender m in
     let bet := bet_at s pid a in
     exists s',
       grantAccess m pid s = Ok tt s' /\
       _predictions s' = _predictions s /\ _bets s' = _bets s /\
       acl s' = acl s ++
                [(totalStaked p, a); (totalBets p, a)] ++
                ((fun c => (c, a)) <$> take (Z.to_nat (optionCount p)) (optionCounts p)) ++
                (if exists_ bet then [(choice bet, a); (amount bet, a)] else []) /\
       allowed s' (totalStaked p) a /\ allowed s' (totalBets p) a /\
       (forall i c, (i < Z.to_nat (optionCount p))%nat -> optionCounts p !! i = Some c ->
                    allowed s' c a) /\
       (exists_ bet = true -> allowed s' (choice bet) a /\ allowed s' (amount bet) a) /\
       exists s'',
         grantAccess m pid s' = Ok tt s'' /\
         _predictions s'' = _predictions s' /\ _bets s'' = _bets s' /\
         forall h b, allowed s'' h b <-> allowed s' h b).
Proof.
  intros Hr Hv Hpid.
  pose proof (reachable_wf _ _ Hr) as [Hwf _].
  assert (Hok : forall s0 p, _predictions s0 !! Z.to_nat pid = Some p -> wf_prediction p ->
    exists s', grantAccess m pid s0 = Ok tt s' /\
      _predictions s' = _predictions s0 /\ _bets s' = _bets s0 /\
      acl s' = acl s0 ++ access_grants p (bet_at s0 pid (sender m)) (sender m)).
  { intros s0 p Hp Hwfp.
    destruct (wp_elim _ _ _ (grantAccess_spec m pid s0 p Hv Hpid Hp (wf_prediction_counts _ Hwfp)))
      as ([] & s' & Hrun & HP & HB & _ & HA & _).
    by exists s'. }
  split.
  - split; [|by apply grantAccess_InvalidPrediction].
    intros Hrev. destruct (decide (predictions_length s <= pid)) as [|Hlt]; [done|].
    destruct (lookup_prediction_lt s pid) as [p Hp]; [lia|].
    destruct (Hok s p Hp (Hwf _ _ Hp)) as (s' & Hrun & _). congruence.
  - intros p Hp a bet.
    destruct (Hok s p Hp (Hwf _ _ Hp)) as (s' & Hrun & HP & HB & HA).
    assert (Hp' : _predictions s' !! Z.to_nat pid = Some p) by (by rewrite HP).
    destruct (Hok s' p Hp' (Hwf _ _ Hp)) as (s'' & Hrun' & HP' & HB' & HA').
    assert (Hbet : bet_at s' pid (sender m) = bet) by (unfold bet, bet_at; by rewrite HB).
    rewrite Hbet in HA'. fold a in HA, HA'. fold bet in HA.
    unfold access_grants in HA, HA'.
    exists s'. repeat split; try done.
    + unfold allowed. rewrite HA. in_list.
    + unfold allowed. rewrite HA. in_list.
    + intros i c Hi Hc. unfold allowed. rewrite HA.
      apply elem_of_app. right. apply elem_of_app. right. apply elem_of_app. left.
      apply list_elem_of_fmap. exists c. split; [done|].
      apply list_elem_of_lookup. exists i. rewrite lookup_take_lt by done. done.
    + unfold allowed. rewrite HA. destruct (exists_ bet); [|done]. in_list.
    + unfold allowed. rewrite HA. destruct (exists_ bet); [|done]. in_list.
    + exists s''. split; [done|]. split; [done|]. split; [done|].
      intros h b. unfold allowed. rewrite HA', HA. in_list.
Qed.

(** ** Unused counter slots *)

(** Markets are never removed and keep their number of options. *)
Lemma storage_step_persist s s' n p :
  storage_step s s' -> _predictions s !! n = Some p ->
  exists p', _predictions s' !! n = Some p' /\ optionCount p' = optionCount p.
Proof.
  intros [HP _ _ | m t o _ HP _ _ | m pid ec proof p0 _ Hp0 _ _ HP _ _] Hp; rewrite HP.
  - by exists p.
  - exists p. split; [|done]. by apply lookup_app_l_Some.
  - destruct (decide (Z.to_nat pid = n)) as [<- | Hne].
    + exists (bet_prediction m ec proof p0). split.
      * apply list_lookup_insert_eq. by eapply lookup_lt_Some.
      * rewrite Hp0 in Hp. by injection Hp as <-.
    + exists p. by rewrite list_lookup_insert_ne.
Qed.

Lemma slot_in_range_step s s' o :
  storage_step s s' -> slot_in_range s o -> slot_in_range s' o.
Proof.
  intros Hstep. destruct o; try done; cbn.
  all: intros (Hq & p & Hp & Hi); split; [done|].
  all: destruct (storage_step_persist s s' _ p Hstep Hp) as (p' & Hp' & Hk).
  all: exists p'; by rewrite Hk.
Qed.

Lemma Forall_flat_map_seq {A} (P : A -> Prop) (f : nat -> list A) n :
  (forall i, (i < n)%nat -> Forall P (f i)) -> Forall P (flat_map f (seq 0 n)).
Proof.
  intros H. induction n as [|n IH]; [constructor|].
  rewrite flat_map_seq_S. apply Forall_app. split; [apply IH | apply H]; auto with lia.
Qed.

Lemma transact_counter_accesses this m c s :
  wf_state s -> wf_msg m -> wf_call m c ->
  exists l,
    counter_accesses (trace (transact this m c s)) = counter_accesses (trace s) ++ l /\
    Forall (slot_in_range (transact this m c s)) l.
Proof.
  intros [Hwf _] (_ & Hval & _) Hc. unfold transact.
  assert (Hnil : exists l, counter_accesses (trace s) = counter_accesses (trace s) ++ l /\
                           Forall (slot_in_range s) l).
  { exists []. by rewrite app_nil_r. }
  destruct c as [t o | pid ec proof | pid]; cbn [run_call].
  - destruct (decide (2 <= length o <= 4)%nat) as [Hlen | Hlen].
    + destruct (wp_elim _ _ _ (createPrediction_spec this m t o s Hc Hlen))
        as (id & s' & Hrun & Hid & HP & HB & HE & HT).
      unfold bind. rewrite Hrun. cbn. eexists. split; [exact HT|].
      apply Forall_flat_map_seq. intros i Hi.
      assert (Hs : slot_in_range s' (CounterRead id i)).
      { cbn. subst id. unfold predictions_length. split; [lia|].
        exists (new_prediction m t o). rewrite HP, lookup_snoc. split; [done|].
        cbn. unfold to_uint8. rewrite Z.mod_small by lia. lia. }
      repeat (apply List.Forall_cons; [exact Hs|]). apply List.Forall_nil.
    + unfold bind. by rewrite (createPrediction_InvalidOptions _ _ _ _ _ Hc) by lia.
  - destruct Hc as [Hpid _].
    destruct (decide (predictions_length s <= pid)) as [Hge | Hlt].
    { by rewrite placeBet_InvalidPrediction by done. }
    destruct (decide (0 < value m <= UINT64_MAX)) as [Hv | Hv].
    2: { by rewrite placeBet_InvalidBetAmount by lia. }
    destruct (exists_ (bet_at s pid (sender m))) eqn:Hb.
    { by rewrite placeBet_BetAlreadyPlaced by (done || lia). }
    destruct (proof_valid proof) eqn:Hpr.
    2: { by rewrite placeBet_InvalidProof by (done || lia). }
    destruct (lookup_prediction_lt s pid) as [p Hp]; [lia|].
    destruct (wp_elim _ _ _ (placeBet_spec this m pid ec proof s p (proj1 Hpid) Hp
                (wf_prediction_counts _ (Hwf _ _ Hp)) Hv Hb Hpr))
      as ([] & s' & Hrun & HP & HB & HE & HT).
    rewrite Hrun. eexists. split; [exact HT|].
    apply Forall_flat_map_seq. intros i Hi.
    assert (Hs : slot_in_range s' (CounterRead pid i)).
    { cbn. split; [lia|]. exists (bet_prediction m ec proof p). split; [|done].
      rewrite HP. apply list_lookup_insert_eq. by eapply lookup_lt_Some. }
    repeat (apply List.Forall_cons; [exact Hs|]). apply List.Forall_nil.
  - destruct Hc as [Hv0 Hpid].
    destruct (decide (predictions_length s <= pid)) as [Hge | Hlt].
    { by rewrite (grantAccess_InvalidPrediction _ _ _ Hv0) by done. }
    destruct (lookup_prediction_lt s pid) as [p Hp]; [lia|].
    destruct (wp_elim _ _ _ (grantAccess_spec m pid s p Hv0 (proj1 Hpid) Hp
                (wf_prediction_counts _ (Hwf _ _ Hp))))
      as ([] & s' & Hrun & HP & HB & HE & _ & HT).
    rewrite Hrun. eexists. split; [exact HT|].
    apply Forall_flat_map_seq. intros i Hi.
    apply List.Forall_cons; [|apply List.Forall_nil]. cbn. split; [lia|]. exists p. by rewrite HP.
Qed.

Lemma reachable_slots this s :
  reachable this s -> Forall (slot_in_range s) (counter_accesses (trace s)).
Proof.
  induction 1 as [| m c s Hr IH Hm Hc]; [constructor|].
  pose proof (reachable_wf _ _ Hr) as Hwf.
  destruct (transact_counter_accesses this m c s Hwf Hm Hc) as (l & -> & Hl).
  apply Forall_app. split; [|exact Hl].
  eapply Forall_impl; [exact IH|]. intros o.
  by apply slot_in_range_step, transact_storage_step.
Qed.

Lemma counter_access_logged o l :
  o ∈ l -> counter_access o = Some o -> o ∈ counter_accesses l.
Proof.
  intros Hin Ho. unfold counter_accesses. apply list_elem_of_omap. by exists o.
Qed.

(** C6: in every reachable ledger the four-slot array of a market keeps the
    zero handle (plaintext-equivalent 0) in each slot at or beyond
    [optionCount]; no transaction has read or written such a slot; and
    [getOptionCounts] returns exactly the first [optionCount] counters,
    reading only those. *)
Theorem unused_slots this s pid p :
  reachable this s -> 0 <= pid -> _predictions s !! Z.to_nat pid = Some p ->
  let k := Z.to_nat (optionCount p) in
  length (optionCounts p) = 4%nat /\
  (forall i, (k <= i < 4)%nat -> optionCounts p !! i = Some HNull /\ denote HNull = 0) /\
  (forall i, CounterRead pid i ∈ trace s \/ CounterWrite pid i ∈ trace s -> (i < k)%nat) /\
  exists s',
    getOptionCounts pid s = Ok (take k (optionCounts p)) s' /\
    length (take k (optionCounts p)) = k /\
    trace s' = trace s ++ (CounterRead pid <$> seq 0 k).
Proof.
  intros Hr Hpid Hp k.
  destruct (reachable_wf_prediction _ _ _ _ Hr Hp) as (Hl & Hk & Hz).
  split; [done|]. split; [by auto|]. split.
  - intros i Hi.
    assert (Hs : slot_in_range s (CounterRead pid i)).
    { pose proof (reachable_slots _ _ Hr) as HF. rewrite Forall_forall in HF.
      destruct Hi as [Hi | Hi].
      - by apply HF, counter_access_logged.
      - by apply (HF (CounterWrite pid i)), counter_access_logged. }
    destruct Hs as (_ & p' & Hp' & Hi'). rewrite Hp in Hp'. by injection Hp' as <-.
  - destruct (wp_elim _ _ _ (getOptionCounts_spec pid s p Hpid Hp ltac:(lia)))
      as (counts & s' & Hrun & -> & _ & _ & _ & _ & HT).
    exists s'. split; [done|]. split; [|done].
    rewrite length_take. fold k. lia.
Qed.

(** ** Executions and accepted bets *)

Lemma run_reachable this calls s :
  reachable this s -> Forall wf_tx calls -> reachable this (run this calls s).
Proof.
  revert s. induction calls as [|[m c] calls IH]; intros s Hr Hwf; [done|].
  apply Forall_cons in Hwf as [[Hm Hc] Hwf]. cbn. apply IH; [|done].
  by apply reachable_step.
Qed.

Lemma run_app this calls1 calls2 s :
  run this (calls1 ++ calls2) s = run this calls2 (run this calls1 s).
Proof.
  revert s. induction calls1 as [|[m c] calls1 IH]; intros s; [done|]. cbn. apply IH.
Qed.

(** The reachable ledgers are those an execution from the initial ledger
    ends in. *)
Lemma reachable_run this s :
  reachable this s <-> exists calls, Forall wf_tx calls /\ s = run this calls init_State.
Proof.
  split.
  - induction 1 as [| m c s _ (calls & Hwf & ->) Hm Hc].
    + by exists [].
    + exists (calls ++ [(m, c)]). split.
      * apply Forall_app. split; [done|]. by apply List.Forall_cons.
      * by rewrite run_app.
  - intros (calls & Hwf & ->). apply run_reachable; [apply reachable_init | done].
Qed.

(** What a transaction does to one market. *)
Lemma transact_market this m c pid p s :
  wf_state s -> wf_msg m -> wf_call m c -> 0 <= pid ->
  _predictions s !! Z.to_nat pid = Some p ->
  let s' := transact this m c s in
  if accepts this m c pid s then
    exists ec proof,
      c = PlaceBet pid ec proof /\ 0 < value m <= UINT64_MAX /\
      exists_ (bet_at s pid (sender m)) = false /\
      _predictions s' !! Z.to_nat pid = Some (bet_prediction m ec proof p) /\
      _bets s' = <[(pid, sender m) := mkBet (bet_choice ec proof) (bet_amount m) true]> (_bets s) /\
      accepted_amounts pid s' = accepted_amounts pid s ++ [value m]
  else
    _predictions s' !! Z.to_nat pid = Some p /\
    accepted_amounts pid s' = accepted_amounts pid s.
Proof.
  intros Hwf Hm Hc Hpid Hp s'.
  pose proof (lookup_lt_Some _ _ _ Hp) as Hn.
  assert (Hother : forall q ec proof u s1,
    placeBet this m q ec proof s = Ok u s1 -> 0 <= q -> q <> pid ->
    _predictions s1 !! Z.to_nat pid = Some p /\
    accepted_amounts pid s1 = accepted_amounts pid s).
  { intros q ec proof u s1 Hrun Hq Hne.
    destruct (placeBet_Ok_inv _ _ _ _ _ _ _ _ Hwf Hm Hq Hrun)
      as (p0 & _ & _ & _ & _ & HP & _ & HE & _).
    split.
    - rewrite HP, list_lookup_insert_ne; [done | lia].
    - rewrite (accepted_amounts_snoc _ _ _ _ HE). cbn.
      destruct (Z.eqb_spec q pid); [done | by rewrite app_nil_r]. }
  destruct c as [t o | q ec proof | q]; cbn [accepts].
  - subst s'. unfold transact. cbn [run_call]. unfold bind.
    destruct (createPrediction this m t o s) as [id s1|] eqn:Hrun; [|done].
    destruct (decide (2 <= length o <= 4)%nat) as [Hlen | Hlen].
    2: { rewrite (createPrediction_InvalidOptions _ _ _ _ _ Hc) in Hrun by lia. discriminate. }
    destruct (wp_elim _ _ _ (createPrediction_spec this m t o s Hc Hlen))
      as (id' & s2 & Hrun' & _ & HP & _ & HE & _).
    rewrite Hrun' in Hrun. inversion Hrun; subst. cbn. split.
    + rewrite HP. by apply lookup_app_l_Some.
    + rewrite (accepted_amounts_snoc _ _ _ _ HE). cbn. by rewrite app_nil_r.
  - destruct Hc as [Hq _]. subst s'. unfold transact. cbn [run_call].
    destruct (placeBet this m q ec proof s) as [u s1|] eqn:Hrun.
    + destruct (Z.eqb_spec q pid) as [-> | Hne]; cbn [andb].
      * destruct (placeBet_Ok_inv _ _ _ _ _ _ _ _ Hwf Hm Hpid Hrun)
          as (p0 & Hp0 & Hv & Hb & _ & HP & HB & HE & _).
        rewrite Hp in Hp0. injection Hp0 as <-.
        exists ec, proof. repeat split; try done; try lia.
        -- rewrite HP. by apply list_lookup_insert_eq.
        -- rewrite (accepted_amounts_snoc _ _ _ _ HE). cbn. rewrite Z.eqb_refl.
           unfold to_uint64, UINT64_MAX in *. by rewrite Z.mod_small by lia.
      * eapply Hother; [exact Hrun | lia | done].
    + by rewrite andb_false_r.
  - subst s'. unfold transact. cbn [run_call].
    destruct (grantAccess m q s) as [u s1|] eqn:Hrun; [|done].
    destruct Hc as [Hv0 Hq].
    destruct (decide (predictions_length s <= q)) as [Hge | Hlt].
    { rewrite (grantAccess_InvalidPrediction _ _ _ Hv0) in Hrun by done. discriminate. }
    destruct (lookup_prediction_lt s q) as [p0 Hp0]; [lia|].
    destruct (wp_elim _ _ _ (grantAccess_spec m q s p0 Hv0 (proj1 Hq) Hp0
                (wf_prediction_counts _ (proj1 Hwf _ _ Hp0))))
      as ([] & s2 & Hrun' & HP & _ & HE & _).
    rewrite Hrun' in Hrun. inversion Hrun; subst. split.
    + by rewrite HP.
    + unfold accepted_amounts. by rewrite HE.
Qed.

(** Before a market exists no call is an accepted bet on it, and it has no
    [BetPlaced] record. *)
Lemma transact_no_market this m c pid s :
  wf_state s -> wf_msg m -> wf_call m c ->
  predictions_length s <= pid ->
  accepts this m c pid s = false /\
  accepted_amounts pid (transact this m c s) = accepted_amounts pid s.
Proof.
  intros Hwf Hm Hc Hge.
  assert (Hacc : accepts this m c pid s = false).
  { destruct c as [| q ec proof |]; try done. cbn [accepts].
    destruct (Z.eqb_spec q pid) as [-> | Hne]; [|done].
    by rewrite placeBet_InvalidPrediction. }
  split; [done|].
  destruct (transact_storage_step this m c s Hwf Hm Hc)
    as [_ _ HE | m' t o _ _ _ HE | m' q ec proof p0 Hq Hp0 _ _ _ _ HE].
  - unfold accepted_amounts. by rewrite HE.
  - rewrite (accepted_amounts_snoc _ _ _ _ HE). cbn. by rewrite app_nil_r.
  - rewrite (accepted_amounts_snoc _ _ _ _ HE). cbn.
    pose proof (lookup_lt_Some _ _ _ Hp0) as Hlt. unfold predictions_length in Hge.
    destruct (Z.eqb_spec q pid); [lia | by rewrite app_nil_r].
Qed.

(** The event log records exactly the accepted bets of an execution. *)
Lemma accepted_amounts_run this pid calls s :
  reachable this s -> Forall wf_tx calls -> 0 <= pid ->
  accepted_amounts pid (run this calls s) =
  accepted_amounts pid s ++ accepted_stakes this pid calls s.
Proof.
  revert s. induction calls as [|[m c] calls IH]; intros s Hr Hwf Hpid.
  { cbn. by rewrite app_nil_r. }
  apply Forall_cons in Hwf as [[Hm Hc] Hwf]. cbn in Hm, Hc. cbn [run accepted_stakes].
  rewrite IH by (done || by apply reachable_step).
  pose proof (reachable_wf _ _ Hr) as Hwfs.
  rewrite app_assoc. f_equal.
  destruct (decide (predictions_length s <= pid)) as [Hge | Hlt].
  - destruct (transact_no_market this m c pid s Hwfs Hm Hc Hge) as [-> ->].
    by rewrite app_nil_r.
  - destruct (lookup_prediction_lt s pid) as [p Hp]; [lia|].
    pose proof (transact_market this m c pid p s Hwfs Hm Hc Hpid Hp) as H. cbn zeta in H.
    destruct (accepts this m c pid s).
    + by destruct H as (ec & proof & _ & _ & _ & _ & _ & ->).
    + destruct H as [_ ->]. by rewrite app_nil_r.
Qed.

(** ** Totals *)

(** C4 (as amended): after any execution, with [a1..aN] the stakes of the
    bets accepted on a market, [totalBets] decrypts to [N mod 2^32] (so to
    exactly [N] while [N < 2^32]) and [totalStaked] to
    [(a1 + ... + aN) mod 2^64]. *)
Theorem totals_after_bets this calls pid p :
  Forall wf_tx calls -> 0 <= pid ->
  _predictions (run this calls init_State) !! Z.to_nat pid = Some p ->
  let amounts := accepted_stakes this pid calls init_State in
  let N := Z.of_nat (length amounts) in
  denote (totalBets p) = N mod 2 ^ 32 /\
  denote (totalStaked p) = sumZ amounts mod 2 ^ 64 /\
  (N < 2 ^ 32 -> denote (totalBets p) = N).
Proof.
  intros Hwf Hpid Hp amounts N.
  pose proof (run_reachable this calls init_State (reachable_init this) Hwf) as Hr.
  destruct (reachable_inv _ _ Hr) as [_ Hinv].
  destruct (Hinv pid p Hpid Hp) as (Htb & Hts & _).
  rewrite (accepted_amounts_run this pid calls init_State (reachable_init this) Hwf Hpid) in Htb, Hts.
  cbn [accepted_amounts events init_State omap list_omap app] in Htb, Hts.
  fold amounts in Htb, Hts. fold N in Htb.
  split; [done|]. split; [done|].
  intros HN. rewrite Htb. apply Z.mod_small. lia.
Qed.

(** C5 (as amended): across any transaction from a reachable ledger, a
    market's [totalStaked] and [totalBets] are untouched unless the
    transaction is an accepted bet on that market; an accepted bet with stake
    [a] sets [totalStaked] to [(old + a) mod 2^64] and [totalBets] to
    [(old + 1) mod 2^32].  Hence both are non-decreasing, and [totalBets]
    grows by exactly one, as long as the additions do not wrap. *)
Theorem totals_step this s m c pid p :
  reachable this s -> wf_msg m -> wf_call m c -> 0 <= pid ->
  _predictions s !! Z.to_nat pid = Some p ->
  exists p',
    _predictions (transact this m c s) !! Z.to_nat pid = Some p' /\
    let ts := denote (totalStaked p) in
    let ts' := denote (totalStaked p') in
    let tb := denote (totalBets p) in
    let tb' := denote (totalBets p') in
    if accepts this m c pid s then
      ts' = (ts + value m) mod 2 ^ 64 /\
      tb' = (tb + 1) mod 2 ^ 32 /\
      (ts + value m < 2 ^ 64 -> ts <= ts') /\
      (tb + 1 < 2 ^ 32 -> tb' = tb + 1)
    else
      totalStaked p' = totalStaked p /\ totalBets p' = totalBets p.
Proof.
  intros Hr Hm Hc Hpid Hp.
  pose proof (transact_market this m c pid p s (reachable_wf _ _ Hr) Hm Hc Hpid Hp) as H.
  cbn zeta in H. destruct (accepts this m c pid s).
  - destruct H as (ec & proof & _ & Hv & _ & Hp' & _ & _).
    exists (bet_prediction m ec proof p). split; [done|]. cbn zeta.
    rewrite denote_bet_totalBets, denote_bet_totalStaked by done.
    pose proof (denote_nonneg (totalStaked p)). pose proof (denote_nonneg (totalBets p)).
    repeat split; try done.
    + intros Hlt. rewrite Z.mod_small by lia. lia.
    + intros Hlt. rewrite Z.mod_small by lia. lia.
  - destruct H as [Hp' _]. by exists p.
Qed.

(** ** Counters *)

(** C1 (as amended): after any execution, for a market all of whose
    recorded bets chose one of its options, the sum of the decrypted
    [optionCounts[0..optionCount)] is congruent modulo 2^32 to the decrypted
    [totalBets], and equal to it while fewer than 2^32 bets were accepted. *)
Theorem counts_sum_totalBets this calls pid p :
  Forall wf_tx calls -> 0 <= pid ->
  let s := run this calls init_State in
  _predictions s !! Z.to_nat pid = Some p ->
  choices_in_range s pid p ->
  sum_counts p mod 2 ^ 32 = denote (totalBets p) /\
  (Z.of_nat (length (accepted_stakes this pid calls init_State)) < 2 ^ 32 ->
   sum_counts p = denote (totalBets p)).
Proof.
  intros Hwf Hpid s Hp Hrange.
  pose proof (run_reachable this calls init_State (reachable_init this) Hwf) as Hr.
  destruct (reachable_inv _ _ Hr) as [_ Hinv].
  destruct (Hinv pid p Hpid Hp) as (Htb & _ & Hmod & Hex).
  rewrite (accepted_amounts_run this pid calls init_State (reachable_init this) Hwf Hpid)
    in Htb, Hmod, Hex.
  cbn [accepted_amounts events init_State omap list_omap app] in Htb, Hmod, Hex.
  split.
  - rewrite Htb. by apply Hmod.
  - intros HN. destruct (Hex HN) as [_ Heq]. rewrite (Heq Hrange), Htb.
    symmetry. apply Z.mod_small. lia.
Qed.

(** ** Obliviousness *)

Lemma commutes_ret {A} `{Erase A} (a : A) : commutes (ret a) (ret (erase a)).
Proof. done. Qed.

Lemma commutes_revert {A} `{Erase A} e : commutes (revert e : M A) (revert e).
Proof. done. Qed.

Lemma commutes_bind {A B} `{Erase A} `{Erase B} (m m' : M A) (f f' : A -> M B) :
  commutes m m' -> (forall a, commutes (f a) (f' (erase a))) ->
  commutes (bind m f) (bind m' f').
Proof.
  intros Hm Hf s. unfold bind. rewrite <- (Hm s).
  destruct (m s) as [a s1|e]; cbn; [apply Hf | done].
Qed.

Lemma commutes_get : commutes get get.
Proof. done. Qed.

Ltac erase_unfold :=
  unfold erase, Erase_State, Erase_unit, Erase_Bet, Erase_Prediction, Erase_grant,
    Erase_inputProof, Erase_handle, Erase_obs in *;
  cbn [_predictions _bets acl trace events fst snd
       title options optionCount createdAt creator totalStaked totalBets optionCounts
       choice amount exists_ proof_valid proof_plain erase_handle] in *.

Lemma erase_mkState P B A T E :
  erase (mkState P B A T E) =
  mkState (erase <$> P) (erase <$> B) (erase <$> A) (erase <$> T) E.
Proof. reflexivity. Qed.

Lemma commutes_observe o : commutes (observe o) (observe (erase o)).
Proof.
  intros s. unfold observe, modify, erase_result. erase_unfold. by rewrite fmap_app.
Qed.

Lemma commutes_nonpayable m : commutes (nonpayable m) (nonpayable m).
Proof. intros s. unfold nonpayable. by destruct (value m =? 0). Qed.

Lemma commutes_emit e : commutes (emit e) (emit e).
Proof. done. Qed.

Lemma commutes_FHE_asEuint t v : commutes (FHE_asEuint t v) (FHE_asEuint t v).
Proof.
  unfold FHE_asEuint. apply commutes_bind; [exact (commutes_observe (OpTrivialEncrypt t v (HTrivial t v)))|].
  intros []. exact (commutes_ret (HTrivial t v)).
Qed.

Lemma isInitialized_erase h : isInitialized (erase h) = isInitialized h.
Proof. by destruct h. Qed.

Lemma commutes_initialized t h : commutes (initialized t h) (initialized t (erase h)).
Proof.
  unfold initialized. rewrite isInitialized_erase.
  destruct (isInitialized h); [apply commutes_ret | apply commutes_FHE_asEuint].
Qed.

Lemma commutes_FHE_add t a b : commutes (FHE_add t a b) (FHE_add t (erase a) (erase b)).
Proof.
  unfold FHE_add.
  apply commutes_bind; [apply commutes_initialized | intros a'].
  apply commutes_bind; [apply commutes_initialized | intros b'].
  apply commutes_bind; [exact (commutes_observe (OpAdd a' b' (HAdd t a' b'))) | intros []].
  exact (commutes_ret (HAdd t a' b')).
Qed.

Lemma commutes_FHE_eq t a b : commutes (FHE_eq t a b) (FHE_eq t (erase a) (erase b)).
Proof.
  unfold FHE_eq.
  apply commutes_bind; [apply commutes_initialized | intros a'].
  apply commutes_bind; [apply commutes_initialized | intros b'].
  apply commutes_bind; [exact (commutes_observe (OpEq a' b' (HEq a' b'))) | intros []].
  exact (commutes_ret (HEq a' b')).
Qed.

Lemma commutes_FHE_select c a b :
  commutes (FHE_select c a b) (FHE_select (erase c) (erase a) (erase b)).
Proof.
  unfold FHE_select.
  apply commutes_bind; [exact (commutes_observe (OpSelect c a b (HSelect c a b))) | intros []].
  exact (commutes_ret (HSelect c a b)).
Qed.

Lemma commutes_FHE_fromExternal ext proof :
  commutes (FHE_fromExternal ext proof) (FHE_fromExternal ext (erase proof)).
Proof.
  unfold FHE_fromExternal. erase_unfold. destruct (proof_valid proof); [|done].
  apply commutes_bind; [exact (commutes_observe (OpVerifyInput EUint8 ext (HInput EUint8 ext (proof_plain proof)))) | intros []].
  exact (commutes_ret (HInput EUint8 ext (proof_plain proof))).
Qed.

Lemma commutes_FHE_allow h a : commutes (FHE_allow h a) (FHE_allow (erase h) a).
Proof.
  intros s. unfold FHE_allow, modify, erase_result. erase_unfold. by rewrite fmap_app.
Qed.

Lemma predictions_length_erase (s : State) : predictions_length (erase s) = predictions_length s.
Proof. unfold predictions_length. erase_unfold. by rewrite length_fmap. Qed.

Lemma commutes_load_prediction pid : commutes (load_prediction pid) (load_prediction pid).
Proof.
  intros s. unfold load_prediction, erase_result. erase_unfold.
  rewrite list_lookup_fmap. by destruct (_predictions s !! Z.to_nat pid).
Qed.

Lemma commutes_store_prediction pid (f f' : Prediction -> Prediction) :
  (forall p, erase (f p) = f' (erase p)) ->
  commutes (store_prediction pid f) (store_prediction pid f').
Proof.
  intros Hf [P B A T E]. unfold store_prediction, erase_result.
  cbn [erase Erase_State _predictions _bets acl trace events].
  rewrite list_lookup_fmap. destruct (P !! Z.to_nat pid) as [p|]; [|done].
  cbn [fmap option_fmap option_map _predictions _bets acl trace events].
  by rewrite erase_mkState, list_fmap_insert, <- Hf.
Qed.

Lemma commutes_push_prediction : commutes push_prediction push_prediction.
Proof.
  intros s. unfold push_prediction, modify, erase_result. erase_unfold. by rewrite fmap_app.
Qed.

Lemma commutes_read_count pid i : commutes (read_count pid i) (read_count pid i).
Proof.
  unfold read_count. apply commutes_bind; [apply commutes_load_prediction | intros p].
  assert (Hl : optionCounts (erase p) !! i = erase <$> optionCounts p !! i).
  { erase_unfold. by rewrite list_lookup_fmap. }
  rewrite Hl. destruct (optionCounts p !! i) as [h|]; [|done].
  cbn [fmap option_fmap option_map].
  apply commutes_bind; [exact (commutes_observe (CounterRead pid i)) | intros []].
  apply commutes_ret.
Qed.

Lemma commutes_write_count pid i h :
  commutes (write_count pid i h) (write_count pid i (erase h)).
Proof.
  unfold write_count. apply commutes_bind; [apply commutes_load_prediction | intros p].
  assert (Hl : optionCounts (erase p) !! i = erase <$> optionCounts p !! i).
  { erase_unfold. by rewrite list_lookup_fmap. }
  rewrite Hl. destruct (optionCounts p !! i) as [h0|]; [|done].
  cbn [fmap option_fmap option_map].
  apply commutes_bind; [| intros []; exact (commutes_observe (CounterWrite pid i))].
  apply commutes_store_prediction. intros q. unfold set_optionCounts. erase_unfold.
  by rewrite list_fmap_insert.
Qed.

Lemma bet_at_erase (s : State) pid user : bet_at (erase s) pid user = erase (bet_at s pid user).
Proof.
  unfold bet_at. unfold erase at 1, Erase_State. cbn [_bets].
  rewrite lookup_fmap. by destruct (_bets s !! (pid, user)).
Qed.

Lemma commutes_load_bet pid user : commutes (load_bet pid user) (load_bet pid user).
Proof. intros s. unfold load_bet, erase_result. by rewrite bet_at_erase. Qed.

Lemma commutes_store_bet pid user (f f' : Bet -> Bet) :
  (forall b, erase (f b) = f' (erase b)) ->
  commutes (store_bet pid user f) (store_bet pid user f').
Proof.
  intros Hf s. unfold store_bet, modify, erase_result.
  rewrite bet_at_erase, <- Hf. destruct s as [P B A T E].
  cbn [erase Erase_State _predictions _bets acl trace events].
  by rewrite erase_mkState, fmap_insert.
Qed.

Lemma commutes_for_loop n start (body body' : nat -> M unit) :
  (forall i, commutes (body i) (body' i)) ->
  commutes (for_loop n start body) (for_loop n start body').
Proof.
  intros Hb. revert start. induction n as [|n IH]; intros start; cbn.
  - exact (commutes_ret tt).
  - apply commutes_bind; [apply Hb | intros []; apply IH].
Qed.

Ltac comm :=
  cbv beta;
  lazymatch goal with
  | |- commutes (bind _ _) _ => apply commutes_bind; [comm | intros ?]
  | |- commutes (ret ?a) _ => exact (commutes_ret a)
  | |- commutes get _ => exact commutes_get
  | |- commutes (revert ?e) _ => exact (commutes_revert e)
  | |- commutes (emit ?e) _ => exact (commutes_emit e)
  | |- commutes (nonpayable ?m) _ => exact (commutes_nonpayable m)
  | |- commutes (FHE_asEuint ?t ?v) _ => exact (commutes_FHE_asEuint t v)
  | |- commutes (FHE_add ?t ?a ?b) _ => exact (commutes_FHE_add t a b)
  | |- commutes (FHE_eq ?t ?a ?b) _ => exact (commutes_FHE_eq t a b)
  | |- commutes (FHE_select ?c ?a ?b) _ => exact (commutes_FHE_select c a b)
  | |- commutes (FHE_fromExternal ?e ?p) _ => exact (commutes_FHE_fromExternal e p)
  | |- commutes (FHE_allow ?h ?a) _ => exact (commutes_FHE_allow h a)
  | |- commutes (FHE_allowThis ?t ?h) _ => exact (commutes_FHE_allow h t)
  | |- commutes (load_prediction ?p) _ => exact (commutes_load_prediction p)
  | |- commutes (store_prediction ?p ?f) _ =>
      apply commutes_store_prediction; intros ?; reflexivity
  | |- commutes (read_count ?p ?i) _ => exact (commutes_read_count p i)
  | |- commutes (write_count ?p ?i ?h) _ => exact (commutes_write_count p i h)
  | |- commutes (load_bet ?p ?u) _ => exact (commutes_load_bet p u)
  | |- commutes (store_bet ?p ?u ?f) _ => apply commutes_store_bet; intros ?; reflexivity
  | |- commutes (for_loop _ _ _) _ => apply commutes_for_loop; intros ?
  end.

Ltac comm_exists :=
  lazymatch goal with
  | |- context [exists_ (erase ?b)] =>
      change (exists_ (erase b)) with (exists_ b); destruct (exists_ b)
  end.

Lemma placeBet_commutes this m pid ec proof :
  commutes (placeBet this m pid ec proof) (placeBet this m pid ec (erase proof)).
Proof.
  unfold placeBet. comm. rewrite predictions_length_erase.
  destruct (pid >=? predictions_length _); [comm|].
  destruct ((value m =? 0) || (value m >? UINT64_MAX)); [comm|].
  comm. comm_exists; [comm|].
  repeat comm.
Qed.

Lemma grantAccess_commutes m pid : commutes (grantAccess m pid) (grantAccess m pid).
Proof.
  unfold grantAccess. comm. comm. rewrite predictions_length_erase.
  destruct (pid >=? predictions_length _); [comm|].
  repeat comm. comm_exists; repeat comm.
Qed.

(** C2: an accepted [placeBet] replaces, for every option index [i] below
    [optionCount], the counter [c] of slot [i] by the encrypted sum of [c]
    and the encrypted selection between 1 and 0 on the encrypted equality
    of the choice with [i]; it accesses the counter slots 0, 1, ..., in this
    order, each by read, write, read, read.  Nothing public depends on the
    secret: from two ledgers with the same public view, and two inputs that
    differ only in the secret choice, [placeBet] gives the same outcome and
    the same public view of the resulting ledger, which includes the log of
    homomorphic operations and counter accesses, the permission records and
    the stored handles. *)
Theorem placeBet_oblivious this m pid ec proof1 proof2 s1 s2 :
  erase s1 = erase s2 ->
  proof_valid proof1 = proof_valid proof2 ->
  erase_result (placeBet this m pid ec proof1 s1) =
  erase_result (placeBet this m pid ec proof2 s2) /\
  (forall p s1',
     wf_state s1 -> wf_msg m -> 0 <= pid ->
     _predictions s1 !! Z.to_nat pid = Some p ->
     placeBet this m pid ec proof1 s1 = Ok tt s1' ->
     exists p',
       _predictions s1' !! Z.to_nat pid = Some p' /\
       (forall i c, (i < Z.to_nat (optionCount p))%nat -> optionCounts p !! i = Some c ->
          optionCounts p' !! i =
          Some (HAdd EUint32 (init EUint32 c)
                  (HSelect (HEq (HInput EUint8 ec (proof_plain proof1))
                                (HTrivial EUint8 (Z.of_nat i)))
                           (HTrivial EUint32 1) (HTrivial EUint32 0)))) /\
       counter_accesses (trace s1') =
         counter_accesses (trace s1) ++
         flat_map (fun i => [CounterRead pid i; CounterWrite pid i;
                             CounterRead pid i; CounterRead pid i])
                  (seq 0 (Z.to_nat (optionCount p)))).
Proof.
  intros Hs Hv. split.
  - rewrite (placeBet_commutes this m pid ec proof1 s1).
    rewrite (placeBet_commutes this m pid ec proof2 s2).
    rewrite Hs. f_equal. unfold erase, Erase_inputProof. by rewrite Hv.
  - intros p s1' Hwf Hm Hpid Hp Hrun.
    destruct (placeBet_Ok_inv _ _ _ _ _ _ _ _ Hwf Hm Hpid Hrun)
      as (p0 & Hp0 & _ & _ & _ & HP & _ & _ & HT).
    rewrite Hp in Hp0. injection Hp0 as <-.
    exists (bet_prediction m ec proof1 p). split; [|split; [|exact HT]].
    + rewrite HP. apply list_lookup_insert_eq. by eapply lookup_lt_Some.
    + intros i c Hi Hc. cbn [bet_prediction optionCounts].
      rewrite bump_counts_lookup, Hc. cbn [fmap option_fmap option_map].
      by destruct (Nat.ltb_spec i (Z.to_nat (optionCount p))); [|lia].
Qed.

(** ** Concrete executions: where the claims as stated fail *)

Ltac wf_tx_solve :=
  repeat (apply List.Forall_cons || apply List.Forall_nil);
  unfold wf_tx, wf_msg, wf_call, ADDRESS_MOD, UINT256_MOD, UINT64_MAX; cbn [fst snd sender value timestamp];
  repeat split; first [reflexivity | (vm_compute; congruence)].

(** C1, as stated, fails: a two-option market and one accepted bet whose
    encrypted choice decrypts to 5.  [totalBets] decrypts to 1 and both
    counters to 0. *)
Lemma counts_sum_out_of_range :
  let calls := [ex_create; (mkMsg 22 7 101, PlaceBet 0 1 (mkProof true 5))] in
  Forall wf_tx calls /\
  exists p,
    _predictions (run ex_this calls init_State) !! 0%nat = Some p /\
    sum_counts p = 0 /\ denote (totalBets p) = 1 /\
    sum_counts p <> denote (totalBets p).
Proof.
  split; [wf_tx_solve|].
  eexists. split; [vm_compute; reflexivity|].
  repeat split; vm_compute; congruence.
Qed.

(** C5, as stated, fails: after a bet of 2^64-1 a bet of 1 makes
    [totalStaked] wrap from 2^64-1 to 0. *)
Lemma totalStaked_wraps :
  let calls := [ex_create; (mkMsg 11 (2 ^ 64 - 1) 101, PlaceBet 0 1 (mkProof true 0))] in
  let s := run ex_this calls init_State in
  let m := mkMsg 22 1 102 in
  let c := PlaceBet 0 2 (mkProof true 1) in
  reachable ex_this s /\ wf_msg m /\ wf_call m c /\
  exists p p',
    _predictions s !! 0%nat = Some p /\
    _predictions (transact ex_this m c s) !! 0%nat = Some p' /\
    denote (totalStaked p) = 2 ^ 64 - 1 /\
    denote (totalStaked p') = 0 /\
    denote (totalStaked p') < denote (totalStaked p).
Proof.
  cbn zeta. split.
  { apply run_reachable; [apply reachable_init | wf_tx_solve]. }
  split; [wf_tx_solve|]. split; [wf_tx_solve|].
  eexists. eexists. split; [vm_compute; reflexivity|].
  split; [vm_compute; reflexivity|].
  repeat split; vm_compute; congruence.
Qed.

Lemma bet_calls_wf start n :
  Z.of_nat (start + n) <= ADDRESS_MOD -> Forall wf_tx (bet_calls start n).
Proof.
  intros Hn. unfold bet_calls. apply Forall_fmap, Forall_forall. intros j Hj.
  apply elem_of_seq in Hj. unfold wf_tx, wf_msg, wf_call, UINT256_MOD. cbn.
  assert (0 < 2 ^ 256) by (apply Z.pow_pos_nonneg; lia).
  repeat split; lia.
Qed.

Lemma bet_calls_accepted this start n s :
  wf_state s -> 0 < predictions_length s ->
  Z.of_nat (start + n) <= ADDRESS_MOD ->
  (forall a, Z.of_nat start <= a -> _bets s !! (0, a) = None) ->
  length (accepted_stakes this 0 (bet_calls start n) s) = n.
Proof.
  revert start s. induction n as [|n IH]; intros start s Hwf Hlen Hn Hfresh; [done|].
  unfold bet_calls. cbn [seq fmap list_fmap accepted_stakes].
  fold (bet_calls (S start) n).
  set (m := mkMsg (Z.of_nat start) 1 0).
  set (c := PlaceBet 0 0 (mkProof true 0)).
  assert (Hm : wf_msg m).
  { unfold wf_msg, UINT256_MOD. cbn.
    assert (0 < 2 ^ 256) by (apply Z.pow_pos_nonneg; lia). repeat split; lia. }
  assert (Hc : wf_call m c).
  { unfold wf_call, UINT256_MOD. cbn.
    assert (0 < 2 ^ 256) by (apply Z.pow_pos_nonneg; lia). repeat split; lia. }
  destruct (lookup_prediction_lt s 0) as [p Hp]; [lia|].
  assert (Hb : exists_ (bet_at s 0 (sender m)) = false).
  { unfold bet_at. cbn [sender m]. by rewrite Hfresh by lia. }
  destruct (wp_elim _ _ _ (placeBet_spec this m 0 0 (mkProof true 0) s p ltac:(lia) Hp
              (wf_prediction_counts _ (proj1 Hwf _ _ Hp))
              ltac:(unfold UINT64_MAX; cbn; lia) Hb eq_refl))
    as ([] & s' & Hrun & HP & HB & _).
  assert (Hacc : accepts this m c 0 s = true).
  { unfold c. cbn [accepts]. by rewrite Hrun. }
  assert (Hs' : transact this m c s = s').
  { unfold transact, c. cbn [run_call]. by rewrite Hrun. }
  rewrite Hacc, Hs'. cbn [app length]. f_equal.
  apply IH.
  - rewrite <- Hs'. eapply storage_step_wf; [by apply transact_storage_step | done].
  - unfold predictions_length in *. rewrite HP, length_insert. lia.
  - lia.
  - intros a Ha. rewrite HB. rewrite lookup_insert_ne.
    + apply Hfresh. lia.
    + cbn [sender m]. intros [=]. lia.
Qed.

(** The totals of a market after an execution (the invariant, read on the
    stakes of the accepted bets). *)
Lemma run_totals this calls pid p :
  Forall wf_tx calls -> 0 <= pid ->
  _predictions (run this calls init_State) !! Z.to_nat pid = Some p ->
  denote (totalBets p) =
    Z.of_nat (length (accepted_stakes this pid calls init_State)) mod 2 ^ 32 /\
  denote (totalStaked p) = sumZ (accepted_stakes this pid calls init_State) mod 2 ^ 64.
Proof.
  intros Hwf Hpid Hp.
  pose proof (run_reachable this calls init_State (reachable_init this) Hwf) as Hr.
  destruct (reachable_inv _ _ Hr) as [_ Hinv].
  destruct (Hinv pid p Hpid Hp) as (Htb & Hts & _).
  rewrite (accepted_amounts_run this pid calls init_State (reachable_init this) Hwf Hpid) in Htb, Hts.
  by cbn [accepted_amounts events init_State omap list_omap app] in Htb, Hts.
Qed.

Lemma run_length this calls s :
  reachable this s -> Forall wf_tx calls ->
  predictions_length s <= predictions_length (run this calls s).
Proof.
  revert s. induction calls as [|[m c] calls IH]; intros s Hr Hwf; [cbn; lia|].
  apply Forall_cons in Hwf as [[Hm Hc] Hwf]. cbn in Hm, Hc. cbn [run].
  etransitivity; [|apply IH; [by apply reachable_step | done]].
  apply storage_step_length, transact_storage_step; [by eapply reachable_wf | done..].
Qed.

Lemma run_cons this m c calls s :
  run this ((m, c) :: calls) s = run this calls (transact this m c s).
Proof. reflexivity. Qed.

Lemma accepted_stakes_cons this pid m c calls s :
  accepted_stakes this pid ((m, c) :: calls) s =
  (if accepts this m c pid s then [value m] else []) ++
  accepted_stakes this pid calls (transact this m c s).
Proof. reflexivity. Qed.

Lemma many_bets_totalBets this n :
  Z.of_nat n <= ADDRESS_MOD ->
  let calls := ex_create :: bet_calls 0 n in
  Forall wf_tx calls /\
  exists p,
    _predictions (run this calls init_State) !! 0%nat = Some p /\
    length (accepted_stakes this 0 calls init_State) = n /\
    denote (totalBets p) = Z.of_nat n mod 2 ^ 32.
Proof.
  intros Hn calls.
  assert (Hwf : Forall wf_tx calls).
  { apply List.Forall_cons; [wf_tx_solve | by apply bet_calls_wf]. }
  split; [exact Hwf|].
  set (m0 := mkMsg 11 0 100).
  set (c0 := CreatePrediction "A or B" ["A"%string; "B"%string]).
  assert (Hrun : run this calls init_State =
                 run this (bet_calls 0 n) (transact this m0 c0 init_State))
    by apply run_cons.
  assert (Hstk : accepted_stakes this 0 calls init_State =
                 accepted_stakes this 0 (bet_calls 0 n) (transact this m0 c0 init_State)).
  { unfold calls, ex_create. fold m0 c0.
    rewrite accepted_stakes_cons. reflexivity. }
  assert (Hr1 : reachable this (transact this m0 c0 init_State)).
  { apply reachable_step; [apply reachable_init | wf_tx_solve | wf_tx_solve]. }
  assert (Hlen1 : 0 < predictions_length (transact this m0 c0 init_State)).
  { vm_compute. reflexivity. }
  assert (Hfresh : forall a, _bets (transact this m0 c0 init_State) !! (0, a) = None).
  { intros a. vm_compute. reflexivity. }
  generalize dependent (transact this m0 c0 init_State). intros s1 Hrun Hstk Hr1 Hlen1 Hfresh.
  assert (Hlen : 0 < predictions_length (run this calls init_State)).
  { rewrite Hrun. apply Z.lt_le_trans with (predictions_length s1); [exact Hlen1|].
    apply run_length; [exact Hr1 | by apply bet_calls_wf]. }
  destruct (lookup_prediction_lt (run this calls init_State) 0) as [p Hp]; [lia|].
  exists p. split; [exact Hp|].
  assert (Hacc : length (accepted_stakes this 0 calls init_State) = n).
  { rewrite Hstk. apply bet_calls_accepted; [by eapply reachable_wf | exact Hlen1 | exact Hn |].
    intros a _. apply Hfresh. }
  split; [exact Hacc|].
  destruct (run_totals this calls 0 p Hwf ltac:(lia) Hp) as [Htb _].
  rewrite Htb, Hacc. reflexivity.
Qed.

(** C4, as stated, fails at [N = 2^32]: one market and 2^32 accepted bets
    of stake 1, by the senders 0, 1, ..., 2^32 - 1.  [totalBets] decrypts
    to 0, not to 2^32. *)
Lemma totalBets_wraps :
  let calls := ex_create :: bet_calls 0 (Z.to_nat (2 ^ 32)) in
  Forall wf_tx calls /\
  exists p,
    _predictions (run ex_this calls init_State) !! 0%nat = Some p /\
    Z.of_nat (length (accepted_stakes ex_this 0 calls init_State)) = 2 ^ 32 /\
    denote (totalBets p) = 0 /\
    denote (totalBets p) <> Z.of_nat (length (accepted_stakes ex_this 0 calls init_State)).
Proof.
  assert (Hn : Z.of_nat (Z.to_nat (2 ^ 32)) = 2 ^ 32) by (apply Z2Nat.id; lia).
  generalize dependent (Z.to_nat (2 ^ 32)). intros n Hn.
  destruct (many_bets_totalBets ex_this n) as (Hwf & p & Hp & Hacc & Htb).
  { rewrite Hn. unfold ADDRESS_MOD. apply Z.pow_le_mono_r; lia. }
  cbn zeta. split; [exact Hwf|]. exists p. split; [exact Hp|].
  rewrite Hacc, Htb, Hn. rewrite Z.mod_same by lia. repeat split; lia.
Qed.

(** ** Concrete executions: the scenario of the specification *)

Lemma ex_calls_wf : Forall wf_tx ex_calls.
Proof. wf_tx_solve. Qed.

Lemma ex_created_reachable : reachable ex_this ex_created.
Proof. apply run_reachable; [apply reachable_init | wf_tx_solve]. Qed.

Lemma ex_state_reachable : reachable ex_this ex_state.
Proof. apply run_reachable; [apply reachable_init | apply ex_calls_wf]. Qed.

Lemma ex_market_lookup : _predictions ex_state !! Z.to_nat 0 = Some ex_market.
Proof. vm_compute. reflexivity. Qed.

Lemma ex_state_bets :
  _bets ex_state =
  <[(0, 22) := mkBet (HInput EUint8 8 1) (HTrivial EUint64 20) true]>
    (<[(0, 11) := mkBet (HInput EUint8 7 0) (HTrivial EUint64 10) true]> ∅).
Proof. vm_compute. reflexivity. Qed.

Lemma ex_choices_in_range : choices_in_range ex_state 0 ex_market.
Proof.
  intros user b. rewrite ex_state_bets.
  intros [[_ <-] | [_ [[_ <-] | [_ H]]%lookup_insert_Some]]%lookup_insert_Some.
  - vm_compute. split; congruence.
  - vm_compute. split; congruence.
  - by rewrite lookup_empty in H.
Qed.

Lemma createPrediction_options_witness :
  value (mkMsg 11 0 100) = 0 /\
  (2 <= length ["A"%string; "B"%string] <= 4)%nat /\
  exists s' p,
    createPrediction ex_this (mkMsg 11 0 100) "A or B" ["A"%string; "B"%string] init_State =
      Ok (predictions_length init_State) s' /\
    _predictions s' = _predictions init_State ++ [p] /\
    getPredictionCount init_State = Ok (predictions_length init_State) init_State /\
    getPredictionCount s' = Ok (predictions_length init_State + 1) s'.
Proof.
  split; [reflexivity|]. split; [cbn; lia|].
  apply (proj2 (createPrediction_options ex_this (mkMsg 11 0 100) "A or B"
                  ["A"%string; "B"%string] init_State eq_refl)).
  cbn; lia.
Defined.

Lemma placeBet_preconditions_witness :
  placeBet ex_this (mkMsg 11 10 101) 5 7 (mkProof true 0) ex_created = Revert InvalidPrediction /\
  placeBet ex_this (mkMsg 11 0 101) 0 7 (mkProof true 0) ex_created = Revert InvalidBetAmount /\
  placeBet ex_this (mkMsg 11 (2 ^ 64) 101) 0 7 (mkProof true 0) ex_created = Revert InvalidBetAmount /\
  placeBet ex_this (mkMsg 11 5 101) 0 7 (mkProof true 0) ex_state = Revert BetAlreadyPlaced /\
  exists s', placeBet ex_this (mkMsg 11 (2 ^ 64 - 1) 101) 0 7 (mkProof true 0) ex_created = Ok tt s' /\
             exists_ (bet_at s' 0 11) = true.
Proof.
  split.
  { apply (proj1 (placeBet_preconditions ex_this (mkMsg 11 10 101) 5 7 (mkProof true 0) ex_created)).
    vm_compute. congruence. }
  split.
  { apply (proj1 (proj2 (placeBet_preconditions ex_this (mkMsg 11 0 101) 0 7 (mkProof true 0) ex_created))).
    - vm_compute. reflexivity.
    - left. reflexivity. }
  split.
  { apply (proj1 (proj2 (placeBet_preconditions ex_this (mkMsg 11 (2 ^ 64) 101) 0 7 (mkProof true 0) ex_created))).
    - vm_compute. reflexivity.
    - right. vm_compute. reflexivity. }
  split.
  { apply (proj1 (proj2 (proj2 (placeBet_preconditions ex_this (mkMsg 11 5 101) 0 7 (mkProof true 0) ex_state)))).
    - vm_compute. reflexivity.
    - vm_compute. split; congruence.
    - vm_compute. reflexivity. }
  apply (proj1 (proj2 (proj2 (proj2
          (placeBet_preconditions ex_this (mkMsg 11 (2 ^ 64 - 1) 101) 0 7 (mkProof true 0) ex_created))))).
  - apply (reachable_wf ex_this), ex_created_reachable.
  - vm_compute. split; congruence.
  - vm_compute. split; congruence.
  - vm_compute. reflexivity.
  - reflexivity.
Defined.

Lemma views_InvalidPrediction_witness :
  predictions_length ex_state <= 1 /\
  getPredictionMeta 1 ex_state = Revert InvalidPrediction /\
  getPredictionOptions 1 ex_state = Revert InvalidPrediction /\
  getPredictionTotals 1 ex_state = Revert InvalidPrediction /\
  getOptionCounts 1 ex_state = Revert InvalidPrediction /\
  getUserBet 1 11 ex_state = Revert InvalidPrediction.
Proof.
  assert (H : predictions_length ex_state <= 1) by (vm_compute; congruence).
  split; [exact H|]. apply (views_InvalidPrediction 1 11 ex_state H).
Defined.

Lemma getUserBet_recorded_witness :
  reachable ex_this ex_state /\
  0 <= 0 < predictions_length ex_state /\
  exists_ (bet_at ex_state 0 33) = false /\
  getUserBet 0 33 ex_state = Ok (false, HNull, HNull) ex_state /\
  getUserBet 0 11 ex_state = Ok (true, HInput EUint8 7 0, HTrivial EUint64 (to_uint64 10)) ex_state.
Proof.
  assert (Hpid : 0 <= 0 < predictions_length ex_state) by (vm_compute; split; congruence).
  assert (Hb : exists_ (bet_at ex_state 0 33) = false) by (vm_compute; reflexivity).
  pose proof (getUserBet_recorded ex_this ex_state 0 33 ex_state_reachable Hpid) as H33.
  pose proof (getUserBet_recorded ex_this ex_state 0 11 ex_state_reachable Hpid) as H11.
  split; [exact ex_state_reachable|]. split; [exact Hpid|]. split; [exact Hb|].
  split; [exact (proj1 (proj1 H33 Hb))|].
  apply (proj2 H11 ex_created (mkMsg 11 10 101) 7 (mkProof true 0)
           (transact ex_this (mkMsg 11 10 101) (PlaceBet 0 7 (mkProof true 0)) ex_created)).
  - exact ex_created_reachable.
  - unfold wf_msg, ADDRESS_MOD, UINT256_MOD. cbn. repeat split; vm_compute; congruence.
  - unfold wf_call, UINT256_MOD. repeat split; vm_compute; congruence.
  - reflexivity.
  - vm_compute. reflexivity.
  - apply (steps_step ex_this _ _ (mkMsg 22 20 102) (PlaceBet 0 8 (mkProof true 1))).
    + apply steps_refl.
    + unfold wf_msg, ADDRESS_MOD, UINT256_MOD. cbn. repeat split; vm_compute; congruence.
    + unfold wf_call, UINT256_MOD. repeat split; vm_compute; congruence.
Defined.

Lemma grantAccess_grants_witness :
  reachable ex_this ex_state /\ value (mkMsg 11 0 103) = 0 /\ 0 <= 0 /\
  _predictions ex_state !! Z.to_nat 0 = Some ex_market /\
  (grantAccess (mkMsg 11 0 103) 0 ex_state = Revert InvalidPrediction <->
   predictions_length ex_state <= 0) /\
  exists s',
    grantAccess (mkMsg 11 0 103) 0 ex_state = Ok tt s' /\
    _predictions s' = _predictions ex_state /\ _bets s' = _bets ex_state /\
    allowed s' (totalStaked ex_market) 11 /\ allowed s' (totalBets ex_market) 11.
Proof.
  assert (H0 : 0 <= 0) by lia.
  pose proof (grantAccess_grants ex_this ex_state (mkMsg 11 0 103) 0 ex_state_reachable
                eq_refl H0) as [Hrev Hok].
  split; [exact ex_state_reachable|]. split; [reflexivity|]. split; [exact H0|].
  split; [exact ex_market_lookup|].
  split; [exact Hrev|].
  destruct (Hok ex_market ex_market_lookup) as (s' & Hrun & HP & HB & _ & Hts & Htb & _).
  exists s'. repeat split; assumption.
Defined.

Lemma unused_slots_witness :
  reachable ex_this ex_state /\ 0 <= 0 /\
  _predictions ex_state !! Z.to_nat 0 = Some ex_market /\
  length (optionCounts ex_market) = 4%nat /\
  optionCounts ex_market !! 2%nat = Some HNull /\
  optionCounts ex_market !! 3%nat = Some HNull /\
  exists s',
    getOptionCounts 0 ex_state = Ok (take 2 (optionCounts ex_market)) s'.
Proof.
  assert (H0 : 0 <= 0) by lia.
  pose proof (unused_slots ex_this ex_state 0 ex_market ex_state_reachable H0 ex_market_lookup)
    as (Hlen & Hz & _ & s' & Hrun & _).
  split; [exact ex_state_reachable|]. split; [exact H0|]. split; [exact ex_market_lookup|].
  split; [exact Hlen|].
  split; [apply Hz; vm_compute; split; lia|].
  split; [apply Hz; vm_compute; split; lia|].
  exists s'. exact Hrun.
Defined.

Lemma totals_after_bets_witness :
  Forall wf_tx ex_calls /\ 0 <= 0 /\
  _predictions (run ex_this ex_calls init_State) !! Z.to_nat 0 = Some ex_market /\
  accepted_stakes ex_this 0 ex_calls init_State = [10; 20] /\
  denote (totalBets ex_market) = 2 /\
  denote (totalStaked ex_market) = 30.
Proof.
  assert (H0 : 0 <= 0) by lia.
  pose proof (totals_after_bets ex_this ex_calls 0 ex_market ex_calls_wf H0 ex_market_lookup)
    as (Htb & Hts & _).
  assert (Hacc : accepted_stakes ex_this 0 ex_calls init_State = [10; 20])
    by (vm_compute; reflexivity).
  rewrite Hacc in Htb, Hts.
  split; [exact ex_calls_wf|]. split; [exact H0|]. split; [exact ex_market_lookup|].
  split; [exact Hacc|]. split; [exact Htb | exact Hts].
Defined.

Lemma totals_step_witness :
  let s := run ex_this [ex_create; ex_alice_bet] init_State in
  let m := mkMsg 22 20 102 in
  let c := PlaceBet 0 8 (mkProof true 1) in
  let p := default zero_Prediction (_predictions s !! 0%nat) in
  reachable ex_this s /\ wf_msg m /\ wf_call m c /\ 0 <= 0 /\
  _predictions s !! Z.to_nat 0 = Some p /\
  accepts ex_this m c 0 s = true /\
  exists p',
    _predictions (transact ex_this m c s) !! Z.to_nat 0 = Some p' /\
    denote (totalStaked p') = (denote (totalStaked p) + 20) mod 2 ^ 64 /\
    denote (totalBets p') = (denote (totalBets p) + 1) mod 2 ^ 32.
Proof.
  intros s m c p.
  assert (Hr : reachable ex_this s).
  { apply run_reachable; [apply reachable_init | wf_tx_solve]. }
  assert (Hm : wf_msg m) by wf_tx_solve.
  assert (Hc : wf_call m c) by wf_tx_solve.
  assert (H0 : 0 <= 0) by lia.
  assert (Hp : _predictions s !! Z.to_nat 0 = Some p) by (vm_compute; reflexivity).
  assert (Hacc : accepts ex_this m c 0 s = true) by (vm_compute; reflexivity).
  pose proof (totals_step ex_this s m c 0 p Hr Hm Hc H0 Hp) as (p' & Hp' & H).
  cbn zeta in H. rewrite Hacc in H. destruct H as (Hts & Htb & _).
  repeat (split; [assumption|]).
  exists p'. repeat split; assumption.
Defined.

Lemma counts_sum_totalBets_witness :
  Forall wf_tx ex_calls /\ 0 <= 0 /\
  _predictions (run ex_this ex_calls init_State) !! Z.to_nat 0 = Some ex_market /\
  choices_in_range (run ex_this ex_calls init_State) 0 ex_market /\
  sum_counts ex_market mod 2 ^ 32 = denote (totalBets ex_market) /\
  sum_counts ex_market = denote (totalBets ex_market).
Proof.
  assert (H0 : 0 <= 0) by lia.
  pose proof (counts_sum_totalBets ex_this ex_calls 0 ex_market ex_calls_wf H0
                ex_market_lookup ex_choices_in_range) as [Hmod Heq].
  split; [exact ex_calls_wf|]. split; [exact H0|]. split; [exact ex_market_lookup|].
  split; [exact ex_choices_in_range|]. split; [exact Hmod|].
  apply Heq. vm_compute. reflexivity.
Defined.

Lemma placeBet_oblivious_witness :
  let m := mkMsg 11 10 101 in
  let p := default zero_Prediction (_predictions ex_created !! 0%nat) in
  let s' := transact ex_this m (PlaceBet 0 7 (mkProof true 0)) ex_created in
  erase ex_created = erase ex_created /\
  proof_valid (mkProof true 0) = proof_valid (mkProof true 1) /\
  erase_result (placeBet ex_this m 0 7 (mkProof true 0) ex_created) =
  erase_result (placeBet ex_this m 0 7 (mkProof true 1) ex_created) /\
  placeBet ex_this m 0 7 (mkProof true 0) ex_created = Ok tt s' /\
  counter_accesses (trace s') =
    counter_accesses (trace ex_created) ++
    flat_map (fun i => [CounterRead 0 i; CounterWrite 0 i; CounterRead 0 i; CounterRead 0 i])
             (seq 0 (Z.to_nat (optionCount p))).
Proof.
  intros m p s'.
  pose proof (placeBet_oblivious ex_this m 0 7 (mkProof true 0) (mkProof true 1)
                ex_created ex_created eq_refl eq_refl) as [Hni Hstruct].
  assert (Hrun : placeBet ex_this m 0 7 (mkProof true 0) ex_created = Ok tt s')
    by (vm_compute; reflexivity).
  assert (Hwf : wf_state ex_created) by (apply (reachable_wf ex_this), ex_created_reachable).
  assert (Hm : wf_msg m) by wf_tx_solve.
  assert (H0 : 0 <= 0) by lia.
  assert (Hp : _predictions ex_created !! Z.to_nat 0 = Some p) by (vm_compute; reflexivity).
  destruct (Hstruct p s' Hwf Hm H0 Hp Hrun) as (p' & _ & _ & HT).
  split; [reflexivity|]. split; [reflexivity|]. split; [exact Hni|].
  split; [exact Hrun | exact HT].
Defined.

(** ** The grants each transaction records *)

Lemma createPrediction_grants this m title options s :
  value m = 0 ->
  (2 <= length options <= 4)%nat ->
  wp (createPrediction this m title options)
     (fun id s' =>
        id = predictions_length s /\
        _predictions s' = _predictions s ++ [new_prediction m title options] /\
        _bets s' = _bets s /\
        acl s' = acl s ++ create_grants this (length options)) s.
Proof.
  intros Hv Hlen. unfold createPrediction.
  apply wp_bind, wp_nonpayable; [exact Hv|].
  assert (((Z.of_nat (length options) <? 2) || (Z.of_nat (length options) >? 4)) = false) as ->.
  { apply orb_false_iff. lia. }
  wp_step. wp_step. unfold predictions_length.
  do 10 wp_step. unfold zero_Prediction; wp_simpl. wp_step.
  apply (wp_for_loop (fun i s' =>
    _predictions s' = _predictions s ++
       [mkPrediction title (take i options) (to_uint8 (Z.of_nat (length options)))
          (to_uint64 (timestamp m)) (sender m) HNull HNull
          (replicate i (HTrivial EUint32 0) ++ replicate (4 - i) HNull)] /\
    _bets s' = _bets s /\
    acl s' = acl s ++ replicate i (HTrivial EUint32 0, this))).
  - wp_simpl. rewrite take_0, app_nil_r. done.
  - intros i [P B A T E] Hi (Hp & Hb & Ha). cbn in Hp, Hb, Ha. subst P B A.
    destruct (lookup_lt_is_Some_2 options i) as [o Ho]; [lia|]. rewrite Ho.
    do 5 wp_step.
    eapply wp_write_count; [wp_lookup | wp_simpl; apply fresh_counts_lookup; lia |]. wp_simpl.
    wp_step.
    eapply wp_read_count; [wp_lookup | wp_simpl; apply list_lookup_insert_eq |]; wp_simpl.
    { rewrite length_app, !length_replicate. lia. }
    wp_step. rewrite fresh_counts_insert by lia.
    rewrite (take_S_r _ _ _ Ho). repeat split; try reflexivity.
    rewrite <- app_assoc. f_equal.
    change [(HTrivial EUint32 0, this)] with (replicate 1 (HTrivial EUint32 0, this)).
    rewrite <- replicate_add. f_equal. lia.
  - intros [P B A T E] (Hp & Hb & Ha). cbn in Hp, Hb, Ha. subst P B A.
    cbn [Nat.add]. rewrite firstn_all.
    do 20 wp_step.
    rewrite length_app, Nat.add_1_r. unfold new_prediction, create_grants.
    replace (Z.of_nat (S (length (_predictions s))) - 1)
      with (Z.of_nat (length (_predictions s))) by lia.
    repeat split; try reflexivity.
    rewrite <- !app_assoc. reflexivity.
Qed.

Lemma take_bump_counts_S i k ch ocs c :
  (i < k)%nat -> ocs !! i = Some c ->
  take (S i) (bump_counts k ch ocs) = take i (bump_counts k ch ocs) ++ [bump ch i c].
Proof.
  intros Hi Hc. apply take_S_r. rewrite bump_counts_lookup, Hc.
  cbn [fmap option_fmap option_map].
  destruct (Nat.ltb_spec i k); [reflexivity | lia].
Qed.

Lemma placeBet_grants this m pid ec proof s p :
  0 <= pid ->
  _predictions s !! Z.to_nat pid = Some p ->
  (Z.to_nat (optionCount p) <= length (optionCounts p))%nat ->
  0 < value m <= UINT64_MAX ->
  exists_ (bet_at s pid (sender m)) = false ->
  proof_valid proof = true ->
  wp (placeBet this m pid ec proof)
     (fun _ s' =>
        _predictions s' = <[Z.to_nat pid := bet_prediction m ec proof p]> (_predictions s) /\
        _bets s' = <[(pid, sender m) := mkBet (bet_choice ec proof) (bet_amount m) true]> (_bets s) /\
        acl s' = acl s ++
                 bet_grants this (sender m) (bet_prediction m ec proof p)
                            (mkBet (bet_choice ec proof) (bet_amount m) true)) s.
Proof.
  intros Hpid Hp Hk Hv Hb Hpr.
  pose proof (lookup_lt_Some _ _ _ Hp) as Hn.
  unfold placeBet. wp_step. wp_step.
  assert ((pid >=? predictions_length s) = false) as ->.
  { unfold predictions_length. lia. }
  assert (((value m =? 0) || (value m >? UINT64_MAX)) = false) as ->.
  { apply orb_false_iff. lia. }
  wp_step. apply wp_load_bet. rewrite Hb.
  wp_step. apply wp_FHE_fromExternal; [exact Hpr|].
  repeat wp_step.
  set (k := Z.to_nat (optionCount p)) in *.
  apply (wp_for_loop (fun i s' =>
    _predictions s' =
      <[Z.to_nat pid :=
          mkPrediction (title p) (options p) (optionCount p) (createdAt p) (creator p)
            (HAdd EUint64 (init EUint64 (totalStaked p)) (bet_amount m))
            (HAdd EUint32 (init EUint32 (totalBets p)) (HTrivial EUint32 1))
            (bump_counts i (bet_choice ec proof) (optionCounts p))]> (_predictions s) /\
    _bets s' = <[(pid, sender m) := mkBet (bet_choice ec proof) (bet_amount m) true]> (_bets s) /\
    acl s' = acl s ++
             flat_map (fun c => [(c, this); (c, sender m)])
                      (take i (bump_counts k (bet_choice ec proof) (optionCounts p))))).
  - wp_simpl. rewrite bump_counts_0, take_0. cbn. rewrite app_nil_r. done.
  - intros i [P B A T E] Hi (HP & HB & HA). cbn in HP, HB, HA. subst P B A.
    destruct (lookup_lt_is_Some_2 (optionCounts p) i) as [c Hc]; [lia|].
    assert (Hlt : (i <? S i)%nat = true) by (apply Nat.ltb_lt; lia).
    do 7 wp_step.
    eapply wp_read_count;
      [wp_lookup | wp_simpl; rewrite bump_counts_lookup, Hc, Nat.ltb_irrefl; reflexivity |].
    wp_simpl. do 3 wp_step.
    eapply wp_write_count;
      [wp_lookup | wp_simpl; rewrite bump_counts_lookup, Hc, Nat.ltb_irrefl; reflexivity |].
    wp_simpl.
    pose proof (bump_counts_S i (bet_choice ec proof) _ c Hc) as HS.
    unfold bump, bet_choice in HS. unfold bet_choice. rewrite HS.
    wp_step.
    eapply wp_read_count;
      [wp_lookup | wp_simpl; rewrite bump_counts_lookup, Hc, Hlt; reflexivity |].
    wp_simpl. do 3 wp_step.
    eapply wp_read_count;
      [wp_lookup | wp_simpl; rewrite bump_counts_lookup, Hc, Hlt; reflexivity |].
    wp_simpl. wp_step. repeat split; try reflexivity.
    rewrite (take_bump_counts_S i k _ _ c) by (done || lia).
    rewrite flat_map_app. cbn. rewrite <- !app_assoc. reflexivity.
  - intros [P B A T E] (HP & HB & HA). cbn in HP, HB, HA. subst P B A.
    cbn [Nat.add]. repeat wp_step. repeat split; try reflexivity.
    unfold bet_grants, bet_prediction. cbn [optionCount optionCounts totalStaked totalBets choice amount].
    fold k. rewrite <- !app_assoc. reflexivity.
Qed.

(** ** The whole effect of a transaction *)

Lemma transact_ledger_step this m c s :
  wf_state s -> wf_msg m -> wf_call m c -> ledger_step this m c s (transact this m c s).
Proof.
  intros [Hwf _] (_ & Hval & _) Hc. unfold transact.
  destruct c as [t o | pid ec proof | pid]; cbn [run_call].
  - destruct (decide (2 <= length o <= 4)%nat) as [Hlen | Hlen].
    + destruct (wp_elim _ _ _ (createPrediction_spec this m t o s Hc Hlen))
        as (id & s' & Hrun & Hid & HP & HB & HE & _).
      destruct (wp_elim _ _ _ (createPrediction_grants this m t o s Hc Hlen))
        as (id' & s'' & Hrun' & _ & _ & _ & HA).
      rewrite Hrun in Hrun'. inversion Hrun'; subst id' s''.
      unfold bind. rewrite Hrun. cbn. subst id.
      exact (lstep_create this m _ s s' t o eq_refl Hlen HP HB HE HA).
    + unfold bind. rewrite (createPrediction_InvalidOptions _ _ _ _ _ Hc) by lia. by apply lstep_revert.
  - destruct Hc as [Hpid _].
    destruct (decide (predictions_length s <= pid)) as [Hge | Hlt].
    { rewrite placeBet_InvalidPrediction by done. by apply lstep_revert. }
    destruct (decide (0 < value m <= UINT64_MAX)) as [Hv | Hv].
    2: { rewrite placeBet_InvalidBetAmount by lia. by apply lstep_revert. }
    destruct (exists_ (bet_at s pid (sender m))) eqn:Hb.
    { rewrite placeBet_BetAlreadyPlaced by (done || lia). by apply lstep_revert. }
    destruct (proof_valid proof) eqn:Hpr.
    2: { rewrite placeBet_InvalidProof by (done || lia). by apply lstep_revert. }
    destruct (lookup_prediction_lt s pid) as [p Hp]; [lia|].
    pose proof (wf_prediction_counts _ (Hwf _ _ Hp)) as Hk.
    destruct (wp_elim _ _ _ (placeBet_spec this m pid ec proof s p (proj1 Hpid) Hp Hk Hv Hb Hpr))
      as ([] & s' & Hrun & HP & HB & HE & _).
    destruct (wp_elim _ _ _ (placeBet_grants this m pid ec proof s p (proj1 Hpid) Hp Hk Hv Hb Hpr))
      as ([] & s'' & Hrun' & _ & _ & HA).
    rewrite Hrun in Hrun'. inversion Hrun'; subst s''.
    rewrite Hrun.
    exact (lstep_bet this m _ s s' pid ec proof p eq_refl (proj1 Hpid) Hp Hv Hb HP HB HE HA).
  - destruct Hc as [Hv0 Hpid].
    destruct (decide (predictions_length s <= pid)) as [Hge | Hlt].
    { rewrite (grantAccess_InvalidPrediction _ _ _ Hv0) by done. by apply lstep_revert. }
    destruct (lookup_prediction_lt s pid) as [p Hp]; [lia|].
    destruct (wp_elim _ _ _ (grantAccess_spec m pid s p Hv0 (proj1 Hpid) Hp
                (wf_prediction_counts _ (Hwf _ _ Hp))))
      as ([] & s' & Hrun & HP & HB & HE & HA & _).
    rewrite Hrun.
    exact (lstep_grant this m _ s s' pid p eq_refl (proj1 Hpid) Hp HP HB HE HA).
Qed.

(** ** Induction over reachable ledgers, one whole effect at a time *)

Lemma reachable_ledger_ind this (P : State -> Prop) :
  P init_State ->
  (forall m c s s', reachable this s -> P s -> ledger_step this m c s s' -> P s') ->
  forall s, reachable this s -> P s.
Proof.
  intros H0 Hstep s Hr. induction Hr as [| m c s Hr IH Hm Hc]; [done|].
  eapply Hstep; [exact Hr | exact IH |].
  apply transact_ledger_step; [by eapply reachable_wf | done | done].
Qed.

Lemma ledger_step_acl this m c s s' :
  ledger_step this m c s s' -> exists l, acl s' = acl s ++ l.
Proof.
  intros [-> | t o _ _ _ _ _ HA | pid ec proof p _ _ _ _ _ _ _ _ HA | pid p _ _ _ _ _ _ HA];
    [exists []; by rewrite app_nil_r | by eexists ..].
Qed.

Lemma ledger_step_allowed this m c s s' h a :
  ledger_step this m c s s' -> allowed s h a -> allowed s' h a.
Proof.
  intros Hs Ha. destruct (ledger_step_acl _ _ _ _ _ Hs) as [l Hl].
  unfold allowed. rewrite Hl. apply elem_of_app. by left.
Qed.

Lemma steps_allowed this s s' h a :
  reachable this s -> steps this s s' -> allowed s h a -> allowed s' h a.
Proof.
  intros Hr Hs Ha. induction Hs as [| s' m c Hs IH Hm Hc]; [done|].
  eapply ledger_step_allowed; [|exact IH].
  apply transact_ledger_step; [|done|done].
  eapply reachable_wf, steps_reachable; eauto.
Qed.

Lemma new_prediction_handles m t o h :
  (2 <= length o <= 4)%nat ->
  h ∈ market_handles (new_prediction m t o) ->
  h = HTrivial EUint64 0 \/ h = HTrivial EUint32 0.
Proof.
  intros Hlen. unfold market_handles, new_prediction.
  cbn [totalStaked totalBets optionCount optionCounts].
  rewrite !elem_of_cons. intros [-> | [-> | Hin]]; [by left | by right |].
  right. apply elem_of_take in Hin as (i & Hi & Hlt).
  unfold to_uint8 in Hlt. rewrite Z.mod_small in Hlt by lia.
  rewrite lookup_app_l in Hi by (rewrite length_replicate; lia).
  by apply lookup_replicate in Hi as [-> _].
Qed.

Lemma create_grants_allowed this n l :
  ((HTrivial EUint64 0, this) ∈ l ++ create_grants this n) /\
  ((HTrivial EUint32 0, this) ∈ l ++ create_grants this n).
Proof. unfold create_grants. split; in_list. Qed.

Lemma bet_grants_market this a p' b l h :
  h ∈ market_handles p' ->
  (h, this) ∈ l ++ bet_grants this a p' b /\ (h, a) ∈ l ++ bet_grants this a p' b.
Proof.
  unfold market_handles, bet_grants. rewrite !elem_of_cons.
  intros [-> | [-> | Hin]]; [split; in_list | split; in_list |].
  assert (forall x, x ∈ [(h, this); (h, a)] ->
            x ∈ flat_map (fun c => [(c, this); (c, a)])
                         (take (Z.to_nat (optionCount p')) (optionCounts p'))) as Hf.
  { intros x Hx. apply list_elem_of_In, in_flat_map. exists h.
    split; by apply list_elem_of_In. }
  split; rewrite !elem_of_app; right; left; apply Hf; in_list.
Qed.

Lemma bet_grants_bet this a p' b l h :
  h ∈ bet_handles b ->
  (h, this) ∈ l ++ bet_grants this a p' b /\ (h, a) ∈ l ++ bet_grants this a p' b.
Proof.
  unfold bet_handles, bet_grants. rewrite !elem_of_cons, elem_of_nil.
  intros [-> | [-> | []]]; split; in_list.
Qed.

Lemma contract_allowed_inv this s :
  reachable this s -> forall h, stored s h -> allowed s h this.
Proof.
  revert s.
  apply (reachable_ledger_ind this (fun s => forall h, stored s h -> allowed s h this)).
  - intros h [(n & p & Hp & _) | (key & b & Hb & _)]; cbn in *.
    + by rewrite lookup_nil in Hp.
    + by rewrite lookup_empty in Hb.
  - intros m c s s' Hr IH Hstep h Hst.
    pose proof (ledger_step_allowed _ _ _ _ _ h this Hstep) as Hmono.
    destruct Hstep as [-> | t o _ Hlen HP HB _ HA | pid ec proof p _ Hpid Hp _ _ HP HB _ HA
                       | pid p _ _ _ HP HB _ _].
    + by apply IH.
    + destruct Hst as [(n & q & Hq & Hh) | (key & b & Hb & Hh)].
      * rewrite HP in Hq. apply lookup_app_Some in Hq as [Hq | [_ Hq]].
        -- apply Hmono, IH. left. eauto.
        -- apply list_lookup_singleton_Some in Hq as [_ <-].
           unfold allowed. rewrite HA.
           destruct (new_prediction_handles _ _ _ _ Hlen Hh) as [-> | ->];
             apply create_grants_allowed.
      * apply Hmono, IH. right. rewrite HB in Hb. eauto.
    + destruct Hst as [(n & q & Hq & Hh) | (key & b & Hb & Hh)].
      * rewrite HP in Hq. destruct (decide (Z.to_nat pid = n)) as [<- | Hne].
        -- rewrite list_lookup_insert_eq in Hq by (by eapply lookup_lt_Some).
           injection Hq as <-. unfold allowed. rewrite HA.
           by apply bet_grants_market.
        -- rewrite list_lookup_insert_ne in Hq by done. apply Hmono, IH. left. eauto.
      * rewrite HB in Hb. destruct (decide ((pid, sender m) = key)) as [<- | Hne].
        -- rewrite lookup_insert_eq in Hb. injection Hb as <-.
           unfold allowed. rewrite HA. by apply bet_grants_bet.
        -- rewrite lookup_insert_ne in Hb by done. apply Hmono, IH. right. eauto.
    + apply Hmono, IH. destruct Hst as [(n & q & Hq & Hh) | (key & b & Hb & Hh)].
      * left. rewrite HP in Hq. eauto.
      * right. rewrite HB in Hb. eauto.
Qed.

(** ** The views of an existing market *)

Lemma getPredictionMeta_eq pid s p :
  0 <= pid -> _predictions s !! Z.to_nat pid = Some p ->
  getPredictionMeta pid s = Ok (title p, optionCount p, createdAt p, creator p) s.
Proof.
  intros Hpid Hp. pose proof (lookup_lt_Some _ _ _ Hp) as Hn.
  unfold getPredictionMeta, bind, get, load_prediction, predictions_length.
  assert ((pid >=? Z.of_nat (length (_predictions s))) = false) as -> by lia.
  by rewrite Hp.
Qed.

Lemma getPredictionOptions_eq pid s p :
  0 <= pid -> _predictions s !! Z.to_nat pid = Some p ->
  getPredictionOptions pid s = Ok (options p) s.
Proof.
  intros Hpid Hp. pose proof (lookup_lt_Some _ _ _ Hp) as Hn.
  unfold getPredictionOptions, bind, get, load_prediction, predictions_length.
  assert ((pid >=? Z.of_nat (length (_predictions s))) = false) as -> by lia.
  by rewrite Hp.
Qed.

Lemma getPredictionTotals_eq pid s p :
  0 <= pid -> _predictions s !! Z.to_nat pid = Some p ->
  getPredictionTotals pid s = Ok (totalStaked p, totalBets p) s.
Proof.
  intros Hpid Hp. pose proof (lookup_lt_Some _ _ _ Hp) as Hn.
  unfold getPredictionTotals, bind, get, load_prediction, predictions_length.
  assert ((pid >=? Z.of_nat (length (_predictions s))) = false) as -> by lia.
  by rewrite Hp.
Qed.

Lemma getOptionCounts_eq pid s p :
  0 <= pid -> _predictions s !! Z.to_nat pid = Some p -> wf_prediction p ->
  getOptionCounts pid s =
  Ok (take (Z.to_nat (optionCount p)) (optionCounts p))
     (with_trace s (CounterRead pid <$> seq 0 (Z.to_nat (optionCount p)))).
Proof.
  intros Hpid Hp Hwf.
  destruct (wp_elim _ _ _ (getOptionCounts_spec pid s p Hpid Hp (wf_prediction_counts _ Hwf)))
    as (counts & s' & -> & -> & HP & HB & HA & HE & HT).
  f_equal. destruct s, s'. cbn in *. unfold with_trace. cbn. by subst.
Qed.

Lemma stored_with_trace s l h : stored (with_trace s l) h <-> stored s h.
Proof. done. Qed.

(** ** Standing permissions *)

(** X1: the contract keeps permission on everything it stores.  In every
    reachable ledger the contract's own address is allowed on each market's
    [totalStaked], [totalBets] and option counters, and on the [choice] and
    [amount] of every recorded bet: the handles [createPrediction] and
    [placeBet] pass to [FHE.allowThis] are all the handles they store. *)
Theorem contract_allowed this s h :
  reachable this s -> stored s h -> allowed s h this.
Proof. intros Hr. by apply contract_allowed_inv. Qed.


Lemma stored_market s n p h :
  _predictions s !! n = Some p -> h ∈ market_handles p -> stored s h.
Proof. intros Hp Hh. left. eauto. Qed.

Lemma stored_bet s key b h :
  _bets s !! key = Some b -> h ∈ bet_handles b -> stored s h.
Proof. intros Hb Hh. right. eauto. Qed.

Lemma create_grants_elem this n h a :
  (h, a) ∈ create_grants this n ->
  a = this /\ (h = HTrivial EUint64 0 \/ h = HTrivial EUint32 0).
Proof.
  unfold create_grants. rewrite elem_of_app, !elem_of_cons, elem_of_nil.
  intros [Hin | [[= -> ->] | [[= -> ->] | []]]]; [|by auto..].
  apply elem_of_replicate in Hin as [[= -> ->] _]. auto.
Qed.

Lemma bet_grants_elem this u p' b h a :
  (h, a) ∈ bet_grants this u p' b ->
  (a = this \/ a = u) /\ (h ∈ market_handles p' \/ h ∈ bet_handles b).
Proof.
  unfold bet_grants, market_handles, bet_handles.
  rewrite elem_of_app, !elem_of_cons, elem_of_nil.
  intros [Hin | Hin].
  - apply list_elem_of_In, in_flat_map in Hin as (c & Hc & Hin).
    apply list_elem_of_In in Hc, Hin.
    rewrite !elem_of_cons, elem_of_nil in Hin.
    destruct Hin as [[= -> ->] | [[= -> ->] | []]]; auto.
  - repeat (destruct Hin as [[= -> ->] | Hin]; [by auto 6|]). done.
Qed.

Lemma access_grants_elem s pid p u h a :
  _predictions s !! Z.to_nat pid = Some p ->
  (h, a) ∈ access_grants p (bet_at s pid u) u ->
  a = u /\ stored s h.
Proof.
  intros Hp. unfold access_grants.
  rewrite !elem_of_app, !elem_of_cons, elem_of_nil.
  intros [[[= -> ->] | [[= -> ->] | []]] | [Hin | Hin]].
  - split; [done|]. eapply stored_market; [exact Hp | apply list_elem_of_here].
  - split; [done|]. eapply stored_market; [exact Hp |].
    apply list_elem_of_further, list_elem_of_here.
  - apply list_elem_of_fmap in Hin as (c & [= -> ->] & Hc).
    split; [done|]. eapply stored_market; [exact Hp |].
    by do 2 apply list_elem_of_further.
  - unfold bet_at in Hin. destruct (_bets s !! (pid, u)) as [b|] eqn:Hb; cbn in Hin.
    + destruct (exists_ b); [|by apply elem_of_nil in Hin].
      rewrite !elem_of_cons, elem_of_nil in Hin.
      destruct Hin as [[= -> ->] | [[= -> ->] | []]]; (split; [done|]);
        (eapply stored_bet; [exact Hb|]); unfold bet_handles; in_list.
    + by apply elem_of_nil in Hin.
Qed.

(** X2: permissions are only ever added, and only for the contract or the
    caller, on handles the ledger stores.  Across any transaction from a
    reachable ledger every existing permission is kept (no function revokes
    one), and every new permission is held by the contract itself or by
    [msg.sender], on a total or option counter of a market or on the choice
    or amount of a recorded bet. *)
Theorem grants_only_to_caller this s m c h a :
  reachable this s -> wf_msg m -> wf_call m c ->
  (allowed s h a -> allowed (transact this m c s) h a) /\
  (allowed (transact this m c s) h a ->
   allowed s h a \/ ((a = this \/ a = sender m) /\ stored (transact this m c s) h)).
Proof.
  intros Hr Hm Hc.
  pose proof (transact_ledger_step this m c s (reachable_wf _ _ Hr) Hm Hc) as Hstep.
  split; [by apply (ledger_step_allowed _ _ _ _ _ _ _ Hstep)|].
  generalize dependent (transact this m c s). intros s' Hstep. unfold allowed.
  destruct Hstep as [-> | t o _ Hlen HP HB _ HA | pid ec proof p _ Hpid Hp _ _ HP HB _ HA
                     | pid p _ _ Hp HP HB _ HA]; [by left | rewrite HA ..];
    rewrite elem_of_app; (intros [Hin | Hin]; [by left | right]).
  - apply create_grants_elem in Hin as [-> Hh]. split; [by left|].
    apply (stored_market s' (length (_predictions s)) (new_prediction m t o)).
    { rewrite HP. apply list_lookup_middle. done. }
    unfold market_handles, new_prediction. cbn [totalStaked totalBets optionCount optionCounts].
    destruct Hh as [-> | ->]; in_list.
  - apply bet_grants_elem in Hin as [Ha [Hh | Hh]]; (split; [done|]).
    + apply (stored_market s' (Z.to_nat pid) (bet_prediction m ec proof p)); [|done].
      rewrite HP. apply list_lookup_insert_eq. by eapply lookup_lt_Some.
    + apply (stored_bet s' (pid, sender m) (mkBet (bet_choice ec proof) (bet_amount m) true));
        [|done].
      rewrite HB. apply lookup_insert_eq.
  - apply access_grants_elem in Hin as [-> Hst]; [|done]. split; [by right|].
    destruct Hst as [(n & q & Hq & Hh) | (key & b & Hb & Hh)].
    + eapply stored_market; [|exact Hh]. by rewrite HP.
    + eapply stored_bet; [|exact Hh]. by rewrite HB.
Qed.

(** Success of [placeBet] implies its whole effect. *)
Lemma placeBet_Ok_step this m pid ec proof s u s' :
  wf_state s -> wf_msg m -> 0 <= pid ->
  placeBet this m pid ec proof s = Ok u s' ->
  exists p,
    _predictions s !! Z.to_nat pid = Some p /\
    _predictions s' = <[Z.to_nat pid := bet_prediction m ec proof p]> (_predictions s) /\
    _bets s' = <[(pid, sender m) := mkBet (bet_choice ec proof) (bet_amount m) true]> (_bets s) /\
    acl s' = acl s ++ bet_grants this (sender m) (bet_prediction m ec proof p)
                        (mkBet (bet_choice ec proof) (bet_amount m) true).
Proof.
  intros Hwf Hm Hpid Hrun.
  destruct (placeBet_Ok_inv _ _ _ _ _ _ _ _ Hwf Hm Hpid Hrun)
    as (p & Hp & Hv & Hb & Hpr & HP & HB & _).
  exists p. repeat split; try done.
  destruct (wp_elim _ _ _ (placeBet_grants this m pid ec proof s p Hpid Hp
              (wf_prediction_counts _ (proj1 Hwf _ _ Hp)) Hv Hb Hpr))
    as ([] & s1 & Hrun1 & _ & _ & HA).
  rewrite Hrun1 in Hrun. by inversion Hrun; subst.
Qed.

(** X3: an accepted bet leaves the bettor able to decrypt the market and the
    bet.  After [placeBet] returns, [getPredictionTotals], [getOptionCounts]
    and [getUserBet] for the bettor succeed; [getUserBet] reports
    [exists = true], a choice that decrypts to the submitted secret reduced
    to 8 bits and an amount that decrypts to [msg.value]; and both the bettor
    and the contract are allowed on every handle the three views return. *)
Theorem placeBet_grants_bettor this m pid ec proof s s' :
  reachable this s -> wf_msg m -> 0 <= pid ->
  placeBet this m pid ec proof s = Ok tt s' ->
  exists ts tb counts s'' ch am,
    getPredictionTotals pid s' = Ok (ts, tb) s' /\
    getOptionCounts pid s' = Ok counts s'' /\
    getUserBet pid (sender m) s' = Ok (true, ch, am) s' /\
    denote ch = proof_plain proof mod 2 ^ 8 /\
    denote am = value m /\
    forall h, h ∈ ts :: tb :: ch :: am :: counts ->
              allowed s' h (sender m) /\ allowed s' h this.
Proof.
  intros Hr Hm Hpid Hrun.
  pose proof (reachable_wf _ _ Hr) as Hwf.
  destruct (placeBet_Ok_inv _ _ _ _ _ _ _ _ Hwf Hm Hpid Hrun)
    as (p0 & Hp0 & Hv & _).
  destruct (placeBet_Ok_step _ _ _ _ _ _ _ _ Hwf Hm Hpid Hrun)
    as (p & Hp & HP & HB & HA).
  set (p' := bet_prediction m ec proof p) in *.
  set (b := mkBet (bet_choice ec proof) (bet_amount m) true) in *.
  assert (Hp' : _predictions s' !! Z.to_nat pid = Some p').
  { rewrite HP. apply list_lookup_insert_eq. by eapply lookup_lt_Some. }
  assert (Hwf' : wf_prediction p').
  { apply wf_bet_prediction. by apply (proj1 Hwf _ _ Hp). }
  assert (Hlen : pid < predictions_length s').
  { unfold predictions_length. apply lookup_lt_Some in Hp'. lia. }
  exists (totalStaked p'), (totalBets p'),
    (take (Z.to_nat (optionCount p')) (optionCounts p')),
    (with_trace s' (CounterRead pid <$> seq 0 (Z.to_nat (optionCount p')))),
    (bet_choice ec proof), (bet_amount m).
  split; [by apply getPredictionTotals_eq|].
  split; [by apply getOptionCounts_eq|].
  split.
  { rewrite getUserBet_eq by lia. unfold bet_at. rewrite HB, lookup_insert_eq. done. }
  split; [reflexivity|].
  split.
  { unfold bet_amount, to_uint64. cbn [denote bits]. unfold UINT64_MAX in Hv.
    by rewrite !(Z.mod_small (value m)) by lia. }
  intros h Hh. unfold allowed. rewrite HA.
  assert (h ∈ market_handles p' \/ h ∈ bet_handles b) as [Hin | Hin].
  { unfold market_handles, bet_handles, b. cbn [choice amount].
    revert Hh. rewrite !elem_of_cons, elem_of_nil. tauto. }
  - destruct (bet_grants_market this (sender m) p' b (acl s) h Hin). done.
  - destruct (bet_grants_bet this (sender m) p' b (acl s) h Hin). done.
Qed.

(** ** Metadata *)

Lemma ledger_step_metadata this m c s s' n p :
  ledger_step this m c s s' -> _predictions s !! n = Some p ->
  exists p', _predictions s' !! n = Some p' /\ metadata p' = metadata p.
Proof.
  intros [-> | t o _ _ HP _ _ _ | pid ec proof p0 _ _ Hp0 _ _ HP _ _ _ | pid p0 _ _ _ HP _ _ _] Hp;
    [by exists p | rewrite HP ..].
  - exists p. split; [|done]. by apply lookup_app_l_Some.
  - destruct (decide (Z.to_nat pid = n)) as [<- | Hne].
    + exists (bet_prediction m ec proof p0). split.
      * apply list_lookup_insert_eq. by eapply lookup_lt_Some.
      * rewrite Hp0 in Hp. by injection Hp as <-.
    + exists p. by rewrite list_lookup_insert_ne.
  - by exists p.
Qed.

Lemma steps_metadata this s s' n p :
  reachable this s -> steps this s s' -> _predictions s !! n = Some p ->
  exists p', _predictions s' !! n = Some p' /\ metadata p' = metadata p.
Proof.
  intros Hr Hs Hp. induction Hs as [| s' m c Hs (p' & Hp' & Hmeta) Hm Hc]; [by exists p|].
  assert (Hwf : wf_state s') by (eapply reachable_wf, steps_reachable; eauto).
  destruct (ledger_step_metadata _ _ _ _ _ _ _ (transact_ledger_step this m c s' Hwf Hm Hc) Hp')
    as (p'' & Hp'' & Hmeta').
  exists p''. split; [done|]. by rewrite Hmeta'.
Qed.

(** Success of [createPrediction] implies its guard and its whole effect. *)
Lemma createPrediction_Ok_step this m title options s id s' :
  createPrediction this m title options s = Ok id s' ->
  (2 <= length options <= 4)%nat /\
  id = predictions_length s /\
  _predictions s' = _predictions s ++ [new_prediction m title options] /\
  _bets s' = _bets s /\
  acl s' = acl s ++ create_grants this (length options).
Proof.
  intros Hrun.
  assert (Hv : value m = 0).
  { destruct (decide (value m = 0)) as [|Hne]; [done|].
    rewrite createPrediction_NonPayable in Hrun by done. discriminate. }
  destruct (decide (2 <= length options <= 4)%nat) as [Hlen | Hlen].
  - destruct (wp_elim _ _ _ (createPrediction_grants this m title options s Hv Hlen))
      as (id' & s'' & Hrun' & Hid & HP & HB & HA).
    rewrite Hrun in Hrun'. inversion Hrun'; subst id' s''. done.
  - rewrite (createPrediction_InvalidOptions _ _ _ _ _ Hv) in Hrun by lia. discriminate.
Qed.

Lemma createPrediction_Ok_transact this m title options s id s' :
  createPrediction this m title options s = Ok id s' ->
  transact this m (CreatePrediction title options) s = s'.
Proof. intros Hrun. unfold transact, run_call, bind. by rewrite Hrun. Qed.

(** X4: what [createPrediction] stored is what the metadata views return,
    at any later time.  After a successful [createPrediction] with title
    [title] and options [options], and any further transactions,
    [getPredictionMeta] of the returned id gives the title, the number of
    options, the creation time reduced to 64 bits and the creator
    [msg.sender], and [getPredictionOptions] gives the options in the order
    they were passed: no function rewrites a market's metadata. *)
Theorem created_market_metadata this s0 m title options id s1 s :
  reachable this s0 -> wf_msg m -> value m = 0 ->
  createPrediction this m title options s0 = Ok id s1 ->
  steps this s1 s ->
  getPredictionMeta id s =
    Ok (title, Z.of_nat (length options), timestamp m mod 2 ^ 64, sender m) s /\
  getPredictionOptions id s = Ok options s.
Proof.
  intros Hr Hm Hv Hrun Hs.
  destruct (createPrediction_Ok_step _ _ _ _ _ _ _ Hrun) as (Hlen & -> & HP & _).
  assert (Hr1 : reachable this s1).
  { rewrite <- (createPrediction_Ok_transact _ _ _ _ _ _ _ Hrun). by apply reachable_step. }
  assert (Hp : _predictions s1 !! Z.to_nat (predictions_length s0) =
               Some (new_prediction m title options)).
  { rewrite HP. apply lookup_snoc. }
  destruct (steps_metadata _ _ _ _ _ Hr1 Hs Hp) as (p' & Hp' & Hmeta).
  assert (Hid : 0 <= predictions_length s0) by (unfold predictions_length; lia).
  rewrite (getPredictionMeta_eq _ _ _ Hid Hp'), (getPredictionOptions_eq _ _ _ Hid Hp').
  unfold metadata, new_prediction in Hmeta. cbn in Hmeta.
  injection Hmeta as -> -> -> -> ->.
  unfold to_uint8, to_uint64. rewrite (Z.mod_small (Z.of_nat _)) by lia. done.
Qed.

Lemma ledger_step_length this m c s s' :
  ledger_step this m c s s' -> predictions_length s <= predictions_length s'.
Proof.
  unfold predictions_length.
  intros [-> | t o _ _ HP _ _ _ | pid ec proof p0 _ _ _ _ _ HP _ _ _ | pid p0 _ _ _ HP _ _ _];
    [lia | rewrite HP ..].
  - rewrite length_app. cbn. lia.
  - rewrite length_insert. lia.
  - lia.
Qed.

Lemma reachable_registry_inv this s : reachable this s -> registry_inv s.
Proof.
  revert s. apply (reachable_ledger_ind this registry_inv).
  - split.
    + intros n p Hp. cbn in Hp. by rewrite lookup_nil in Hp.
    + intros pid u b Hb. cbn in Hb. by rewrite lookup_empty in Hb.
  - intros m c s s' Hr [IHo IHb] Hstep.
    pose proof (ledger_step_length _ _ _ _ _ Hstep) as Hlen.
    destruct Hstep as [-> | t o _ Ho HP HB _ _ | pid ec proof p0 _ Hpid Hp0 _ _ HP HB _ _
                       | pid p0 _ _ _ HP HB _ _]; [done | split ..].
    + intros n p. rewrite HP. intros [Hp | [_ Hp]]%lookup_app_Some; [by eapply IHo|].
      apply list_lookup_singleton_Some in Hp as [_ <-].
      unfold new_prediction, to_uint8. cbn [options optionCount].
      rewrite Z.mod_small; lia.
    + intros pid u b. rewrite HB. intros Hb. specialize (IHb _ _ _ Hb). lia.
    + intros n p. rewrite HP. destruct (decide (Z.to_nat pid = n)) as [<- | Hne].
      * rewrite list_lookup_insert_eq by (by eapply lookup_lt_Some).
        intros [= <-]. cbn [bet_prediction options optionCount]. by eapply IHo.
      * rewrite list_lookup_insert_ne by done. by apply IHo.
    + intros q u b. rewrite HB. destruct (decide ((pid, sender m) = (q, u))) as [[= <- <-] | Hne].
      * intros _. apply lookup_lt_Some in Hp0. unfold predictions_length in *. lia.
      * rewrite lookup_insert_ne by done. intros Hb. specialize (IHb _ _ _ Hb). lia.
    + intros n p. rewrite HP. by apply IHo.
    + intros q u b. rewrite HB. intros Hb. specialize (IHb _ _ _ Hb). lia.
Qed.

(** X5: a market starts empty.  Right after a successful
    [createPrediction], [getPredictionTotals] of the new id returns two
    handles that decrypt to 0, [getOptionCounts] returns one counter per
    option passed, each decrypting to 0, and [getUserBet] reports no bet for
    any participant. *)
Theorem created_market_empty this s0 m title options id s1 :
  reachable this s0 ->
  createPrediction this m title options s0 = Ok id s1 ->
  exists ts tb counts s',
    getPredictionTotals id s1 = Ok (ts, tb) s1 /\
    denote ts = 0 /\ denote tb = 0 /\
    getOptionCounts id s1 = Ok counts s' /\
    length counts = length options /\
    (forall c, c ∈ counts -> denote c = 0) /\
    (forall user, getUserBet id user s1 = Ok (false, HNull, HNull) s1).
Proof.
  intros Hr Hrun.
  destruct (createPrediction_Ok_step _ _ _ _ _ _ _ Hrun) as (Hlen & -> & HP & HB & _).
  set (p := new_prediction m title options) in *.
  assert (Hp : _predictions s1 !! Z.to_nat (predictions_length s0) = Some p).
  { rewrite HP. apply lookup_snoc. }
  assert (Hid : 0 <= predictions_length s0) by (unfold predictions_length; lia).
  assert (Hk : Z.to_nat (optionCount p) = length options).
  { unfold p, new_prediction, to_uint8. cbn [optionCount]. rewrite Z.mod_small; lia. }
  exists (totalStaked p), (totalBets p), (take (Z.to_nat (optionCount p)) (optionCounts p)),
    (with_trace s1 (CounterRead (predictions_length s0) <$> seq 0 (Z.to_nat (optionCount p)))).
  split; [by apply getPredictionTotals_eq|].
  split; [done|]. split; [done|].
  split; [apply getOptionCounts_eq; [done | done | by apply wf_new_prediction]|].
  split.
  { rewrite length_take, Hk. unfold p, new_prediction. cbn [optionCounts].
    rewrite length_app, !length_replicate. lia. }
  split.
  { intros c Hc. assert (c ∈ market_handles p) as Hin by (by do 2 apply list_elem_of_further).
    by destruct (new_prediction_handles _ _ _ _ Hlen Hin) as [-> | ->]. }
  intros user. rewrite getUserBet_eq.
  2: { split; [done|]. unfold predictions_length. rewrite HP, length_app. cbn. lia. }
  unfold bet_at. rewrite HB.
  destruct (_bets s0 !! (predictions_length s0, user)) as [b|] eqn:Hb; [|done].
  destruct (reachable_registry_inv _ _ Hr) as [_ Hin]. specialize (Hin _ _ _ Hb). lia.
Qed.

(** X6: every view answers for every existing market.  In a reachable
    ledger, for each id below [getPredictionCount], the five views return
    without reverting; the metadata view reports between two and four
    options, the options view returns that many strings and the counters
    view that many handles; no view changes a market, a bet, a permission or
    the event log. *)
Theorem views_succeed this s pid user :
  reachable this s -> 0 <= pid < predictions_length s ->
  exists t k time cr opts ts tb counts s' ex ch am,
    getPredictionMeta pid s = Ok (t, k, time, cr) s /\
    getPredictionOptions pid s = Ok opts s /\
    getPredictionTotals pid s = Ok (ts, tb) s /\
    getOptionCounts pid s = Ok counts s' /\
    getUserBet pid user s = Ok (ex, ch, am) s /\
    2 <= k <= 4 /\
    Z.of_nat (length opts) = k /\
    Z.of_nat (length counts) = k /\
    _predictions s' = _predictions s /\ _bets s' = _bets s /\
    acl s' = acl s /\ events s' = events s.
Proof.
  intros Hr Hpid.
  destruct (lookup_prediction_lt s pid Hpid) as [p Hp].
  pose proof (reachable_wf_prediction _ _ _ _ Hr Hp) as Hwf.
  destruct (reachable_registry_inv _ _ Hr) as [Ho _].
  exists (title p), (optionCount p), (createdAt p), (creator p), (options p),
    (totalStaked p), (totalBets p), (take (Z.to_nat (optionCount p)) (optionCounts p)),
    (with_trace s (CounterRead pid <$> seq 0 (Z.to_nat (optionCount p)))),
    (exists_ (bet_at s pid user)), (choice (bet_at s pid user)), (amount (bet_at s pid user)).
  destruct Hpid as [Hpid Hlt].
  split; [by apply getPredictionMeta_eq|].
  split; [by apply getPredictionOptions_eq|].
  split; [by apply getPredictionTotals_eq|].
  split; [by apply getOptionCounts_eq|].
  split; [by apply getUserBet_eq|].
  destruct Hwf as (Hl & Hk & _).
  split; [done|]. split; [by eapply Ho|].
  split; [rewrite length_take; lia|]. done.
Qed.

(** ** One bet per participant *)

(** X7: a participant bets at most once on a market.  Once a participant's
    [placeBet] on a market was accepted, every later [placeBet] by the same
    sender on that market reverts, whatever choice and stake it carries:
    with [InvalidBetAmount] when the stake is 0 or above 2^64-1, with
    [BetAlreadyPlaced] otherwise; the ledger is left as it was. *)
Theorem one_bet_per_participant this s0 m pid ec proof s1 s m' ec' proof' :
  reachable this s0 -> wf_msg m -> wf_call m (PlaceBet pid ec proof) ->
  placeBet this m pid ec proof s0 = Ok tt s1 ->
  steps this s1 s ->
  wf_msg m' -> sender m' = sender m ->
  placeBet this m' pid ec' proof' s =
    Revert (if (value m' =? 0) || (value m' >? UINT64_MAX)
            then InvalidBetAmount else BetAlreadyPlaced) /\
  transact this m' (PlaceBet pid ec' proof') s = s.
Proof.
  intros Hr Hm Hc Hrun Hs Hm' Hsender.
  pose proof Hc as [[Hpid _] _]. pose proof Hm' as (_ & Hval & _).
  destruct (placeBet_Ok_inv _ _ _ _ _ _ _ _ (reachable_wf _ _ Hr) Hm Hpid Hrun)
    as (p & Hp & _ & _ & _ & HP & HB & _).
  assert (Hr1 : reachable this s1).
  { replace s1 with (transact this m (PlaceBet pid ec proof) s0).
    - by apply reachable_step.
    - unfold transact. cbn [run_call]. by rewrite Hrun. }
  assert (Hlen : pid < predictions_length s).
  { pose proof (steps_length _ _ _ Hr1 Hs) as Hle.
    assert (pid < predictions_length s1); [|lia].
    unfold predictions_length. rewrite HP, length_insert.
    apply lookup_lt_Some in Hp. lia. }
  assert (Hb : exists_ (bet_at s pid (sender m')) = true).
  { unfold bet_at. rewrite Hsender.
    rewrite (steps_bets _ _ _ (pid, sender m)
               (mkBet (bet_choice ec proof) (bet_amount m) true) Hr1 Hs); [done|].
    rewrite HB. apply lookup_insert_eq. }
  assert (Hrev : placeBet this m' pid ec' proof' s =
    Revert (if (value m' =? 0) || (value m' >? UINT64_MAX)
            then InvalidBetAmount else BetAlreadyPlaced)).
  { destruct ((value m' =? 0) || (value m' >? UINT64_MAX)) eqn:Hv.
    - apply placeBet_InvalidBetAmount; [done|]. apply orb_true_iff in Hv. lia.
    - apply placeBet_BetAlreadyPlaced; [done | | done]. apply orb_false_iff in Hv. lia. }
  split; [done|]. unfold transact. cbn [run_call]. by rewrite Hrev.
Qed.

(** ** The event log *)

Lemma created_records_snoc s s' e :
  events s' = events s ++ [e] ->
  created_records s' = created_records s ++ from_option (fun r => [r]) [] (created_record e).
Proof.
  intros HE. unfold created_records. rewrite HE, omap_app. cbn.
  by destruct (created_record e).
Qed.

Lemma placed_records_snoc s s' e :
  events s' = events s ++ [e] ->
  placed_records s' = placed_records s ++ from_option (fun r => [r]) [] (placed_record e).
Proof.
  intros HE. unfold placed_records. rewrite HE, omap_app. cbn.
  by destruct (placed_record e).
Qed.

Lemma created_registry_inv this s :
  reachable this s -> created_records s = registry_records s.
Proof.
  revert s. apply (reachable_ledger_ind this (fun s => created_records s = registry_records s)).
  - done.
  - intros m c s s' Hr IH
      [-> | t o _ Hlen HP _ HE _ | pid ec proof p0 _ _ Hp0 _ _ HP _ HE _ | pid p0 _ _ _ HP _ HE _].
    + done.
    + rewrite (created_records_snoc _ _ _ HE), IH. unfold registry_records.
      rewrite HP, imap_app. cbn. rewrite Nat.add_0_r.
      unfold to_uint8. rewrite Z.mod_small by lia. done.
    + rewrite (created_records_snoc _ _ _ HE), IH. cbn. rewrite app_nil_r.
      unfold registry_records. rewrite HP. apply list_eq. intros i.
      rewrite !list_lookup_imap.
      destruct (decide (Z.to_nat pid = i)) as [<- | Hne].
      * rewrite list_lookup_insert_eq by (by eapply lookup_lt_Some). by rewrite Hp0.
      * by rewrite list_lookup_insert_ne.
    + unfold created_records, registry_records. rewrite HE, HP. exact IH.
Qed.

(** X8: the [PredictionCreated] records are the registry.  In every
    reachable ledger the [PredictionCreated] events, in the order they were
    emitted, list the markets of the registry in id order, each with its id,
    creator, title and number of options; so there are exactly
    [getPredictionCount] of them and the i-th carries id i. *)
Theorem created_events_registry this s :
  reachable this s ->
  created_records s = registry_records s /\
  getPredictionCount s = Ok (Z.of_nat (length (created_records s))) s /\
  (forall i r, created_records s !! i = Some r -> r.1.1.1 = Z.of_nat i).
Proof.
  intros Hr. pose proof (created_registry_inv _ _ Hr) as Heq.
  split; [done|]. split.
  - rewrite getPredictionCount_eq, Heq. unfold registry_records, predictions_length.
    by rewrite length_imap.
  - intros i r. rewrite Heq. unfold registry_records. rewrite list_lookup_imap.
    destruct (_predictions s !! i); [|done]. by intros [= <-].
Qed.

Lemma placed_bets_inv this s :
  reachable this s ->
  NoDup (placed_key <$> placed_records s) /\
  (forall pid u a, (pid, u, a) ∈ placed_records s <->
     exists b, _bets s !! (pid, u) = Some b /\ amount b = HTrivial EUint64 a).
Proof.
  revert s. apply (reachable_ledger_ind this (fun s =>
    NoDup (placed_key <$> placed_records s) /\
    (forall pid u a, (pid, u, a) ∈ placed_records s <->
       exists b, _bets s !! (pid, u) = Some b /\ amount b = HTrivial EUint64 a))).
  - split; [apply NoDup_nil_2|]. intros pid u a. split.
    + intros Hin. by apply elem_of_nil in Hin.
    + intros (b & Hb & _). cbn in Hb. by rewrite lookup_empty in Hb.
  - intros m c s s' Hr [IHn IHb] Hstep.
    pose proof (reachable_wf _ _ Hr) as [_ Hex].
    destruct Hstep as [-> | t o _ Hlen _ HB HE _ | pid ec proof p0 _ _ _ _ Hnone _ HB HE _
                       | pid p0 _ _ _ _ HB HE _].
    + done.
    + rewrite (placed_records_snoc _ _ _ HE). cbn. rewrite app_nil_r, HB. done.
    + rewrite (placed_records_snoc _ _ _ HE). cbn.
      assert (Hfresh : _bets s !! (pid, sender m) = None).
      { unfold bet_at in Hnone. destruct (_bets s !! (pid, sender m)) as [b|] eqn:Hb; [|done].
        cbn in Hnone. by rewrite (Hex _ _ Hb) in Hnone. }
      split.
      * rewrite fmap_app. apply NoDup_app. split; [done|]. split; [|apply NoDup_singleton].
        intros key Hin Hkey. apply list_elem_of_singleton in Hkey as ->.
        apply list_elem_of_fmap in Hin as ([[q u] a] & Hk & Hin). cbn in Hk. injection Hk as <- <-.
        apply IHb in Hin as (b & Hb & _). by rewrite Hfresh in Hb.
      * intros q u a. rewrite elem_of_app, list_elem_of_singleton, HB, IHb. split.
        -- intros [(b & Hb & Ha) | [= -> -> ->]].
           ++ exists b. split; [|done]. rewrite lookup_insert_ne; [done|].
              intros [= <- <-]. by rewrite Hfresh in Hb.
           ++ eexists. split; [apply lookup_insert_eq | done].
        -- intros (b & Hb & Ha).
           destruct (decide ((pid, sender m) = (q, u))) as [[= <- <-] | Hne].
           ++ rewrite lookup_insert_eq in Hb. injection Hb as <-.
              cbn in Ha. unfold bet_amount in Ha. injection Ha as <-. by right.
           ++ rewrite lookup_insert_ne in Hb by done. left. eauto.
    + unfold placed_records. rewrite HE, HB. done.
Qed.

(** X9: the [BetPlaced] records are the recorded bets.  In every reachable
    ledger no two [BetPlaced] events name the same market and bettor, and
    there is a [BetPlaced] event for market [pid], bettor [u] and amount [a]
    exactly when a bet of [u] on [pid] is recorded whose amount handle is
    the trivial encryption of [a]; such a bet is flagged as existing and its
    market exists. *)
Theorem placed_events_bets this s :
  reachable this s ->
  NoDup (placed_key <$> placed_records s) /\
  (forall pid u a,
     BetPlaced pid u a ∈ events s <->
     exists b, _bets s !! (pid, u) = Some b /\ amount b = HTrivial EUint64 a) /\
  (forall pid u a,
     BetPlaced pid u a ∈ events s ->
     0 <= pid < predictions_length s /\
     exists ch, getUserBet pid u s = Ok (true, ch, HTrivial EUint64 a) s).
Proof.
  intros Hr. destruct (placed_bets_inv _ _ Hr) as [Hn Hb].
  assert (Hev : forall pid u a, BetPlaced pid u a ∈ events s <-> (pid, u, a) ∈ placed_records s).
  { intros pid u a. unfold placed_records. rewrite list_elem_of_omap. split.
    - intros Hin. by exists (BetPlaced pid u a).
    - intros (e & Hin & He). destruct e; [done|]. cbn in He. by injection He as -> -> ->. }
  split; [done|]. split.
  - intros pid u a. by rewrite Hev.
  - intros pid u a Hin. apply Hev, Hb in Hin as (b & Hbet & Ha).
    destruct (reachable_registry_inv _ _ Hr) as [_ Hrange].
    pose proof (Hrange _ _ _ Hbet) as Hpid. split; [done|].
    exists (choice b). rewrite getUserBet_eq by done. unfold bet_at. rewrite Hbet. cbn.
    rewrite Ha. by rewrite (proj2 (reachable_wf _ _ Hr) _ _ Hbet).
Qed.

(** ** What one bet does to the counters *)

Lemma reachable_counters_bounded this s :
  reachable this s ->
  forall n p i c, _predictions s !! n = Some p -> optionCounts p !! i = Some c ->
                  0 <= denote c < 2 ^ 32.
Proof.
  revert s. apply (reachable_ledger_ind this (fun s =>
    forall n p i c, _predictions s !! n = Some p -> optionCounts p !! i = Some c ->
                    0 <= denote c < 2 ^ 32)).
  - intros n p i c Hp. cbn in Hp. by rewrite lookup_nil in Hp.
  - intros m c0 s s' Hr IH
      [-> | t o _ Hlen HP _ _ _ | pid ec proof p0 _ _ Hp0 _ _ HP _ _ _ | pid p0 _ _ _ HP _ _ _];
      [done | rewrite HP ..]; intros n p i c.
    + intros [Hp | [_ Hp]]%lookup_app_Some; [by eapply IH|].
      apply list_lookup_singleton_Some in Hp as [_ <-].
      unfold new_prediction. cbn [optionCounts].
      intros [Hc | [_ Hc]]%lookup_app_Some;
        apply lookup_replicate in Hc as [-> _]; cbn [denote bits];
        try apply Z.mod_pos_bound; lia.
    + destruct (decide (Z.to_nat pid = n)) as [<- | Hne].
      * rewrite list_lookup_insert_eq by (by eapply lookup_lt_Some).
        intros [= <-]. cbn [bet_prediction optionCounts]. rewrite bump_counts_lookup.
        destruct (optionCounts p0 !! i) as [c1|] eqn:Hc1; [|done].
        cbn [fmap option_fmap option_map]. intros [= <-].
        destruct (i <? Z.to_nat (optionCount p0))%nat; [|by eapply IH].
        unfold bump. cbn [denote bits]. apply Z.mod_pos_bound. lia.
      * rewrite list_lookup_insert_ne by done. by apply IH.
    + by apply IH.
Qed.

(** X10: what one accepted bet does to the counters, in plaintext.  After
    an accepted [placeBet] whose secret choice, reduced to 8 bits, is [x],
    the counter of option [x] decrypts to its previous value plus one (wrapped
    to 32 bits) when [x] is below [optionCount], and every other counter
    slot decrypts to what it did before; so a choice outside the options
    raises no counter. *)
Theorem placeBet_counters this m pid ec proof s s' p :
  reachable this s -> wf_msg m -> 0 <= pid ->
  _predictions s !! Z.to_nat pid = Some p ->
  placeBet this m pid ec proof s = Ok tt s' ->
  exists p',
    _predictions s' !! Z.to_nat pid = Some p' /\
    forall i c, optionCounts p !! i = Some c ->
      exists c',
        optionCounts p' !! i = Some c' /\
        denote c' =
          if (Z.of_nat i <? optionCount p) && (proof_plain proof mod 2 ^ 8 =? Z.of_nat i)
          then (denote c + 1) mod 2 ^ 32
          else denote c.
Proof.
  intros Hr Hm Hpid Hp Hrun.
  destruct (placeBet_Ok_inv _ _ _ _ _ _ _ _ (reachable_wf _ _ Hr) Hm Hpid Hrun)
    as (p0 & Hp0 & _ & _ & _ & HP & _).
  rewrite Hp in Hp0. injection Hp0 as <-.
  exists (bet_prediction m ec proof p). split.
  { rewrite HP. apply list_lookup_insert_eq. by eapply lookup_lt_Some. }
  intros i c Hc. cbn [bet_prediction optionCounts]. rewrite bump_counts_lookup, Hc.
  cbn [fmap option_fmap option_map]. eexists. split; [reflexivity|].
  pose proof (reachable_counters_bounded _ _ Hr _ _ _ _ Hp Hc) as Hbound.
  destruct (reachable_wf_prediction _ _ _ _ Hr Hp) as (Hl & Hk & _).
  pose proof (lookup_lt_Some _ _ _ Hc) as Hi.
  destruct (Nat.ltb_spec i (Z.to_nat (optionCount p))) as [Hlt | Hge].
  - assert ((Z.of_nat i <? optionCount p) = true) as -> by lia. cbn [andb].
    rewrite denote_bump by lia. unfold bet_choice. cbn [denote bits].
    destruct (proof_plain proof mod 2 ^ 8 =? Z.of_nat i); [done|].
    rewrite Z.add_0_r. apply Z.mod_small. lia.
  - assert ((Z.of_nat i <? optionCount p) = false) as -> by lia. done.
Qed.

(** ** What a transaction leaves alone *)

(** X11: a transaction touches at most the market and the bet slot it
    names.  Across any transaction from a reachable ledger, every market
    other than the one a [placeBet] names is left exactly as it was, every
    bet slot other than the caller's slot in that market is left as it was,
    and a recorded bet is never overwritten or removed; [createPrediction]
    and [grantAccess] change no existing market and no bet. *)
Theorem transact_frame this s m c :
  reachable this s -> wf_msg m -> wf_call m c ->
  (forall n p, _predictions s !! n = Some p ->
     (forall ec proof, c <> PlaceBet (Z.of_nat n) ec proof) ->
     _predictions (transact this m c s) !! n = Some p) /\
  (forall q u,
     (forall ec proof, c <> PlaceBet q ec proof) \/ u <> sender m ->
     _bets (transact this m c s) !! (q, u) = _bets s !! (q, u)) /\
  (forall q u b, _bets s !! (q, u) = Some b ->
     _bets (transact this m c s) !! (q, u) = Some b).
Proof.
  intros Hr Hm Hc.
  pose proof (reachable_wf _ _ Hr) as Hwf.
  pose proof (transact_ledger_step this m c s Hwf Hm Hc) as Hstep.
  generalize dependent (transact this m c s). intros s' Hstep.
  destruct Hstep as [-> | t o _ _ HP HB _ _ | pid ec proof p0 -> Hpid Hp0 _ Hnone HP HB _ _
                     | pid p0 _ _ _ HP HB _ _]; [done | rewrite HP, HB ..].
  - split; [|done]. intros n p Hp _. by apply lookup_app_l_Some.
  - split; [|split].
    + intros n p Hp Hne. rewrite list_lookup_insert_ne; [done|].
      intros <-. apply (Hne ec proof). by rewrite Z2Nat.id.
    + intros q u [Hne | Hne]; (rewrite lookup_insert_ne; [done|]); intros [= <- <-].
      * by apply (Hne ec proof).
      * done.
    + intros q u b Hb. rewrite lookup_insert_ne; [done|]. intros [= <- <-].
      unfold bet_at in Hnone. rewrite Hb in Hnone. cbn in Hnone.
      by rewrite (proj2 Hwf _ _ Hb) in Hnone.
  - done.
Qed.

(** ** Nothing public depends on a secret, for whole executions *)

Lemma createPrediction_commutes this m title options :
  commutes (createPrediction this m title options) (createPrediction this m title options).
Proof.
  unfold createPrediction. comm.
  destruct ((Z.of_nat (length options) <? 2) || (Z.of_nat (length options) >? 4)); [comm|].
  comm. rewrite predictions_length_erase.
  apply commutes_bind; [exact commutes_push_prediction | intros ?].
  do 5 comm.
  { destruct (options !! _); repeat comm. }
  repeat comm. rewrite predictions_length_erase.
  lazymatch goal with
  | |- context [optionCount (erase ?p)] => change (optionCount (erase p)) with (optionCount p)
  end.
  apply commutes_bind; [comm | intros ?]. exact (commutes_ret _).
Qed.

Lemma run_call_commutes this m c : commutes (run_call this m c) (run_call this m (erase c)).
Proof.
  destruct c as [t o | pid ec proof | pid]; cbn [run_call erase Erase_call].
  - apply commutes_bind; [apply createPrediction_commutes | intros ?; exact (commutes_ret tt)].
  - apply placeBet_commutes.
  - apply grantAccess_commutes.
Qed.

Lemma transact_erase this m c s :
  erase (transact this m c s) = transact this m (erase c) (erase s).
Proof.
  unfold transact. rewrite <- (run_call_commutes this m c s).
  by destruct (run_call this m c s).
Qed.

Lemma accepts_erase this m c pid s :
  accepts this m (erase c) pid (erase s) = accepts this m c pid s.
Proof.
  destruct c as [t o | q ec proof | q]; cbn [accepts erase Erase_call]; [done | | done].
  rewrite <- (placeBet_commutes this m q ec proof s).
  by destruct (placeBet this m q ec proof s).
Qed.

Lemma run_erase this calls s :
  erase (run this calls s) = run this (erase <$> calls) (erase s).
Proof.
  revert s. induction calls as [|[m c] calls IH]; intros s; [done|].
  cbn [run fmap list_fmap]. rewrite IH, transact_erase. done.
Qed.

Lemma accepted_stakes_erase this pid calls s :
  accepted_stakes this pid (erase <$> calls) (erase s) = accepted_stakes this pid calls s.
Proof.
  revert s. induction calls as [|[m c] calls IH]; intros s; [done|].
  cbn [accepted_stakes fmap list_fmap]. unfold erase at 1, Erase_tx. cbn [fst snd].
  by rewrite accepts_erase, <- transact_erase, IH.
Qed.

(** X12: nothing public depends on a secret, over whole executions.
    Running a sequence of transactions commutes with blanking every secret
    plaintext; so two executions from ledgers with the same public view, by
    call sequences that differ only in the secrets behind the encrypted
    choices, end in ledgers with the same public view (stored handles,
    permissions, log of homomorphic operations and counter accesses), emit
    the same events, and accept the same bets. *)
Theorem run_oblivious this calls1 calls2 s1 s2 :
  erase s1 = erase s2 ->
  erase <$> calls1 = erase <$> calls2 ->
  erase (run this calls1 s1) = erase (run this calls2 s2) /\
  events (run this calls1 s1) = events (run this calls2 s2) /\
  (forall pid, accepted_stakes this pid calls1 s1 = accepted_stakes this pid calls2 s2).
Proof.
  intros Hs Hc.
  assert (He : erase (run this calls1 s1) = erase (run this calls2 s2)).
  { by rewrite !run_erase, Hs, Hc. }
  split; [done|]. split.
  - exact (f_equal events He).
  - intros pid. rewrite <- (accepted_stakes_erase this pid calls1 s1).
    rewrite <- (accepted_stakes_erase this pid calls2 s2). by rewrite Hs, Hc.
Qed.

(** ** The registry only grows *)


(** * The callers of [createPrediction] *)



Lemma trim_start_id s :
  (forall c, head s = Some c -> is_white_space c = false) -> trim_start s = s.
Proof. destruct s as [|x s]; cbn; [done|]. intros H. by rewrite (H x). Qed.












(** ** Recorded bets *)

(** X16: every recorded bet is a valid one that its owner can decrypt.  In
    every reachable ledger a recorded bet belongs to an existing market, is
    flagged as existing, has an amount that decrypts to a stake between 1
    and 2^64-1 and a choice that decrypts to an 8-bit value, and both the
    bettor and the contract are allowed on its choice and amount. *)
Theorem recorded_bets_valid this s pid u b :
  reachable this s -> _bets s !! (pid, u) = Some b ->
  0 <= pid < predictions_length s /\
  exists_ b = true /\
  0 < denote (amount b) <= UINT64_MAX /\
  0 <= denote (choice b) < 2 ^ 8 /\
  allowed s (choice b) u /\ allowed s (amount b) u /\
  allowed s (choice b) this /\ allowed s (amount b) this.
Proof.
  intros Hr Hb.
  split; [by eapply (proj2 (reachable_registry_inv _ _ Hr))|].
  split; [by eapply (proj2 (reachable_wf _ _ Hr))|].
  assert (Hthis : allowed s (choice b) this /\ allowed s (amount b) this).
  { split; apply (contract_allowed_inv _ _ Hr); right; exists (pid, u), b;
      (split; [done|]); unfold bet_handles; in_list. }
  cut (0 < denote (amount b) <= UINT64_MAX /\ 0 <= denote (choice b) < 2 ^ 8 /\
       allowed s (choice b) u /\ allowed s (amount b) u); [tauto|].
  clear Hthis. revert s Hr pid u b Hb.
  apply (reachable_ledger_ind this (fun s => forall pid u b,
    _bets s !! (pid, u) = Some b ->
    0 < denote (amount b) <= UINT64_MAX /\ 0 <= denote (choice b) < 2 ^ 8 /\
    allowed s (choice b) u /\ allowed s (amount b) u)).
  - intros pid u b Hb. cbn in Hb. by rewrite lookup_empty in Hb.
  - intros m c s s' Hr IH Hstep pid u b.
    assert (Hold : _bets s !! (pid, u) = Some b ->
      0 < denote (amount b) <= UINT64_MAX /\ 0 <= denote (choice b) < 2 ^ 8 /\
      allowed s' (choice b) u /\ allowed s' (amount b) u).
    { intros Hb. destruct (IH _ _ _ Hb) as (Ha & Hc & Hac & Haa).
      repeat split; try tauto; by eapply ledger_step_allowed. }
    destruct Hstep as [-> | t o _ _ _ HB _ _ | q ec proof p0 _ _ _ Hv _ _ HB _ HA
                       | q p0 _ _ _ _ HB _ _]; try (rewrite HB; exact Hold).
    + by apply IH.
    + rewrite HB. destruct (decide ((q, sender m) = (pid, u))) as [[= <- <-] | Hne].
      * rewrite lookup_insert_eq. intros [= <-]. cbn [choice amount].
        split; [|split; [|unfold allowed; rewrite HA; split;
          apply (bet_grants_bet this (sender m) _
                   (mkBet (bet_choice ec proof) (bet_amount m) true));
          unfold bet_handles; cbn [choice amount]; in_list]].
        -- unfold bet_amount, to_uint64. cbn [denote bits]. unfold UINT64_MAX in *.
           rewrite !(Z.mod_small (value m)) by lia. lia.
        -- unfold bet_choice. cbn [denote bits]. apply Z.mod_pos_bound. lia.
      * rewrite lookup_insert_ne by done. exact Hold.
Qed.

(** * Further concrete executions *)

Lemma ex_alice_state_reachable : reachable ex_this ex_alice_state.
Proof. apply run_reachable; [apply reachable_init | wf_tx_solve]. Qed.

Lemma ex_alice_run :
  placeBet ex_this (mkMsg 11 10 101) 0 7 (mkProof true 0) ex_created = Ok tt ex_alice_state.
Proof. vm_compute. reflexivity. Qed.

Lemma ex_create_run :
  createPrediction ex_this (mkMsg 11 0 100) "A or B" ["A"%string; "B"%string] init_State =
  Ok 0 ex_created.
Proof. vm_compute. reflexivity. Qed.

Lemma run_steps this calls s : Forall wf_tx calls -> steps this s (run this calls s).
Proof.
  induction calls as [|[m c] calls IH] using rev_ind; intros Hwf; [apply steps_refl|].
  apply Forall_app in Hwf as [Hwf Hmc]. apply Forall_singleton in Hmc as [Hm Hc].
  rewrite run_app. cbn [run]. apply steps_step; [by apply IH | done | done].
Qed.

Lemma ex_steps_alice : steps ex_this ex_alice_state ex_state.
Proof.
  unfold ex_calls.
  change [ex_create; ex_alice_bet; ex_bob_bet] with ([ex_create; ex_alice_bet] ++ [ex_bob_bet]).
  rewrite run_app. apply run_steps. wf_tx_solve.
Qed.

Lemma ex_steps_created : steps ex_this ex_created ex_state.
Proof.
  unfold ex_calls.
  change [ex_create; ex_alice_bet; ex_bob_bet] with ([ex_create] ++ [ex_alice_bet; ex_bob_bet]).
  rewrite run_app. apply run_steps. wf_tx_solve.
Qed.

Lemma ex_state_events :
  events ex_state =
  [PredictionCreated 0 11 "A or B" 2; BetPlaced 0 11 10; BetPlaced 0 22 20].
Proof. vm_compute. reflexivity. Qed.

Lemma contract_allowed_witness :
  reachable ex_this ex_state /\
  stored ex_state (totalStaked ex_market) /\
  allowed ex_state (totalStaked ex_market) ex_this.
Proof.
  assert (Hst : stored ex_state (totalStaked ex_market)).
  { left. exists (Z.to_nat 0), ex_market.
    split; [exact ex_market_lookup | apply list_elem_of_here]. }
  split; [exact ex_state_reachable|]. split; [exact Hst|].
  exact (contract_allowed ex_this ex_state (totalStaked ex_market) ex_state_reachable Hst).
Defined.

Lemma grants_only_to_caller_witness :
  let m := mkMsg 33 0 103 in
  let c := GrantAccess 0 in
  let h := totalStaked ex_market in
  reachable ex_this ex_state /\ wf_msg m /\ wf_call m c /\
  (allowed ex_state h ex_this -> allowed (transact ex_this m c ex_state) h ex_this) /\
  (allowed (transact ex_this m c ex_state) h ex_this ->
   allowed ex_state h ex_this \/
   ((ex_this = ex_this \/ ex_this = sender m) /\ stored (transact ex_this m c ex_state) h)).
Proof.
  intros m c h.
  assert (Hm : wf_msg m) by wf_tx_solve.
  assert (Hc : wf_call m c) by wf_tx_solve.
  split; [exact ex_state_reachable|]. split; [exact Hm|]. split; [exact Hc|].
  exact (grants_only_to_caller ex_this ex_state m c h ex_this ex_state_reachable Hm Hc).
Defined.

Lemma placeBet_grants_bettor_witness :
  let m := mkMsg 11 10 101 in
  reachable ex_this ex_created /\ wf_msg m /\ 0 <= 0 /\
  placeBet ex_this m 0 7 (mkProof true 0) ex_created = Ok tt ex_alice_state /\
  exists ts tb counts s'' ch am,
    getPredictionTotals 0 ex_alice_state = Ok (ts, tb) ex_alice_state /\
    getOptionCounts 0 ex_alice_state = Ok counts s'' /\
    getUserBet 0 11 ex_alice_state = Ok (true, ch, am) ex_alice_state /\
    denote ch = 0 /\ denote am = 10 /\
    allowed ex_alice_state ts 11 /\ allowed ex_alice_state ch 11 /\
    allowed ex_alice_state am ex_this.
Proof.
  intros m.
  assert (Hm : wf_msg m) by wf_tx_solve.
  assert (H0 : 0 <= 0) by lia.
  destruct (placeBet_grants_bettor ex_this m 0 7 (mkProof true 0) ex_created ex_alice_state
              ex_created_reachable Hm H0 ex_alice_run)
    as (ts & tb & counts & s'' & ch & am & Ht & Hc & Hb & Hch & Ham & Hall).
  split; [exact ex_created_reachable|]. split; [exact Hm|]. split; [exact H0|].
  split; [exact ex_alice_run|].
  exists ts, tb, counts, s'', ch, am.
  split; [exact Ht|]. split; [exact Hc|]. split; [exact Hb|].
  split; [exact Hch|]. split; [exact Ham|].
  split; [apply Hall; apply list_elem_of_here|].
  split; [apply Hall; do 2 apply list_elem_of_further; apply list_elem_of_here|].
  apply Hall. do 3 apply list_elem_of_further. apply list_elem_of_here.
Defined.

Lemma created_market_metadata_witness :
  let m := mkMsg 11 0 100 in
  reachable ex_this init_State /\ wf_msg m /\ value m = 0 /\
  createPrediction ex_this m "A or B" ["A"%string; "B"%string] init_State = Ok 0 ex_created /\
  steps ex_this ex_created ex_state /\
  getPredictionMeta 0 ex_state = Ok ("A or B"%string, 2, 100, 11) ex_state /\
  getPredictionOptions 0 ex_state = Ok ["A"%string; "B"%string] ex_state.
Proof.
  intros m.
  assert (Hm : wf_msg m) by wf_tx_solve.
  split; [apply reachable_init|]. split; [exact Hm|]. split; [reflexivity|].
  split; [exact ex_create_run|]. split; [exact ex_steps_created|].
  exact (created_market_metadata ex_this init_State m "A or B" ["A"%string; "B"%string] 0
           ex_created ex_state (reachable_init ex_this) Hm eq_refl ex_create_run
           ex_steps_created).
Defined.

Lemma created_market_empty_witness :
  reachable ex_this init_State /\
  createPrediction ex_this (mkMsg 11 0 100) "A or B" ["A"%string; "B"%string] init_State =
    Ok 0 ex_created /\
  exists ts tb counts s',
    getPredictionTotals 0 ex_created = Ok (ts, tb) ex_created /\
    denote ts = 0 /\ denote tb = 0 /\
    getOptionCounts 0 ex_created = Ok counts s' /\
    length counts = 2%nat /\
    getUserBet 0 11 ex_created = Ok (false, HNull, HNull) ex_created.
Proof.
  destruct (created_market_empty ex_this init_State (mkMsg 11 0 100) "A or B"
              ["A"%string; "B"%string] 0 ex_created (reachable_init ex_this) ex_create_run)
    as (ts & tb & counts & s' & Ht & Hts & Htb & Hc & Hlen & _ & Hb).
  split; [apply reachable_init|]. split; [exact ex_create_run|].
  exists ts, tb, counts, s'.
  split; [exact Ht|]. split; [exact Hts|]. split; [exact Htb|]. split; [exact Hc|].
  split; [exact Hlen | exact (Hb 11)].
Defined.

Lemma views_succeed_witness :
  reachable ex_this ex_state /\ 0 <= 0 < predictions_length ex_state /\
  exists t k time cr opts ts tb counts s' ex ch am,
    getPredictionMeta 0 ex_state = Ok (t, k, time, cr) ex_state /\
    getPredictionOptions 0 ex_state = Ok opts ex_state /\
    getPredictionTotals 0 ex_state = Ok (ts, tb) ex_state /\
    getOptionCounts 0 ex_state = Ok counts s' /\
    getUserBet 0 11 ex_state = Ok (ex, ch, am) ex_state /\
    2 <= k <= 4 /\
    Z.of_nat (length opts) = k /\
    Z.of_nat (length counts) = k.
Proof.
  assert (Hpid : 0 <= 0 < predictions_length ex_state) by (vm_compute; split; congruence).
  destruct (views_succeed ex_this ex_state 0 11 ex_state_reachable Hpid)
    as (t & k & time & cr & opts & ts & tb & counts & s' & ex & ch & am &
        H1 & H2 & H3 & H4 & H5 & H6 & H7 & H8 & _).
  split; [exact ex_state_reachable|]. split; [exact Hpid|].
  exists t, k, time, cr, opts, ts, tb, counts, s', ex, ch, am.
  repeat (split; [assumption|]). assumption.
Defined.

Lemma one_bet_per_participant_witness :
  let m := mkMsg 11 10 101 in
  let m' := mkMsg 11 5 104 in
  reachable ex_this ex_created /\ wf_msg m /\ wf_call m (PlaceBet 0 7 (mkProof true 0)) /\
  placeBet ex_this m 0 7 (mkProof true 0) ex_created = Ok tt ex_alice_state /\
  steps ex_this ex_alice_state ex_state /\ wf_msg m' /\ sender m' = sender m /\
  placeBet ex_this m' 0 9 (mkProof true 1) ex_state = Revert BetAlreadyPlaced /\
  transact ex_this m' (PlaceBet 0 9 (mkProof true 1)) ex_state = ex_state.
Proof.
  intros m m'.
  assert (Hm : wf_msg m) by wf_tx_solve.
  assert (Hc : wf_call m (PlaceBet 0 7 (mkProof true 0))) by wf_tx_solve.
  assert (Hm' : wf_msg m') by wf_tx_solve.
  split; [exact ex_created_reachable|]. split; [exact Hm|]. split; [exact Hc|].
  split; [exact ex_alice_run|]. split; [exact ex_steps_alice|]. split; [exact Hm'|].
  split; [reflexivity|].
  exact (one_bet_per_participant ex_this ex_created m 0 7 (mkProof true 0) ex_alice_state
           ex_state m' 9 (mkProof true 1) ex_created_reachable Hm Hc ex_alice_run
           ex_steps_alice Hm' eq_refl).
Defined.

Lemma created_events_registry_witness :
  reachable ex_this ex_state /\
  created_records ex_state = registry_records ex_state /\
  getPredictionCount ex_state = Ok (Z.of_nat (length (created_records ex_state))) ex_state.
Proof.
  destruct (created_events_registry ex_this ex_state ex_state_reachable) as (H1 & H2 & _).
  split; [exact ex_state_reachable|]. split; [exact H1 | exact H2].
Defined.

Lemma placed_events_bets_witness :
  reachable ex_this ex_state /\
  NoDup (placed_key <$> placed_records ex_state) /\
  BetPlaced 0 11 10 ∈ events ex_state /\
  exists ch, getUserBet 0 11 ex_state = Ok (true, ch, HTrivial EUint64 10) ex_state.
Proof.
  destruct (placed_events_bets ex_this ex_state ex_state_reachable) as (Hn & _ & Hv).
  assert (Hin : BetPlaced 0 11 10 ∈ events ex_state).
  { rewrite ex_state_events. apply list_elem_of_further, list_elem_of_here. }
  split; [exact ex_state_reachable|]. split; [exact Hn|]. split; [exact Hin|].
  exact (proj2 (Hv 0 11 10 Hin)).
Defined.

Lemma placeBet_counters_witness :
  let m := mkMsg 11 10 101 in
  let p := default zero_Prediction (_predictions ex_created !! 0%nat) in
  reachable ex_this ex_created /\ wf_msg m /\ 0 <= 0 /\
  _predictions ex_created !! Z.to_nat 0 = Some p /\
  placeBet ex_this m 0 7 (mkProof true 0) ex_created = Ok tt ex_alice_state /\
  exists p' c0 c1,
    _predictions ex_alice_state !! Z.to_nat 0 = Some p' /\
    optionCounts p' !! 0%nat = Some c0 /\ denote c0 = 1 /\
    optionCounts p' !! 1%nat = Some c1 /\ denote c1 = 0.
Proof.
  intros m p.
  assert (Hm : wf_msg m) by wf_tx_solve.
  assert (H0 : 0 <= 0) by lia.
  assert (Hp : _predictions ex_created !! Z.to_nat 0 = Some p) by (vm_compute; reflexivity).
  destruct (placeBet_counters ex_this m 0 7 (mkProof true 0) ex_created ex_alice_state p
              ex_created_reachable Hm H0 Hp ex_alice_run) as (p' & Hp' & Hc).
  destruct (Hc 0%nat (HTrivial EUint32 0) eq_refl) as (c0 & Hc0 & Hd0).
  destruct (Hc 1%nat (HTrivial EUint32 0) eq_refl) as (c1 & Hc1 & Hd1).
  split; [exact ex_created_reachable|]. split; [exact Hm|]. split; [exact H0|].
  split; [exact Hp|]. split; [exact ex_alice_run|].
  exists p', c0, c1.
  split; [exact Hp'|]. split; [exact Hc0|]. split; [exact Hd0|].
  split; [exact Hc1 | exact Hd1].
Defined.

Lemma transact_frame_witness :
  let m := mkMsg 22 20 102 in
  let c := PlaceBet 0 8 (mkProof true 1) in
  reachable ex_this ex_alice_state /\ wf_msg m /\ wf_call m c /\
  _bets (transact ex_this m c ex_alice_state) !! (0, 11) = _bets ex_alice_state !! (0, 11) /\
  _bets (transact ex_this m c ex_alice_state) !! (0, 11) =
    Some (mkBet (HInput EUint8 7 0) (HTrivial EUint64 10) true).
Proof.
  intros m c.
  assert (Hm : wf_msg m) by wf_tx_solve.
  assert (Hc : wf_call m c) by wf_tx_solve.
  destruct (transact_frame ex_this ex_alice_state m c ex_alice_state_reachable Hm Hc)
    as (_ & Hother & Hkeep).
  split; [exact ex_alice_state_reachable|]. split; [exact Hm|]. split; [exact Hc|].
  split.
  - apply Hother. right. cbn. lia.
  - apply Hkeep. vm_compute. reflexivity.
Defined.

Lemma run_oblivious_witness :
  erase init_State = erase init_State /\
  erase <$> ex_calls = erase <$> ex_calls_swapped /\
  erase (run ex_this ex_calls init_State) = erase (run ex_this ex_calls_swapped init_State) /\
  events (run ex_this ex_calls init_State) = events (run ex_this ex_calls_swapped init_State) /\
  accepted_stakes ex_this 0 ex_calls init_State =
    accepted_stakes ex_this 0 ex_calls_swapped init_State.
Proof.
  assert (Hc : erase <$> ex_calls = erase <$> ex_calls_swapped) by reflexivity.
  destruct (run_oblivious ex_this ex_calls ex_calls_swapped init_State init_State eq_refl Hc)
    as (H1 & H2 & H3).
  split; [reflexivity|]. split; [exact Hc|]. split; [exact H1|]. split; [exact H2 | exact (H3 0)].
Defined.




Lemma recorded_bets_valid_witness :
  reachable ex_this ex_state /\
  _bets ex_state !! (0, 22) = Some (mkBet (HInput EUint8 8 1) (HTrivial EUint64 20) true) /\
  0 <= 0 < predictions_length ex_state /\
  0 < denote (HTrivial EUint64 20) <= UINT64_MAX /\
  allowed ex_state (HInput EUint8 8 1) 22 /\
  allowed ex_state (HTrivial EUint64 20) ex_this.
Proof.
  assert (Hb : _bets ex_state !! (0, 22) =
               Some (mkBet (HInput EUint8 8 1) (HTrivial EUint64 20) true)).
  { rewrite ex_state_bets. apply lookup_insert_eq. }
  destruct (recorded_bets_valid ex_this ex_state 0 22 _ ex_state_reachable Hb)
    as (H1 & _ & H2 & _ & H3 & _ & _ & H4).
  split; [exact ex_state_reachable|]. split; [exact Hb|]. split; [exact H1|].
  split; [exact H2|]. split; [exact H3 | exact H4].
Defined.
